(** * webcrawl: a depth-bounded concurrent crawler

    A shallow embedding of [webcrawl.go].  The program has three kinds of
    goroutines: [main], the anonymous goroutine of [main] that owns [emap]
    and answers [Examine] requests, and one goroutine per call of [Crawl].
    All channels of the program are unbuffered, so that a send and the
    matching receive happen together.  The embedding is an interleaving
    semantics: a state holds the program counter and the locals of every
    goroutine, and [step] runs one goroutine for one atomic action.

    What is taken for granted:
    - the fetcher is a function: [Fetch] returns, and returns the same
      results for the same address;
    - an action is a communication, or the code of one goroutine between
      two communications or spawns that touches nothing shared (lines
      41-47 are one action, and so are lines 50-55: the call of [Fetch]
      and the print that follows);
    - when [main] returns the program exits, and no goroutine moves. *)

From Stdlib Require Import ZArith Lia.
From stdpp Require Import base option list list_numbers strings gmap.

(** ** Go's [int] (64 bits, two's complement) *)

Module GoInt.

Local Open Scope Z_scope.

Definition min_int : Z := - 2 ^ 63.
Definition max_int : Z := 2 ^ 63 - 1.

Definition in_range (z : Z) : Prop := min_int <= z <= max_int.

(** Arithmetic on [int] wraps around. *)
Definition wrap (z : Z) : Z := (z + 2 ^ 63) mod 2 ^ 64 - 2 ^ 63.

Definition sub (a b : Z) : Z := wrap (a - b).

End GoInt.

(** ** The [Fetcher] interface *)

(** A Go [error] is represented by its message; [nil] is [None]. *)
Record error := errorString { Error : string }.

Global Instance error_eq_dec : EqDecision error.
Proof. solve_decision. Defined.

(** The three results of [Fetch]: body, urls and err.  A slice is a list;
    the nil slice is the empty list (it has length 0 and [range] over it
    does not iterate). *)
Definition fetched : Type := string * list string * option error.

Class Fetcher (F : Type) := Fetch : F -> string -> fetched.

(** ** The canned fetcher *)

Record fakeResult := mkFakeResult { body : string; urls : list string }.

(** [fakeFetcher] is [map[string]*fakeResult].  Every entry the program
    stores is the address of a composite literal and is never written
    through, so that an entry is represented by the result it points to. *)
Abbreviation fakeFetcher := (gmap string fakeResult).

(** [fmt.Errorf("not found: %s", url)] *)
Definition Errorf_not_found (url : string) : error :=
  errorString ("not found: " +:+ url).

Definition fakeFetcher_Fetch (f : fakeFetcher) (url : string) : fetched :=
  match f !! url with
  | Some res => (body res, urls res, None)
  | None => (""%string, [], Some (Errorf_not_found url))
  end.

Global Instance fakeFetcher_Fetcher : Fetcher fakeFetcher := fakeFetcher_Fetch.

Module Canned.

Definition golang : string := "http://golang.org/".
Definition pkg : string := "http://golang.org/pkg/".
Definition cmd : string := "http://golang.org/cmd/".
Definition pkg_fmt : string := "http://golang.org/pkg/fmt/".
Definition pkg_os : string := "http://golang.org/pkg/os/".

(** The literal of lines 118-149, entry by entry. *)
Definition fetcher : fakeFetcher :=
  <[ golang := mkFakeResult "The Go Programming Language" [pkg; cmd] ]>
  (<[ pkg := mkFakeResult "Packages" [golang; cmd; pkg_fmt; pkg_os] ]>
  (<[ pkg_fmt := mkFakeResult "Package fmt" [golang; pkg] ]>
  (<[ pkg_os := mkFakeResult "Package os" [golang; pkg] ]> ∅))).

End Canned.

(** ** The visit set and the claim of an address *)

(** [emap[url]] on a Go map: the zero value [false] for a missing key. *)
Definition emap_get (emap : gmap string bool) (url : string) : bool :=
  default false (emap !! url).

(** Lines 92-94, for one request: the answer sent on [Goahead] and the map
    after the request. *)
Definition examine_one (emap : gmap string bool) (url : string)
  : bool * gmap string bool :=
  let goahead := emap_get emap url in
  (negb goahead, <[ url := true ]> emap).

(** The loop of lines 90-95 over a stream of requests, in the order in
    which they are received. *)
Fixpoint examine_all (emap : gmap string bool) (reqs : list string)
  : list bool * gmap string bool :=
  match reqs with
  | [] => ([], emap)
  | url :: reqs' =>
      let '(b, emap') := examine_one emap url in
      let '(bs, emap'') := examine_all emap' reqs' in
      (b :: bs, emap'')
  end.

(** ** Goroutines *)

(** A channel of strings: [ch] of [main] (line 78), or the [subch] made at
    line 58 by the [Crawl] goroutine [owner]. *)
Inductive chan : Type :=
| ChMain
| ChSub (owner : nat).

Global Instance chan_eq_dec : EqDecision chan.
Proof. solve_decision. Defined.

(** The request of lines 16-21.  The channel [Goahead] is the [shoulddo] of
    line 37; each [Crawl] goroutine makes one, and it is named by the index
    of that goroutine. *)
Record Examine := mkExamine { Goahead : nat; Url : string }.

Global Instance Examine_eq_dec : EqDecision Examine.
Proof. solve_decision. Defined.

(** Where a [Crawl] goroutine stands. *)
Inductive crawl_pc : Type :=
| AtAsk                                (* line 38, sending on examine *)
| AtAnswer                             (* line 39, receiving from shoulddo *)
| AtTests (b : bool)                   (* lines 41-47 *)
| AtFetch                              (* lines 50-55 *)
| AtSpawn (todo links : list string)   (* lines 58-61, todo still to range over *)
| AtJoin (todo : list string)          (* lines 63-66 *)
| AtDeferred                           (* line 30, the deferred send on ch *)
| Finished.

Global Instance crawl_pc_eq_dec : EqDecision crawl_pc.
Proof. solve_decision. Defined.

(** The arguments of one call of [Crawl] ([fetcher] and [examine] are the
    same in all calls) and its program counter. *)
Record crawl := mkCrawl {
  url : string;
  depth : Z;
  ch : chan;
  pc : crawl_pc
}.

Global Instance crawl_eq_dec : EqDecision crawl.
Proof. solve_decision. Defined.

Definition at_pc (c : crawl) (p : crawl_pc) : crawl :=
  mkCrawl (url c) (depth c) (ch c) p.

(** The goroutine of lines 89-96. *)
Inductive examiner_pc : Type :=
| NotStarted
| AtReceive                            (* line 91 *)
| AtUpdate (v : Examine)               (* lines 92-93 *)
| AtReply (v : Examine) (b : bool).    (* line 94, sending b on v.Goahead *)

Global Instance examiner_pc_eq_dec : EqDecision examiner_pc.
Proof. solve_decision. Defined.

Inductive main_pc : Type :=
| AtGoCrawl                            (* line 83 *)
| AtGoExaminer                         (* line 89 *)
| AtWait                               (* line 99 *)
| Returned.

Global Instance main_pc_eq_dec : EqDecision main_pc.
Proof. solve_decision. Defined.

(** What has happened so far, newest first. *)
Inductive event : Type :=
| Claimed (g : nat) (u : string) (b : bool)   (* lines 92-93 for the request of goroutine g *)
| Fetching (g : nat) (u : string)             (* the call of line 50 *)
| Println (e : error)                         (* line 52 *)
| Printf_found (u b : string)                 (* line 55 *)
| Signalled (g : nat) (c : chan) (u : string) (* u sent on c and received *).

Global Instance event_eq_dec : EqDecision event.
Proof. solve_decision. Defined.

Record state := mkState {
  crawls : list crawl;          (* every call of Crawl so far, in spawn order *)
  emap : gmap string bool;      (* line 82 *)
  examiner : examiner_pc;
  main : main_pc;
  trace : list event
}.

Inductive actor : Type :=
| Main
| Examiner
| Crawl (i : nat).

Global Instance actor_eq_dec : EqDecision actor.
Proof. solve_decision. Defined.

Section Semantics.

Context {F : Type} `{Fetcher F}.
Variable fetcher : F.
Variable root : string.
Variable budget : Z.

(** [main] has made the two channels and the map. *)
Definition init : state := mkState [] ∅ NotStarted AtGoCrawl [].

Definition step_main (s : state) : option state :=
  match main s with
  | AtGoCrawl =>
      Some (mkState (crawls s ++ [mkCrawl root budget ChMain AtAsk])
                    (emap s) (examiner s) AtGoExaminer (trace s))
  | AtGoExaminer =>
      Some (mkState (crawls s) (emap s) AtReceive AtWait (trace s))
  | AtWait => None
  | Returned => None
  end.

Definition step_examiner (s : state) : option state :=
  match examiner s with
  | NotStarted => None
  | AtReceive => None
  | AtUpdate v =>
      let goahead := emap_get (emap s) (Url v) in
      Some (mkState (crawls s) (<[ Url v := true ]> (emap s))
                    (AtReply v (negb goahead)) (main s)
                    (Claimed (Goahead v) (Url v) (negb goahead) :: trace s))
  | AtReply v b =>
      match crawls s !! Goahead v with
      | Some c =>
          match pc c with
          | AtAnswer =>
              Some (mkState (<[ Goahead v := at_pc c (AtTests b) ]> (crawls s))
                            (emap s) AtReceive (main s) (trace s))
          | _ => None
          end
      | None => None
      end
  end.

(** The deferred send of [c], the goroutine [i], when a receiver is
    ready on [ch]. *)
Definition step_deferred (s : state) (i : nat) (c : crawl) : option state :=
  match ch c with
  | ChMain =>
      match main s with
      | AtWait =>
          Some (mkState (<[ i := at_pc c Finished ]> (crawls s))
                        (emap s) (examiner s) Returned
                        (Signalled i ChMain (url c) :: trace s))
      | _ => None
      end
  | ChSub p =>
      match crawls s !! p with
      | Some parent =>
          match pc parent with
          | AtJoin (_ :: todo) =>
              Some (mkState (<[ p := at_pc parent (AtJoin todo) ]>
                               (<[ i := at_pc c Finished ]> (crawls s)))
                            (emap s) (examiner s) (main s)
                            (Signalled i (ChSub p) (url c) :: trace s))
          | _ => None
          end
      | None => None
      end
  end.

(** One action of the goroutine [i] of [Crawl].  The call of [Fetch]
    (line 50) and the print of line 52 or 55 are one action: the two
    events enter the trace together, although other goroutines may run
    between the two lines.  What is proved of the lines printed is stated
    so that it does not rest on this: of the lines that are in the trace,
    at any time, and of the calls of [Fetch], when [main] has returned. *)
Definition step_crawl (s : state) (i : nat) : option state :=
  match crawls s !! i with
  | None => None
  | Some c =>
      let goto p :=
        Some (mkState (<[ i := at_pc c p ]> (crawls s))
                      (emap s) (examiner s) (main s) (trace s)) in
      match pc c with
      | AtAsk =>
          match examiner s with
          | AtReceive =>
              Some (mkState (<[ i := at_pc c AtAnswer ]> (crawls s))
                            (emap s) (AtUpdate (mkExamine i (url c)))
                            (main s) (trace s))
          | _ => None
          end
      | AtAnswer => None
      | AtTests b =>
          if negb b then goto AtDeferred
          else if (depth c <=? 0)%Z then goto AtDeferred
          else goto AtFetch
      | AtFetch =>
          match Fetch fetcher (url c) with
          | (_, _, Some err) =>
              Some (mkState (<[ i := at_pc c AtDeferred ]> (crawls s))
                            (emap s) (examiner s) (main s)
                            (Println err :: Fetching i (url c) :: trace s))
          | (b, links, None) =>
              Some (mkState (<[ i := at_pc c (AtSpawn links links) ]> (crawls s))
                            (emap s) (examiner s) (main s)
                            (Printf_found (url c) b :: Fetching i (url c) :: trace s))
          end
      | AtSpawn (u :: todo) links =>
          Some (mkState (<[ i := at_pc c (AtSpawn todo links) ]> (crawls s)
                           ++ [mkCrawl u (GoInt.sub (depth c) 1) (ChSub i) AtAsk])
                        (emap s) (examiner s) (main s) (trace s))
      | AtSpawn [] links => goto (AtJoin links)
      | AtJoin [] => goto AtDeferred
      | AtJoin (_ :: _) => None
      | AtDeferred => step_deferred s i c
      | Finished => None
      end
  end.

(** One atomic action of the goroutine [a]; [None] when [a] cannot move
    (it is blocked, has finished, does not exist, or [main] has returned
    and the program has exited). *)
Definition step (s : state) (a : actor) : option state :=
  match main s with
  | Returned => None
  | _ =>
      match a with
      | Main => step_main s
      | Examiner => step_examiner s
      | Crawl i => step_crawl s i
      end
  end.

(** A schedule is the list of the goroutines that move, in order. *)
Fixpoint run (s : state) (sched : list actor) : option state :=
  match sched with
  | [] => Some s
  | a :: sched' =>
      match step s a with
      | Some s' => run s' sched'
      | None => None
      end
  end.

Definition reachable (s : state) : Prop :=
  exists sched, run init sched = Some s.

End Semantics.

(** ** The run of [main] *)

Module CannedRun.

Import Canned.

(** The root and the depth of line 83. *)
Definition root : string := golang.
Definition depth : Z := 4.

(** One interleaving of the goroutines, up to the return of [main]. *)
Definition schedule : list actor :=
  [Main; Main; Crawl 0; Examiner; Examiner; Crawl 0; Crawl 0; Crawl 0;
   Crawl 1; Crawl 0; Crawl 0; Examiner; Examiner; Crawl 2; Crawl 1; Crawl 1;
   Crawl 1; Crawl 1; Crawl 1; Crawl 1; Crawl 1; Examiner; Examiner; Crawl 6;
   Crawl 2; Crawl 2; Crawl 2; Examiner; Examiner; Crawl 6; Crawl 6; Crawl 6;
   Crawl 7; Crawl 6; Crawl 6; Examiner; Examiner; Crawl 8; Crawl 7; Crawl 7;
   Examiner; Examiner; Crawl 8; Crawl 8; Crawl 6; Crawl 6; Crawl 5; Examiner;
   Examiner; Crawl 5; Crawl 5; Crawl 5; Crawl 9; Crawl 5; Crawl 5; Examiner;
   Examiner; Crawl 10; Crawl 9; Crawl 9; Examiner; Examiner; Crawl 10;
   Crawl 10; Crawl 5; Crawl 5; Crawl 4; Examiner; Examiner; Crawl 4; Crawl 4;
   Crawl 3; Examiner; Examiner; Crawl 3; Crawl 3; Crawl 1; Crawl 1; Crawl 0;
   Crawl 0].

Definition main_run (sched : list actor) : option state :=
  run fetcher root depth init sched.

(** The state in which [schedule] ends. *)
Definition final : state := default init (main_run schedule).


(** A run with a budget of 0, up to the return of [main]. *)
Definition schedule0 : list actor :=
  [Main; Main; Crawl 0; Examiner; Examiner; Crawl 0; Crawl 0].

Definition final0 : state := default init (run fetcher root 0 init schedule0).

End CannedRun.

(** ** The steps as a relation

The same transitions as [step], one rule per case of the function; the
actions of a [Crawl] goroutine that touch nothing but its own program
counter and the trace are gathered in [local]. *)

Section Rules.

Context {F : Type} `{Fetcher F}.
Variable fetcher : F.
Variable root : string.
Variable budget : Z.

Inductive local (i : nat) (c : crawl) : crawl_pc -> list event -> Prop :=
| local_declined :
    pc c = AtTests false -> local i c AtDeferred []
| local_exhausted :
    pc c = AtTests true -> (depth c <= 0)%Z -> local i c AtDeferred []
| local_go_ahead :
    pc c = AtTests true -> (0 < depth c)%Z -> local i c AtFetch []
| local_fetch_failed b links err :
    pc c = AtFetch -> Fetch fetcher (url c) = (b, links, Some err) ->
    local i c AtDeferred [Println err; Fetching i (url c)]
| local_fetch_found b links :
    pc c = AtFetch -> Fetch fetcher (url c) = (b, links, None) ->
    local i c (AtSpawn links links) [Printf_found (url c) b; Fetching i (url c)]
| local_spawned links :
    pc c = AtSpawn [] links -> local i c (AtJoin links) []
| local_joined :
    pc c = AtJoin [] -> local i c AtDeferred [].

Inductive Step : state -> actor -> state -> Prop :=
| Step_go_crawl cs em ex tr :
    Step (mkState cs em ex AtGoCrawl tr) Main
         (mkState (cs ++ [mkCrawl root budget ChMain AtAsk]) em ex AtGoExaminer tr)
| Step_go_examiner cs em ex tr :
    Step (mkState cs em ex AtGoExaminer tr) Main
         (mkState cs em AtReceive AtWait tr)
| Step_update cs em mn tr v :
    mn <> Returned ->
    Step (mkState cs em (AtUpdate v) mn tr) Examiner
         (mkState cs (<[ Url v := true ]> em)
                  (AtReply v (negb (emap_get em (Url v)))) mn
                  (Claimed (Goahead v) (Url v) (negb (emap_get em (Url v))) :: tr))
| Step_reply cs em mn tr v b c :
    mn <> Returned -> cs !! Goahead v = Some c -> pc c = AtAnswer ->
    Step (mkState cs em (AtReply v b) mn tr) Examiner
         (mkState (<[ Goahead v := at_pc c (AtTests b) ]> cs) em AtReceive mn tr)
| Step_ask cs em mn tr i c :
    mn <> Returned -> cs !! i = Some c -> pc c = AtAsk ->
    Step (mkState cs em AtReceive mn tr) (Crawl i)
         (mkState (<[ i := at_pc c AtAnswer ]> cs) em
                  (AtUpdate (mkExamine i (url c))) mn tr)
| Step_local cs em ex mn tr i c p evs :
    mn <> Returned -> cs !! i = Some c -> local i c p evs ->
    Step (mkState cs em ex mn tr) (Crawl i)
         (mkState (<[ i := at_pc c p ]> cs) em ex mn (evs ++ tr))
| Step_spawn cs em ex mn tr i c u todo links :
    mn <> Returned -> cs !! i = Some c -> pc c = AtSpawn (u :: todo) links ->
    Step (mkState cs em ex mn tr) (Crawl i)
         (mkState (<[ i := at_pc c (AtSpawn todo links) ]> cs
                     ++ [mkCrawl u (GoInt.sub (depth c) 1) (ChSub i) AtAsk])
                  em ex mn tr)
| Step_signal_main cs em ex tr i c :
    cs !! i = Some c -> pc c = AtDeferred -> ch c = ChMain ->
    Step (mkState cs em ex AtWait tr) (Crawl i)
         (mkState (<[ i := at_pc c Finished ]> cs) em ex Returned
                  (Signalled i ChMain (url c) :: tr))
| Step_signal_sub cs em ex mn tr i c p parent u todo :
    mn <> Returned -> cs !! i = Some c -> pc c = AtDeferred -> ch c = ChSub p ->
    cs !! p = Some parent -> pc parent = AtJoin (u :: todo) ->
    Step (mkState cs em ex mn tr) (Crawl i)
         (mkState (<[ p := at_pc parent (AtJoin todo) ]>
                     (<[ i := at_pc c Finished ]> cs))
                  em ex mn (Signalled i (ChSub p) (url c) :: tr)).

(** The states of all runs. *)
Inductive Reach : state -> Prop :=
| Reach_init : Reach init
| Reach_step s a s' : Reach s -> Step s a s' -> Reach s'.

End Rules.

(** ** Vocabulary of the properties *)

(** How many elements of a list satisfy a test. *)
Definition count {A : Type} (f : A -> bool) (l : list A) : nat :=
  sum_list_with (fun x => Nat.b2n (f x)) l.
Global Arguments count : simpl never.

Definition is_fetch (u : string) (e : event) : bool :=
  match e with Fetching _ u' => bool_decide (u' = u) | _ => false end.

Definition is_grant (u : string) (e : event) : bool :=
  match e with Claimed _ u' true => bool_decide (u' = u) | _ => false end.

Definition is_signal (i : nat) (e : event) : bool :=
  match e with Signalled j _ _ => bool_decide (j = i) | _ => false end.

(** Calls of [fetcher.Fetch] for [u], answers [true] for [u], and sends of
    the goroutine [i] on its [ch]. *)
Definition fetches (u : string) (tr : list event) : nat := count (is_fetch u) tr.
Definition grants (u : string) (tr : list event) : nat := count (is_grant u) tr.
Definition signals (i : nat) (tr : list event) : nat := count (is_signal i) tr.

(** All the calls of [fetcher.Fetch]. *)
Definition is_any_fetch (e : event) : bool :=
  match e with Fetching _ _ => true | _ => false end.
Definition all_fetches (tr : list event) : nat := count is_any_fetch tr.
Global Arguments all_fetches : simpl never.
Global Arguments fetches : simpl never.
Global Arguments grants : simpl never.
Global Arguments signals : simpl never.

(** The requests served by the examiner with their answers, oldest first. *)
Definition claim_of (e : event) : option (string * bool) :=
  match e with Claimed _ u b => Some (u, b) | _ => None end.

Definition claims_of (tr : list event) : list (string * bool) :=
  reverse (omap claim_of tr).

(** The answers [true] for [u] among served requests. *)
Definition is_true_for (u : string) (ub : string * bool) : bool :=
  bool_decide (ub.1 = u) && ub.2.

Definition is_finished (p : crawl_pc) : bool :=
  match p with Finished => true | _ => false end.

Definition child_of (p : nat) (c : crawl) : bool := bool_decide (ch c = ChSub p).

(** The goroutines spawned by the goroutine [p], and those of them that
    have not sent on [subch] yet. *)
Definition children (p : nat) (cs : list crawl) : nat := count (child_of p) cs.
Definition pending (p : nat) (cs : list crawl) : nat :=
  count (fun c => child_of p c && negb (is_finished (pc c))) cs.

(** 1 when the goroutine [i] exists and has finished, 0 otherwise. *)
Definition finished_at (cs : list crawl) (i : nat) : nat :=
  match cs !! i with
  | Some c => Nat.b2n (is_finished (pc c))
  | None => 0
  end.

(** The addresses of the goroutines spawned by [p], in spawn order. *)
Fixpoint kids (p : nat) (cs : list crawl) : list string :=
  match cs with
  | [] => []
  | c :: cs' => if child_of p c then url c :: kids p cs' else kids p cs'
  end.

(** A goroutine that has been told [true] for [u] and has not called
    [Fetch] yet, nor returned. *)
Definition holds_grant (u : string) (c : crawl) : bool :=
  bool_decide (url c = u)
  && match pc c with AtTests true | AtFetch => true | _ => false end.

Definition grant_in_flight (u : string) (ex : examiner_pc) : nat :=
  match ex with
  | AtReply v true => Nat.b2n (bool_decide (Url v = u))
  | _ => 0
  end.

Section Vocabulary.

Context {F : Type} `{Fetcher F}.
Variable fetcher : F.
Variable root : string.
Variable budget : Z.

(** The links found on a page; none when the fetch fails. *)
Definition links_of (u : string) : list string :=
  match Fetch fetcher u with
  | (_, links, None) => links
  | (_, _, Some _) => []
  end.

(** [hops g u]: [u] is [g] links away from the root, along pages that
    are fetched without error. *)
Inductive hops : nat -> string -> Prop :=
| hops_root : hops 0 root
| hops_link g u v : hops g u -> v ∈ links_of u -> hops (S g) v.

(** A bound on the number of steps of a call [Crawl(u, n, ...)], of the
    calls it spawns, and of the two steps of the examiner for it. *)
Fixpoint cost (n : nat) (u : string) : nat :=
  match n with
  | O => 5
  | S n' => 8 + sum_list_with (fun v => S (cost n' v)) (links_of u)
  end.

Definition spawn_cost (d : Z) (todo : list string) : nat :=
  sum_list_with (fun v => S (cost (Nat.pred (Z.to_nat d)) v)) todo.

Definition weight (c : crawl) : nat :=
  match pc c with
  | AtAsk => cost (Z.to_nat (depth c)) (url c)
  | AtAnswer | AtTests _ => cost (Z.to_nat (depth c)) (url c) - 3
  | AtFetch => 4 + spawn_cost (depth c) (links_of (url c))
  | AtSpawn todo _ => 3 + spawn_cost (depth c) todo
  | AtJoin _ => 2
  | AtDeferred => 1
  | Finished => 0
  end.

Definition measure (s : state) : nat :=
  match main s with
  | AtGoCrawl => 2 + cost (Z.to_nat budget) root
  | AtGoExaminer => 1
  | AtWait | Returned => 0
  end
  + match examiner s with
    | AtUpdate _ => 2
    | AtReply _ _ => 1
    | NotStarted | AtReceive => 0
    end
  + sum_list_with weight (crawls s).

(** *** Invariants of the reachable states *)

Definition inv_range (s : state) : Prop :=
  forall i c, crawls s !! i = Some c -> GoInt.in_range (depth c).

(** Line 50 and the loops are reached with a positive depth only. *)
Definition inv_positive (s : state) : Prop :=
  forall i c, crawls s !! i = Some c ->
    match pc c with
    | AtFetch | AtSpawn _ _ => (0 < depth c)%Z
    | _ => True
    end.

(** The request held by the examiner is the one of a goroutine that
    waits at line 39, and conversely. *)
Definition inv_examiner (s : state) : Prop :=
  match examiner s with
  | AtUpdate v | AtReply v _ =>
      exists c, crawls s !! Goahead v = Some c /\ pc c = AtAnswer /\ url c = Url v
  | _ => True
  end.

Definition inv_answer (s : state) : Prop :=
  forall i c, crawls s !! i = Some c -> pc c = AtAnswer ->
    match examiner s with
    | AtUpdate v | AtReply v _ => Goahead v = i
    | _ => False
    end.

Definition inv_main (s : state) : Prop :=
  match main s with
  | AtGoCrawl =>
      crawls s = [] /\ examiner s = NotStarted /\ emap s = ∅ /\ trace s = []
  | AtGoExaminer =>
      crawls s = [mkCrawl root budget ChMain AtAsk] /\
      examiner s = NotStarted /\ emap s = ∅ /\ trace s = []
  | AtWait =>
      examiner s <> NotStarted /\
      exists c, crawls s !! 0 = Some c /\ url c = root /\ depth c = budget /\
                ch c = ChMain /\ pc c <> Finished
  | Returned =>
      examiner s <> NotStarted /\
      exists c, crawls s !! 0 = Some c /\ url c = root /\ depth c = budget /\
                ch c = ChMain /\ pc c = Finished
  end.

(** The root reports to [main]; every other call reports to an older
    one. *)
Definition inv_parent (s : state) : Prop :=
  forall j c, crawls s !! j = Some c ->
    match ch c with
    | ChMain => j = 0
    | ChSub p => p < j
    end.

(** The join: what a goroutine still has to receive on [subch] is what
    its children still have to send. *)
Definition inv_join (s : state) : Prop :=
  forall i c, crawls s !! i = Some c ->
    match pc c with
    | AtAsk | AtAnswer | AtTests _ | AtFetch => children i (crawls s) = 0
    | AtSpawn todo links =>
        pending i (crawls s) = children i (crawls s) /\
        children i (crawls s) + length todo = length links
    | AtJoin todo => pending i (crawls s) = length todo
    | AtDeferred | Finished => pending i (crawls s) = 0
    end.

Record wf (s : state) : Prop := mk_wf {
  wf_range : inv_range s;
  wf_positive : inv_positive s;
  wf_examiner : inv_examiner s;
  wf_answer : inv_answer s;
  wf_main : inv_main s;
  wf_parent : inv_parent s;
  wf_join : inv_join s
}.

(** *** Invariants of the claims *)

(** Every value stored in [emap] is [true], and an address is in the map
    exactly when it has been granted, once. *)
Definition inv_emap (s : state) : Prop :=
  (forall u b, emap s !! u = Some b -> b = true) /\
  (forall u, grants u (trace s) = Nat.b2n (emap_get (emap s) u)).

(** The grant of an address is used for one call of [Fetch] at most. *)
Definition inv_once (s : state) : Prop :=
  forall u,
    fetches u (trace s) + count (holds_grant u) (crawls s)
    + grant_in_flight u (examiner s) <= grants u (trace s).

(** The goroutine [i] has been answered [b], and nothing else. *)
Definition answered (tr : list event) (i : nat) (u : string) (b : bool) : Prop :=
  Claimed i u b ∈ tr /\ forall u' b', Claimed i u' b' ∈ tr -> b' = b.

Definition unanswered (tr : list event) (i : nat) : Prop :=
  forall u b, Claimed i u b ∉ tr.

(** An event that is not an answer to the goroutine [i]. *)
Definition not_claim_of (i : nat) (e : event) : Prop :=
  match e with Claimed j _ _ => j <> i | _ => True end.

(** What the trace says about a goroutine, by its program counter. *)
Definition claim_status (tr : list event) (i : nat) (c : crawl) : Prop :=
  match pc c with
  | AtAsk => unanswered tr i
  | AtAnswer => True
  | AtTests b => answered tr i (url c) b
  | AtFetch => answered tr i (url c) true
  | AtSpawn _ _ | AtJoin _ => Fetching i (url c) ∈ tr
  | AtDeferred | Finished =>
      answered tr i (url c) false \/
      (answered tr i (url c) true /\ (depth c <= 0)%Z) \/
      Fetching i (url c) ∈ tr
  end.

Definition examiner_status (tr : list event) (ex : examiner_pc) : Prop :=
  match ex with
  | AtUpdate v => unanswered tr (Goahead v)
  | AtReply v b => answered tr (Goahead v) (Url v) b
  | _ => True
  end.

Definition inv_claims (s : state) : Prop :=
  (forall i u b, Claimed i u b ∈ trace s ->
     emap_get (emap s) u = true /\
     exists c, crawls s !! i = Some c /\ url c = u) /\
  (forall i u, Fetching i u ∈ trace s ->
     Claimed i u true ∈ trace s /\
     exists c, crawls s !! i = Some c /\ url c = u /\ (0 < depth c)%Z) /\
  examiner_status (trace s) (examiner s) /\
  (forall i c, crawls s !! i = Some c -> claim_status (trace s) i c).

(** *** Invariants of the signals and of the spawned calls *)

(** A goroutine has sent on its [ch] once when it has finished, and not
    before. *)
Definition inv_signals (s : state) : Prop :=
  (forall i, signals i (trace s) = finished_at (crawls s) i) /\
  (forall i c u, Signalled i c u ∈ trace s ->
     exists cr, crawls s !! i = Some cr /\ ch cr = c /\ url cr = u).

(** Every signal comes after the signals of all children. *)
Definition inv_order (s : state) : Prop :=
  forall l1 l2 i c u, trace s = l2 ++ Signalled i c u :: l1 ->
    forall k ck, crawls s !! k = Some ck -> ch ck = ChSub i ->
      Signalled k (ChSub i) (url ck) ∈ l1.

(** An event that is not a fetch by the goroutine [i]. *)
Definition not_fetch_of (i : nat) (e : event) : Prop :=
  match e with Fetching j _ => j <> i | _ => True end.

(** One call is spawned per link of the page, in order. *)
Definition kids_status (tr : list event) (cs : list crawl) (i : nat) (c : crawl)
  : Prop :=
  match pc c with
  | AtAsk | AtAnswer | AtTests _ | AtFetch => forall u, Fetching i u ∉ tr
  | AtSpawn todo links => links = links_of (url c) /\ kids i cs ++ todo = links
  | AtJoin _ => kids i cs = links_of (url c)
  | AtDeferred | Finished =>
      Fetching i (url c) ∈ tr -> kids i cs = links_of (url c)
  end.

Definition inv_kids (s : state) : Prop :=
  forall i c, crawls s !! i = Some c -> kids_status (trace s) (crawls s) i c.

(** A spawned call is for a link of the page its parent has fetched, with
    one less of depth. *)
Definition inv_ancestry (s : state) : Prop :=
  forall j c p, crawls s !! j = Some c -> ch c = ChSub p ->
    exists cp, crawls s !! p = Some cp /\
               Fetching p (url cp) ∈ trace s /\
               url c ∈ links_of (url cp) /\
               (0 < depth cp)%Z /\ depth c = (depth cp - 1)%Z.

(** All of the above. *)
Record good (s : state) : Prop := mk_good {
  good_wf : wf s;
  good_emap : inv_emap s;
  good_once : inv_once s;
  good_claims : inv_claims s;
  good_signals : inv_signals s;
  good_order : inv_order s;
  good_kids : inv_kids s;
  good_ancestry : inv_ancestry s
}.

End Vocabulary.

(** ** Vocabulary of the output and of the answers *)

(** The lines printed. *)
Definition is_found (u : string) (e : event) : bool :=
  match e with Printf_found u' _ => bool_decide (u' = u) | _ => false end.

Definition is_print (e : event) : bool :=
  match e with Println _ | Printf_found _ _ => true | _ => false end.

Definition founds (u : string) (tr : list event) : nat := count (is_found u) tr.
Definition prints (tr : list event) : nat := count is_print tr.
Global Arguments founds : simpl never.
Global Arguments prints : simpl never.

Section OutputVocabulary.

Context {F : Type} `{Fetcher F}.
Variable fetcher : F.

(** What the trace says of the lines printed. *)
Definition inv_output (tr : list event) : Prop :=
  prints tr = all_fetches tr /\
  (forall u, founds u tr
             = match Fetch fetcher u with
               | (_, _, None) => fetches u tr
               | (_, _, Some _) => 0
               end) /\
  (forall u b, Printf_found u b ∈ tr ->
     exists i links, Fetching i u ∈ tr /\ Fetch fetcher u = (b, links, None)) /\
  (forall e, Println e ∈ tr ->
     exists i u b links, Fetching i u ∈ tr /\ Fetch fetcher u = (b, links, Some e)) /\
  (forall i u, Fetching i u ∈ tr ->
     match Fetch fetcher u with
     | (b, _, None) => Printf_found u b ∈ tr
     | (_, _, Some e) => Println e ∈ tr
     end).

End OutputVocabulary.

(** The answers sent to the goroutine [i]. *)
Definition is_answer_to (i : nat) (e : event) : bool :=
  match e with Claimed j _ _ => bool_decide (j = i) | _ => false end.

Definition answers (i : nat) (tr : list event) : nat := count (is_answer_to i) tr.
Global Arguments answers : simpl never.

Definition reply_in_flight (ex : examiner_pc) : nat :=
  match ex with AtReply _ _ => 1 | _ => 0 end.

(** The answers that the goroutine [i] must have been sent, by its
    program counter. *)
Definition answers_due (ex : examiner_pc) (cs : list crawl) (i : nat) : nat :=
  match cs !! i with
  | None => 0
  | Some c =>
      match pc c with
      | AtAsk => 0
      | AtAnswer => reply_in_flight ex
      | _ => 1
      end
  end.

Definition inv_answers (s : state) : Prop :=
  forall i, answers i (trace s) = answers_due (examiner s) (crawls s) i.

(** All the answers, and those that are [true]. *)
Definition is_answer (e : event) : bool :=
  match e with Claimed _ _ _ => true | _ => false end.

Definition is_any_grant (e : event) : bool :=
  match e with Claimed _ _ true => true | _ => false end.

(** A call that has received its answer. *)
Definition has_answer (c : crawl) : bool :=
  match pc c with AtAsk | AtAnswer => false | _ => true end.

Definition inv_served (s : state) : Prop :=
  count is_answer (trace s)
  = count has_answer (crawls s) + reply_in_flight (examiner s).

Definition inv_size (s : state) : Prop :=
  size (emap s) = count is_any_grant (trace s).

(** ** Vocabulary of the calls spawned *)

(** The links that a call at lines 59-61 has still to spawn a call for. *)
Definition to_spawn (c : crawl) : nat :=
  match pc c with AtSpawn todo _ => length todo | _ => 0 end.

Section SpawnVocabulary.

Context {F : Type} `{Fetcher F}.
Variable fetcher : F.

(** The links of the pages fetched so far, counted with repetitions. *)
Definition links_found (tr : list event) : nat :=
  sum_list_with (fun e => match e with
                          | Fetching _ u => length (links_of fetcher u)
                          | _ => 0
                          end) tr.

Definition inv_calls (s : state) : Prop :=
  length (crawls s) + sum_list_with to_spawn (crawls s)
  = match main s with AtGoCrawl => 0 | _ => 1 end + links_found (trace s).

End SpawnVocabulary.

Global Arguments links_found : simpl never.

(** ** A page within reach by two paths *)

Module Race.

Definition top : string := "/".
Definition left : string := "/left".
Definition right : string := "/right".

(** [top] links to [left] and to [right], and [left] links to [right]:
    [right] is one link away from [top], and two links away through
    [left]. *)
Definition site : fakeFetcher :=
  <[ top := mkFakeResult "top" [left; right] ]>
  (<[ left := mkFakeResult "left" [right] ]>
  (<[ right := mkFakeResult "right" [] ]> ∅)).

Definition budget : Z := 2.

(** A run in which the call for [right] spawned by the call for [top]
    asks first. *)
Definition direct : list actor :=
  [Main; Main; Crawl 0; Examiner; Examiner; Crawl 0; Crawl 0; Crawl 0; Crawl 0;
   Crawl 2; Examiner; Examiner; Crawl 2; Crawl 2; Crawl 2; Crawl 2; Crawl 0;
   Crawl 2; Crawl 1; Examiner; Examiner; Crawl 1; Crawl 1; Crawl 1; Crawl 1;
   Crawl 3; Examiner; Examiner; Crawl 3; Crawl 3; Crawl 1; Crawl 1; Crawl 0;
   Crawl 0].

(** A run in which the call for [right] spawned by the call for [left]
    asks first. *)
Definition detour : list actor :=
  [Main; Main; Crawl 0; Examiner; Examiner; Crawl 0; Crawl 0; Crawl 0; Crawl 1;
   Examiner; Examiner; Crawl 1; Crawl 1; Crawl 1; Crawl 2; Examiner; Examiner;
   Crawl 2; Crawl 1; Crawl 2; Crawl 1; Crawl 0; Crawl 0; Crawl 1; Crawl 3;
   Examiner; Examiner; Crawl 3; Crawl 3; Crawl 0; Crawl 0].

Definition after_direct : state :=
  default init (run site top budget init direct).

Definition after_detour : state :=
  default init (run site top budget init detour).

End Race.

(** ** The run of [main] up to the first request *)

Module FirstRequest.

(** The root call has sent its request: the examiner holds it, and the
    call waits at line 39. *)
Definition prefix : list actor := [Main; Main; Crawl 0].

Definition after : state := default init (CannedRun.main_run prefix).

End FirstRequest.

(* ================================================================== *)
(** * Properties *)

Module GoIntFacts.
  Import GoInt.
  Local Open Scope Z_scope.

Lemma wrap_in_range z : in_range (wrap z).
Proof.
  unfold in_range, wrap, min_int, max_int.
  pose proof (Z.mod_pos_bound (z + 2 ^ 63) (2 ^ 64)). lia.
Qed.

Lemma wrap_small z : in_range z -> wrap z = z.
Proof.
  unfold in_range, wrap, min_int, max_int. intros H.
  rewrite Z.mod_small; lia.
Qed.

(** [depth-1] at line 60 is evaluated only after the test of line 45 has
    failed, where it cannot overflow. *)
Lemma sub_1_pos d : in_range d -> 0 < d -> sub d 1 = d - 1.
Proof.
  unfold sub, in_range, min_int, max_int. intros H Hd.
  apply wrap_small. unfold in_range, min_int, max_int. lia.
Qed.

End GoIntFacts.

Section StepFacts.

Context {F : Type} `{Fetcher F}.
Variable fetcher : F.
Variable root : string.
Variable budget : Z.

Local Abbreviation step := (step fetcher root budget).
Local Abbreviation run := (run fetcher root budget).
Local Abbreviation Step := (Step fetcher root budget).
Local Abbreviation Reach := (Reach fetcher root budget).

Lemma Step_local' cs em ex mn tr tr' i c p evs :
  mn <> Returned -> cs !! i = Some c -> local fetcher i c p evs ->
  tr' = evs ++ tr ->
  Step (mkState cs em ex mn tr) (Crawl i)
       (mkState (<[ i := at_pc c p ]> cs) em ex mn tr').
Proof. intros ? ? ? ->. by constructor. Qed.

Lemma step_Step s a s' : step s a = Some s' -> Step s a s'.
Proof.
  destruct s as [cs em ex mn tr]. unfold step; simpl.
  destruct mn eqn:Hmn; try discriminate; destruct a as [| |i]; simpl;
    unfold step_main, step_examiner, step_crawl, step_deferred; simpl;
    intros Hs; repeat case_match; simplify_eq;
    repeat match goal with
           | b : bool |- _ => destruct b; simpl in *; try discriminate
           | H : (_ <=? _)%Z = true |- _ => apply Z.leb_le in H
           | H : (_ <=? _)%Z = false |- _ => apply Z.leb_gt in H
           end;
    try (econstructor; eauto; done);
    (eapply Step_local';
       [done | eassumption | solve [econstructor; eauto] | reflexivity]).
Qed.

Lemma Step_step s a s' : Step s a s' -> step s a = Some s'.
Proof.
  destruct 1; unfold step; simpl;
    unfold step_main, step_examiner, step_crawl, step_deferred; simpl;
    repeat match goal with
           | H : local _ _ _ _ _ |- _ => destruct H
           | H : _ !! _ = Some _ |- _ => rewrite H; clear H
           | H : pc _ = _ |- _ => rewrite H; clear H
           | H : ch _ = _ |- _ => rewrite H; clear H
           | H : Fetch _ _ = _ |- _ => rewrite H; clear H
           end; simpl;
    repeat case_match; simplify_eq; try done; try lia.
Qed.

Lemma run_Reach sched : forall s s', Reach s -> run s sched = Some s' -> Reach s'.
Proof.
  induction sched as [|a sched IH]; simpl; intros s s' Hr Hrun.
  - by simplify_eq.
  - destruct (step s a) as [s1|] eqn:Hs; [|done].
    eapply IH; [|done]. eapply Reach_step; [done|]. by apply step_Step.
Qed.

Lemma reachable_Reach s : reachable fetcher root budget s -> Reach s.
Proof. intros [sched Hrun]. eapply run_Reach; [constructor|done]. Qed.

End StepFacts.

(** ** Counting *)

Section Counting.

Context {A : Type}.
Implicit Types (f : A -> bool) (g : A -> nat) (l : list A).

Lemma sum_list_with_insert g l i x y :
  l !! i = Some x ->
  sum_list_with g (<[ i := y ]> l) + g x = sum_list_with g l + g y.
Proof.
  revert i. induction l as [|a l IH]; intros [|i] Hi; simplify_eq/=; [lia|].
  specialize (IH _ Hi). lia.
Qed.

Lemma sum_list_with_snoc g l x :
  sum_list_with g (l ++ [x]) = sum_list_with g l + g x.
Proof. rewrite sum_list_with_app. simpl. lia. Qed.

Lemma count_cons f x l : count f (x :: l) = Nat.b2n (f x) + count f l.
Proof. reflexivity. Qed.

Lemma count_snoc f l x : count f (l ++ [x]) = count f l + Nat.b2n (f x).
Proof. apply sum_list_with_snoc. Qed.

Lemma count_insert f l i x y :
  l !! i = Some x ->
  count f (<[ i := y ]> l) + Nat.b2n (f x) = count f l + Nat.b2n (f y).
Proof. apply sum_list_with_insert. Qed.

Lemma count_insert_same f l i x y :
  l !! i = Some x -> f y = f x -> count f (<[ i := y ]> l) = count f l.
Proof. intros Hi Hf. pose proof (count_insert f l i x y Hi). rewrite Hf in *. lia. Qed.

Lemma count_le f f' l :
  (forall x, f x = true -> f' x = true) -> count f l <= count f' l.
Proof.
  intros Hf. induction l as [|a l IH]; [done|]. rewrite !count_cons.
  specialize (Hf a). destruct (f a), (f' a); simpl; lia.
Qed.

Lemma count_zero f l :
  count f l = 0 -> forall i x, l !! i = Some x -> f x = false.
Proof.
  induction l as [|a l IH]; intros Hc [|i] x Hi; simplify_eq/=.
  - rewrite count_cons in Hc. destruct (f x); simpl in *; [lia|done].
  - rewrite count_cons in Hc. eapply IH; [lia|done].
Qed.

Lemma count_pos f l i x : l !! i = Some x -> f x = true -> 0 < count f l.
Proof.
  intros Hi Hf. destruct (count f l) eqn:Hc; [|lia].
  by rewrite (count_zero _ _ Hc _ _ Hi) in Hf.
Qed.

Lemma count_all_false f l :
  (forall i x, l !! i = Some x -> f x = false) -> count f l = 0.
Proof.
  induction l as [|a l IH]; intros Hf; [done|]. rewrite count_cons.
  rewrite (Hf 0 a eq_refl), IH; [done|]. intros i x Hi. by apply (Hf (S i)).
Qed.

Lemma count_exists f l : 0 < count f l -> exists i x, l !! i = Some x /\ f x = true.
Proof.
  induction l as [|a l IH]; [unfold count; simpl; lia|]. rewrite count_cons.
  destruct (f a) eqn:Hf; simpl.
  - intros _. by exists 0, a.
  - intros [i [x [Hi Hx]]]%IH. by exists (S i), x.
Qed.

(** Two distinct positions that pass the test make the count at least two. *)
Lemma count_two f l i j x y :
  l !! i = Some x -> l !! j = Some y -> i <> j -> f x = true -> f y = true ->
  2 <= count f l.
Proof.
  revert i j. induction l as [|a l IH]; intros [|i] [|j] Hi Hj Hne Hx Hy;
    simplify_eq/=; try done; rewrite count_cons.
  - rewrite Hx. pose proof (count_pos f l j y Hj Hy) as Hc. simpl. clear -Hc. lia.
  - rewrite Hy. pose proof (count_pos f l i x Hi Hx) as Hc. simpl. clear -Hc. lia.
  - assert (i <> j) as Hij by congruence.
    pose proof (IH i j Hi Hj Hij Hx Hy) as Hc. clear -Hc. lia.
Qed.

End Counting.

(** ** The structural invariants *)

Ltac step_cases H :=
  destruct H as
    [ cs em ex tr
    | cs em ex tr
    | cs em mn tr v Hmn
    | cs em mn tr v b c Hmn Hc Hpc
    | cs em mn tr i c Hmn Hc Hpc
    | cs em ex mn tr i c p evs Hmn Hc Hloc
    | cs em ex mn tr i c u todo links Hmn Hc Hpc
    | cs em ex tr i c Hc Hpc Hch
    | cs em ex mn tr i c p parent u todo Hmn Hc Hpc Hch Hpar Hppc ].

(** Split a lookup in an updated list of goroutines into its cases. *)
Ltac lookups :=
  repeat match goal with
    | H : (<[ _ := _ ]> _) !! _ = Some _ |- _ =>
        apply list_lookup_insert_Some in H;
        destruct H as [(? & ? & ?) | (? & H)]
    | H : (_ ++ [_]) !! _ = Some _ |- _ =>
        apply lookup_snoc_Some in H;
        destruct H as [(? & H) | (? & ?)]
    end;
  simplify_eq/=.

(** Membership in a trace that a step has extended. *)
Ltac mem :=
  repeat match goal with
    | H : _ ∈ _ :: _ |- _ => apply elem_of_cons in H; destruct H as [H|H]; simplify_eq
    | H : _ ∈ [] ++ _ |- _ => simpl in H
    | H : _ ∈ [] |- _ => by apply elem_of_nil in H
    end.

Section Structure.

Context {F : Type} `{Fetcher F}.
Variable fetcher : F.
Variable root : string.
Variable budget : Z.
Hypothesis budget_in_range : GoInt.in_range budget.

Local Abbreviation Step := (Step fetcher root budget).
Local Abbreviation Reach := (Reach fetcher root budget).
Local Abbreviation wf := (wf root budget).
Local Abbreviation inv_main := (inv_main root budget).

Lemma range_step s a s' : inv_range s -> Step s a s' -> inv_range s'.
Proof.
  intros Hr Hst. step_cases Hst; intros j cj Hj; simpl in *; lookups;
    eauto using GoIntFacts.wrap_in_range.
  all: by eapply (Hr _ _ Hc).
Qed.

Lemma positive_step s a s' : inv_positive s -> Step s a s' -> inv_positive s'.
Proof.
  intros HI Hst. step_cases Hst; intros j cj Hj; simpl in *; lookups;
    try (by eapply HI); try done.
  - destruct Hloc; simpl; try done.
    specialize (HI _ _ Hc). by rewrite H0 in HI.
  - specialize (HI _ _ Hc). by rewrite Hpc in HI.
Qed.

Lemma answering_insert (cs : list crawl) g u i c p :
  (exists c', cs !! g = Some c' /\ pc c' = AtAnswer /\ url c' = u) ->
  cs !! i = Some c -> pc c <> AtAnswer ->
  exists c', <[ i := at_pc c p ]> cs !! g = Some c' /\ pc c' = AtAnswer /\ url c' = u.
Proof.
  intros (c' & Hc' & Hpc' & Hu') Hc Hpc. exists c'.
  rewrite list_lookup_insert_ne; [done|]. intros <-. congruence.
Qed.

Lemma answering_snoc (cs : list crawl) g u c :
  (exists c', cs !! g = Some c' /\ pc c' = AtAnswer /\ url c' = u) ->
  exists c', (cs ++ [c]) !! g = Some c' /\ pc c' = AtAnswer /\ url c' = u.
Proof.
  intros (c' & Hc' & Hpc' & Hu'). exists c'.
  rewrite lookup_app_l; [done|]. by eapply lookup_lt_Some.
Qed.

Lemma local_not_answer i c p evs : local fetcher i c p evs -> pc c <> AtAnswer.
Proof. destruct 1; congruence. Qed.

Lemma examiner_step s a s' : inv_examiner s -> Step s a s' -> inv_examiner s'.
Proof.
  unfold inv_examiner. intros HI Hst. step_cases Hst; simpl in *; try done.
  - destruct ex; try done; by apply answering_snoc.
  - exists (at_pc c AtAnswer). rewrite list_lookup_insert_eq; [done|].
    by eapply lookup_lt_Some.
  - destruct ex; try done;
      (apply answering_insert; [done..|by eapply local_not_answer]).
  - destruct ex; try done;
      (apply answering_snoc, answering_insert; [done..|congruence]).
  - destruct ex; try done; (apply answering_insert; [done..|congruence]).
  - destruct ex; try done;
      (apply answering_insert; [apply answering_insert|..]; try done; try congruence).
    all: rewrite list_lookup_insert_ne; [done|]; intros <-; congruence.
Qed.

Lemma answer_step s a s' :
  inv_answer s -> inv_main s -> Step s a s' -> inv_answer s'.
Proof.
  intros HI HM Hst. step_cases Hst; intros j cj Hj Hpj; simpl in *; lookups;
    try done; try (by eapply HI).
  all: try (by specialize (HI _ _ Hj Hpj)).
  - destruct HM as (_ & ? & _); simplify_eq/=. by specialize (HI _ _ Hj Hpj).
  - inversion Hloc.
Qed.

Lemma root_insert (P : crawl_pc -> Prop) (cs : list crawl) i c p :
  (exists c0, cs !! 0 = Some c0 /\ url c0 = root /\ depth c0 = budget /\
              ch c0 = ChMain /\ P (pc c0)) ->
  cs !! i = Some c -> (i = 0 -> P p) ->
  exists c0, <[ i := at_pc c p ]> cs !! 0 = Some c0 /\ url c0 = root /\
             depth c0 = budget /\ ch c0 = ChMain /\ P (pc c0).
Proof.
  intros (c0 & Hc0 & Hu & Hd & Hch & Hp) Hc HP.
  destruct (decide (i = 0)) as [->|Hne].
  - simplify_eq. exists (at_pc c0 p).
    rewrite list_lookup_insert_eq; [naive_solver|by eapply lookup_lt_Some].
  - exists c0. by rewrite list_lookup_insert_ne.
Qed.

Lemma root_insert_0 (Q P : crawl_pc -> Prop) (cs : list crawl) c p :
  (exists c0, cs !! 0 = Some c0 /\ url c0 = root /\ depth c0 = budget /\
              ch c0 = ChMain /\ Q (pc c0)) ->
  cs !! 0 = Some c -> P p ->
  exists c0, <[ 0 := at_pc c p ]> cs !! 0 = Some c0 /\ url c0 = root /\
             depth c0 = budget /\ ch c0 = ChMain /\ P (pc c0).
Proof.
  intros (c0 & Hc0 & Hu & Hd & Hch & Hp) Hc HP.
  simplify_eq. exists (at_pc c0 p).
  rewrite list_lookup_insert_eq; [naive_solver|by eapply lookup_lt_Some].
Qed.

Lemma root_snoc (P : crawl_pc -> Prop) (cs : list crawl) c :
  (exists c0, cs !! 0 = Some c0 /\ url c0 = root /\ depth c0 = budget /\
              ch c0 = ChMain /\ P (pc c0)) ->
  exists c0, (cs ++ [c]) !! 0 = Some c0 /\ url c0 = root /\
             depth c0 = budget /\ ch c0 = ChMain /\ P (pc c0).
Proof.
  intros (c0 & Hc0 & ?). exists c0. split; [|done].
  rewrite lookup_app_l; [done|by eapply lookup_lt_Some].
Qed.

Lemma main_step s a s' : inv_main s -> inv_parent s -> Step s a s' -> inv_main s'.
Proof.
  unfold inv_main.
  intros HI HP Hst. step_cases Hst; simpl in *;
    try (destruct mn; try done); destruct HI as [? HI]; simplify_eq/=;
    try match type of HI with
        | _ = _ /\ _ => destruct HI as (? & ? & ?); simplify_eq/=
        end.
  - by repeat split.
  - split; [done|]. by eexists.
  - by split.
  - split; [done|]. by apply (root_insert (fun p => p <> Finished)).
  - split; [done|]. by apply (root_insert (fun p => p <> Finished)).
  - destruct i; simplify_eq/=. inversion Hloc; simplify_eq/=.
  - split; [done|]. apply (root_insert (fun p => p <> Finished)); [done..|].
    intros _. by destruct Hloc.
  - destruct i; simplify_eq/=.
  - split; [done|].
    by apply (root_snoc (fun p => p <> Finished)), (root_insert (fun p => p <> Finished)).
  - split; [done|]. specialize (HP _ _ Hc). rewrite Hch in HP. subst i.
    by apply (root_insert_0 (fun p => p <> Finished) (fun p => p = Finished)).
  - destruct i; simplify_eq/=.
  - split; [done|].
    assert (i <> p) by (intros ->; congruence).
    apply (root_insert (fun p => p <> Finished)); [|by rewrite list_lookup_insert_ne|done].
    apply (root_insert (fun p => p <> Finished)); [done..|].
    intros ->. specialize (HP _ _ Hc). rewrite Hch in HP. lia.
Qed.

Lemma parent_step s a s' : inv_parent s -> inv_main s -> Step s a s' -> inv_parent s'.
Proof.
  intros HI HM Hst. step_cases Hst; intros j cj Hj; simpl in *; lookups;
    try (by eapply HI); try (by apply (HI _ _ Hc)).
  - destruct HM as (Hcs & _). simpl in Hcs. by subst cs.
  - rewrite length_insert. by eapply lookup_lt_Some.
Qed.

(** *** The join *)

Lemma children_at_pc (cs : list crawl) i c p q :
  cs !! i = Some c -> children q (<[ i := at_pc c p ]> cs) = children q cs.
Proof. intros Hc. by apply (count_insert_same _ _ _ c). Qed.

Lemma pending_at_pc (cs : list crawl) i c p q :
  cs !! i = Some c -> is_finished p = is_finished (pc c) ->
  pending q (<[ i := at_pc c p ]> cs) = pending q cs.
Proof.
  intros Hc Hp. apply (count_insert_same _ _ _ c); [done|]. simpl. by rewrite Hp.
Qed.

Lemma pending_finish (cs : list crawl) i c q :
  cs !! i = Some c -> is_finished (pc c) = false ->
  pending q (<[ i := at_pc c Finished ]> cs) + Nat.b2n (child_of q c) = pending q cs.
Proof.
  intros Hc Hp. unfold pending.
  pose proof (count_insert (fun c => child_of q c && negb (is_finished (pc c)))
                cs i c (at_pc c Finished) Hc) as E.
  simpl in E. rewrite Hp in E. unfold child_of in *. simpl in *.
  destruct (bool_decide (ch c = ChSub q)); simpl in *; lia.
Qed.

Lemma children_snoc (cs : list crawl) c q :
  children q (cs ++ [c]) = children q cs + Nat.b2n (child_of q c).
Proof. apply count_snoc. Qed.

Lemma pending_snoc (cs : list crawl) c q :
  pending q (cs ++ [c]) =
  pending q cs + Nat.b2n (child_of q c && negb (is_finished (pc c))).
Proof. unfold pending. by rewrite count_snoc. Qed.

Lemma pending_le_children (cs : list crawl) q : pending q cs <= children q cs.
Proof.
  apply (count_le (fun c => child_of q c && negb (is_finished (pc c))) (child_of q)).
  intros c Hc. apply andb_true_iff in Hc. tauto.
Qed.

Lemma children_beyond s q :
  inv_parent s -> length (crawls s) <= q -> children q (crawls s) = 0.
Proof.
  intros HP Hq. apply count_all_false. intros k c Hk.
  specialize (HP _ _ Hk). pose proof (lookup_lt_Some _ _ _ Hk).
  unfold child_of. apply bool_decide_eq_false. intros E. rewrite E in HP. lia.
Qed.

Lemma child_of_same u d i p : child_of i (mkCrawl u d (ChSub i) p) = true.
Proof. by apply bool_decide_eq_true_2. Qed.

Lemma child_of_other u d i j p : i <> j -> child_of j (mkCrawl u d (ChSub i) p) = false.
Proof. intros. apply bool_decide_eq_false_2. simpl. congruence. Qed.

Lemma child_of_ChMain c q : ch c = ChMain -> child_of q c = false.
Proof. intros Hc. apply bool_decide_eq_false_2. congruence. Qed.

Lemma child_of_ChSub c p q : ch c = ChSub p -> child_of q c = bool_decide (p = q).
Proof.
  intros Hc. unfold child_of. rewrite Hc. apply bool_decide_ext. split; congruence.
Qed.

Ltac simp_counts :=
  repeat first
    [ rewrite children_snoc
    | rewrite pending_snoc
    | rewrite children_at_pc by done
    | rewrite pending_at_pc
        by (try done; match goal with Hq : pc _ = _ |- _ => by rewrite Hq end) ].

Lemma join_step s a s' :
  inv_join s -> inv_main s -> inv_parent s -> Step s a s' -> inv_join s'.
Proof.
  intros HI HM HP Hst.
  step_cases Hst; intros j cj Hj; simpl in *; lookups; try (by eapply HI).
  - destruct HM as (Hcs & _); simpl in Hcs; subst cs. simpl in *. lia.
  - destruct HM as (Hcs & _); simpl in Hcs; subst cs. done.
  - simp_counts. specialize (HI _ _ Hc). by rewrite Hpc in HI.
  - simp_counts. by apply HI.
  - simp_counts. specialize (HI _ _ Hc). by rewrite Hpc in HI.
  - simp_counts. by apply HI.
  - specialize (HI _ _ Hc). pose proof (pending_le_children cs j).
    destruct Hloc as [Hq|Hq ?|Hq ?|? ? ? Hq ?|? ? Hq ?|? Hq|Hq];
      simp_counts; rewrite Hq in HI; simpl in HI; lia.
  - specialize (HI _ _ Hj); simpl in HI.
    destruct Hloc as [Hq|Hq ?|Hq ?|? ? ? Hq ?|? ? Hq ?|? Hq|Hq];
      simp_counts; done.
  - specialize (HI _ _ Hc). rewrite Hpc in HI. simpl in HI. simp_counts.
    rewrite !child_of_same. simpl. lia.
  - specialize (HI _ _ Hj); simpl in HI. simp_counts.
    rewrite !child_of_other by done. simpl. by rewrite !Nat.add_0_r.
  - rewrite length_insert. simp_counts. rewrite (children_beyond _ _ HP) by done.
    rewrite child_of_other; [done|]. apply lookup_lt_Some in Hc. lia.
  - specialize (HI _ _ Hc). rewrite Hpc in HI. simpl in HI.
    pose proof (pending_finish cs j c j Hc) as E. rewrite Hpc in E.
    specialize (E eq_refl). lia.
  - specialize (HI _ _ Hj). simpl in HI. simp_counts.
    pose proof (pending_finish cs i c j Hc) as E. rewrite Hpc in E.
    specialize (E eq_refl). rewrite (child_of_ChMain _ _ Hch) in E. simpl in E.
    rewrite Nat.add_0_r in E. by rewrite E.
  - assert (i <> j) as Hij by (intros ->; congruence).
    assert (<[ i := at_pc c Finished ]> cs !! j = Some parent) as Hpar'
        by by rewrite list_lookup_insert_ne.
    specialize (HI _ _ Hpar). rewrite Hppc in HI. simpl in HI.
    rewrite (pending_at_pc _ _ _ _ _ Hpar') by by rewrite Hppc.
    pose proof (pending_finish cs i c j Hc) as E. rewrite Hpc in E.
    specialize (E eq_refl). rewrite (child_of_ChSub _ _ _ Hch) in E.
    rewrite bool_decide_eq_true_2 in E by done. simpl in E. lia.
  - assert (j <> p) as Hij by (intros ->; congruence).
    assert (<[ j := at_pc c Finished ]> cs !! p = Some parent) as Hpar'
        by by rewrite list_lookup_insert_ne.
    specialize (HI _ _ Hc). rewrite Hpc in HI. simpl in HI.
    rewrite (pending_at_pc _ _ _ _ _ Hpar') by by rewrite Hppc.
    pose proof (pending_finish cs j c j Hc) as E. rewrite Hpc in E.
    specialize (E eq_refl). lia.
  - assert (i <> p) as Hij by (intros ->; congruence).
    assert (<[ i := at_pc c Finished ]> cs !! p = Some parent) as Hpar'
        by by rewrite list_lookup_insert_ne.
    specialize (HI _ _ Hj). simpl in HI.
    rewrite (pending_at_pc _ _ _ _ _ Hpar') by by rewrite Hppc.
    rewrite (children_at_pc _ _ _ _ _ Hpar'). simp_counts.
    pose proof (pending_finish cs i c j Hc) as E. rewrite Hpc in E.
    specialize (E eq_refl). rewrite (child_of_ChSub _ _ _ Hch) in E.
    rewrite bool_decide_eq_false_2 in E by done. simpl in E.
    rewrite Nat.add_0_r in E. by rewrite E.
Qed.

Lemma wf_init : wf init.
Proof.
  split; done.
Qed.

Lemma wf_step s a s' : wf s -> Step s a s' -> wf s'.
Proof.
  intros [] Hst. split;
    eauto using range_step, positive_step, examiner_step, answer_step,
      main_step, parent_step, join_step.
Qed.

Lemma Reach_wf s : Reach s -> wf s.
Proof. induction 1; eauto using wf_init, wf_step. Qed.

End Structure.

(** ** Termination: every step uses up some of the measure *)

Section Termination.

Context {F : Type} `{Fetcher F}.
Variable fetcher : F.
Variable root : string.
Variable budget : Z.
Hypothesis budget_in_range : GoInt.in_range budget.

Local Abbreviation Step := (Step fetcher root budget).
Local Abbreviation Reach := (Reach fetcher root budget).
Local Abbreviation wf := (wf root budget).
Local Abbreviation cost := (cost fetcher).
Local Abbreviation spawn_cost := (spawn_cost fetcher).
Local Abbreviation weight := (weight fetcher).
Local Abbreviation measure := (measure fetcher root budget).
Local Abbreviation links_of := (links_of fetcher).

Lemma cost_ge n u : 5 <= cost n u.
Proof. destruct n; simpl; lia. Qed.

Lemma cost_positive d u :
  (0 < d)%Z -> cost (Z.to_nat d) u = 8 + spawn_cost d (links_of u).
Proof.
  intros Hd. unfold spawn_cost.
  destruct (Z.to_nat d) as [|n] eqn:E; [lia|]. done.
Qed.

Lemma to_nat_sub_1 d :
  GoInt.in_range d -> (0 < d)%Z ->
  Z.to_nat (GoInt.sub d 1) = Nat.pred (Z.to_nat d).
Proof. intros Hr Hd. rewrite GoIntFacts.sub_1_pos by done. lia. Qed.

Lemma links_of_found u b links :
  Fetch fetcher u = (b, links, None) -> links_of u = links.
Proof. unfold links_of. by intros ->. Qed.

Lemma links_of_failed u b links err :
  Fetch fetcher u = (b, links, Some err) -> links_of u = [].
Proof. unfold links_of. by intros ->. Qed.

Lemma weight_insert (cs : list crawl) i c p :
  cs !! i = Some c ->
  sum_list_with weight (<[ i := at_pc c p ]> cs) + weight c
  = sum_list_with weight cs + weight (at_pc c p).
Proof. apply sum_list_with_insert. Qed.

(** The change of the sum of the weights when the goroutine of [Hc]
    moves to [p]. *)
Ltac weigh p Hc :=
  let E := fresh "E" in
  pose proof (weight_insert _ _ _ p Hc) as E.

Ltac sums :=
  rewrite ?sum_list_with_snoc;
  repeat match goal with
    | |- context [sum_list_with ?w ?l] =>
        generalize dependent (sum_list_with w l); intros
    | H : context [sum_list_with ?w ?l] |- _ =>
        generalize dependent (sum_list_with w l); intros
    end;
  unfold weight in *; simpl in *.

Lemma measure_step s a s' : wf s -> Step s a s' -> measure s' < measure s.
Proof.
  intros Hwf Hst. pose proof (wf_range _ _ _ Hwf) as Hr.
  pose proof (wf_positive _ _ _ Hwf) as Hp. clear Hwf.
  unfold measure.
  step_cases Hst; simpl in *.
  - rewrite sum_list_with_snoc. unfold weight at 2. simpl. lia.
  - destruct ex; lia.
  - lia.
  - weigh (AtTests b) Hc. sums. rewrite Hpc in *. lia.
  - weigh AtAnswer Hc. sums. rewrite Hpc in *.
    pose proof (cost_ge (Z.to_nat (depth c)) (url c)). lia.
  - specialize (Hp _ _ Hc). weigh p Hc. sums.
    pose proof (cost_ge (Z.to_nat (depth c)) (url c)).
    destruct Hloc as [Hq|Hq ?|Hq Hd|? ? ? Hq Hf|? ? Hq Hf|? Hq|Hq];
      rewrite Hq in *; try (rewrite (cost_positive _ (url c) Hd) in * );
      try rewrite (links_of_found _ _ _ Hf) in *; unfold spawn_cost in *;
      simpl in *; lia.
  - specialize (Hp _ _ Hc). specialize (Hr _ _ Hc). rewrite Hpc in Hp.
    weigh (AtSpawn todo links) Hc. sums. rewrite Hpc in *.
    rewrite to_nat_sub_1 by done. unfold spawn_cost in *. simpl in *. lia.
  - weigh Finished Hc. sums. rewrite Hpc in *. lia.
  - assert (i <> p) as Hip by (intros ->; congruence).
    assert (<[ i := at_pc c Finished ]> cs !! p = Some parent) as Hpar'
        by by rewrite list_lookup_insert_ne.
    weigh (AtJoin todo) Hpar'. weigh Finished Hc. sums.
    rewrite Hpc, Hppc in *. lia.
Qed.

(** No run is longer than the measure of its first state. *)
Lemma run_bounded sched : forall s s',
  wf s -> run fetcher root budget s sched = Some s' ->
  length sched + measure s' <= measure s.
Proof.
  induction sched as [|a sched IH]; simpl; intros s s' Hwf Hrun.
  - simplify_eq. lia.
  - destruct (step fetcher root budget s a) as [s1|] eqn:Hs; [|done].
    apply step_Step in Hs. pose proof (measure_step _ _ _ Hwf Hs).
    specialize (IH _ _ (wf_step _ _ _ budget_in_range _ _ _ Hwf Hs) Hrun). lia.
Qed.

(** *** No deadlock *)

(** The youngest goroutine that has not finished, if any. *)
Lemma youngest_unfinished (cs : list crawl) :
  (forall i c, cs !! i = Some c -> pc c = Finished) \/
  (exists i c, cs !! i = Some c /\ pc c <> Finished /\
     forall j cj, cs !! j = Some cj -> i < j -> pc cj = Finished).
Proof.
  induction cs as [|c cs IH] using rev_ind; [left; by intros [|]|].
  destruct (decide (pc c = Finished)) as [Hc|Hc].
  - destruct IH as [IH|(i & ci & Hi & Hpi & Hlast)].
    + left. intros j cj [[? ?]|[? ?]]%lookup_snoc_Some; simplify_eq; eauto.
    + right. exists i, ci. split_and!; [|done|].
      * rewrite lookup_app_l; [done|by eapply lookup_lt_Some].
      * intros j cj [[? ?]|[? ?]]%lookup_snoc_Some ?; simplify_eq; eauto.
  - right. exists (length cs), c. split_and!; [|done|].
    + by rewrite lookup_app_r, Nat.sub_diag.
    + intros j cj [[? ?]|[? ?]]%lookup_snoc_Some ?; simplify_eq; lia.
Qed.

Lemma pending_youngest s i c :
  inv_parent s -> crawls s !! i = Some c ->
  (forall j cj, crawls s !! j = Some cj -> i < j -> pc cj = Finished) ->
  pending i (crawls s) = 0.
Proof.
  intros HP Hc Hlast. apply count_all_false. intros k ck Hk.
  destruct (child_of i ck) eqn:Hch; [|done]. simpl.
  apply bool_decide_eq_true in Hch. specialize (HP _ _ Hk). rewrite Hch in HP.
  by rewrite (Hlast _ _ Hk HP).
Qed.

Lemma progress s : wf s -> main s <> Returned -> exists a s', Step s a s'.
Proof.
  intros [Hr Hpos HE HA HM HP HJ] Hmn.
  destruct s as [cs em ex mn tr]; simpl in *.
  destruct mn; try done.
  { eexists Main, _. constructor. }
  { eexists Main, _. constructor. }
  destruct HM as (Hex & c0 & Hc0 & _ & _ & _ & Hp0); simpl in *.
  destruct ex as [| |v|v b]; try done.
  2: { eexists Examiner, _. by constructor. }
  2: { destruct HE as (c & Hc & Hpc & _); simpl in *.
       eexists Examiner, _. by econstructor. }
  destruct (youngest_unfinished cs) as [Hall|(i & c & Hc & Hpc & Hlast)].
  { by specialize (Hall _ _ Hc0). }
  pose proof (pending_youngest _ _ _ HP Hc Hlast) as Hpend; simpl in Hpend.
  pose proof (HJ _ _ Hc) as HJc; simpl in HJc.
  destruct (pc c) as [| |b| |todo links|todo| |] eqn:Hq; try done.
  - eexists (Crawl i), _. by constructor.
  - by specialize (HA _ _ Hc Hq).
  - destruct b; [destruct (decide (depth c <= 0)%Z)|].
    all: eexists (Crawl i), _; eapply Step_local; [done..|].
    + by apply local_exhausted.
    + apply local_go_ahead; [done|lia].
    + by apply local_declined.
  - destruct (Fetch fetcher (url c)) as [[b links] [err|]] eqn:Hf.
    all: eexists (Crawl i), _; eapply Step_local; [done..|].
    + by eapply local_fetch_failed.
    + by eapply local_fetch_found.
  - destruct todo as [|u todo].
    + eexists (Crawl i), _; eapply Step_local; [done..|]. by apply local_spawned.
    + eexists (Crawl i), _. by eapply Step_spawn.
  - destruct todo as [|u todo]; [|simpl in *; lia].
    eexists (Crawl i), _; eapply Step_local; [done..|]. by apply local_joined.
  - destruct (ch c) as [|p] eqn:Hch.
    { eexists (Crawl i), _. by eapply Step_signal_main. }
    pose proof (HP _ _ Hc) as Hlt; simpl in Hlt. rewrite Hch in Hlt.
    destruct (lookup_lt_is_Some_2 cs p) as [parent Hpar].
    { apply lookup_lt_Some in Hc. lia. }
    assert (0 < pending p cs) as Hpp.
    { eapply (count_pos _ _ _ _ Hc). simpl.
      rewrite (child_of_ChSub _ _ _ Hch), Hq. by rewrite bool_decide_eq_true_2. }
    pose proof (pending_le_children cs p).
    pose proof (HJ _ _ Hpar) as HJp; simpl in HJp.
    destruct (pc parent) as [| |b| |todo links|todo| |] eqn:Hqp; try lia.
    + destruct todo as [|u todo].
      * eexists (Crawl p), _; eapply Step_local; [done..|]. by apply local_spawned.
      * eexists (Crawl p), _. by eapply Step_spawn.
    + destruct todo as [|u todo]; [simpl in *; lia|].
      eexists (Crawl i), _. by eapply Step_signal_sub.
Qed.

(** From every reachable state some schedule leads [main] to return. *)
Lemma can_return n : forall s,
  wf s -> measure s <= n ->
  exists sched s', run fetcher root budget s sched = Some s' /\ main s' = Returned.
Proof.
  induction n as [|n IH]; intros s Hwf Hn.
  - destruct (decide (main s = Returned)) as [|Hmn]; [by exists [], s|].
    destruct (progress s Hwf Hmn) as (a & s' & Hst).
    pose proof (measure_step _ _ _ Hwf Hst). lia.
  - destruct (decide (main s = Returned)) as [|Hmn]; [by exists [], s|].
    destruct (progress s Hwf Hmn) as (a & s' & Hst).
    pose proof (measure_step _ _ _ Hwf Hst).
    destruct (IH s') as (sched & s'' & Hrun & Hret);
      [by eapply wf_step|lia|].
    exists (a :: sched), s''. simpl. by rewrite (Step_step _ _ _ _ _ _ Hst).
Qed.

End Termination.

(** ** The claims *)

Section Claims.

Context {F : Type} `{Fetcher F}.
Variable fetcher : F.
Variable root : string.
Variable budget : Z.
Hypothesis budget_in_range : GoInt.in_range budget.

Local Abbreviation Step := (Step fetcher root budget).
Local Abbreviation Reach := (Reach fetcher root budget).
Local Abbreviation wf := (wf root budget).

Lemma emap_get_insert (em : gmap string bool) u u' :
  emap_get (<[ u := true ]> em) u' = if decide (u = u') then true else emap_get em u'.
Proof.
  unfold emap_get. case_decide as E.
  - subst. by rewrite lookup_insert_eq.
  - by rewrite lookup_insert_ne.
Qed.

Lemma grants_cons u e tr : grants u (e :: tr) = Nat.b2n (is_grant u e) + grants u tr.
Proof. reflexivity. Qed.

Lemma fetches_cons u e tr : fetches u (e :: tr) = Nat.b2n (is_fetch u e) + fetches u tr.
Proof. reflexivity. Qed.

Lemma signals_cons i e tr : signals i (e :: tr) = Nat.b2n (is_signal i e) + signals i tr.
Proof. reflexivity. Qed.

Lemma emap_step s a s' : inv_emap s -> Step s a s' -> inv_emap s'.
Proof.
  intros [HT HG] Hst. unfold inv_emap. step_cases Hst; simpl in *; try (by split).
  - split.
    + intros u b [[? ?]|[? ?]]%lookup_insert_Some; [done|eauto].
    + intros u. rewrite grants_cons, emap_get_insert, HG. simpl.
      case_decide as E.
      * subst u. rewrite bool_decide_eq_true_2 by done.
        by destruct (emap_get em (Url v)).
      * rewrite bool_decide_eq_false_2 by done.
        by destruct (emap_get em (Url v)).
  - split; [done|]. intros u. rewrite <- HG.
    destruct Hloc; simpl; by rewrite ?grants_cons.
Qed.

(** The change of the number of holders of a grant for [u] when the
    goroutine of [Hc] moves to [p]. *)
Lemma holds_insert u (cs : list crawl) i c p :
  cs !! i = Some c ->
  count (holds_grant u) (<[ i := at_pc c p ]> cs) + Nat.b2n (holds_grant u c)
  = count (holds_grant u) cs + Nat.b2n (holds_grant u (at_pc c p)).
Proof. apply count_insert. Qed.

Ltac hold u p Hc :=
  let E := fresh "E" in
  pose proof (holds_insert u _ _ _ p Hc) as E;
  unfold holds_grant at 2 4 in E; simpl in E.

Lemma once_step s a s' :
  inv_once s -> inv_examiner s -> Step s a s' -> inv_once s'.
Proof.
  intros HI HE Hst. unfold inv_once in *.
  step_cases Hst; simpl in *; intros w; specialize (HI w).
  - rewrite count_snoc. unfold holds_grant at 2. simpl.
    rewrite andb_false_r. simpl. lia.
  - destruct ex as [| | |? []]; simpl in *; lia.
  - rewrite fetches_cons, grants_cons. simpl.
    destruct (emap_get em (Url v)), (bool_decide (Url v = w)); simpl; lia.
  - destruct HE as (c' & Hc' & Hpc' & Hu). simpl in *.
    assert (c' = c) as -> by congruence.
    hold w (AtTests b) Hc. rewrite Hpc, Hu in E.
    destruct b, (bool_decide (Url v = w)); simpl in *; lia.
  - hold w AtAnswer Hc. rewrite Hpc in E. rewrite andb_false_r in E. simpl in E. lia.
  - hold w p Hc.
    destruct Hloc as [Hq|Hq ?|Hq Hd|? ? ? Hq Hf|? ? Hq Hf|? Hq|Hq];
      rewrite Hq in E; simpl; rewrite ?fetches_cons, ?grants_cons; simpl;
      destruct (bool_decide (url c = w)); simpl in *; lia.
  - rewrite count_snoc. unfold holds_grant at 2. simpl.
    rewrite andb_false_r. simpl.
    hold w (AtSpawn todo links) Hc. rewrite Hpc in E.
    rewrite andb_false_r in E. simpl in E. lia.
  - hold w Finished Hc. rewrite Hpc in E.
    rewrite andb_false_r in E. simpl in E. rewrite fetches_cons, grants_cons. simpl. lia.
  - assert (i <> p) as Hip by (intros ->; congruence).
    assert (<[ i := at_pc c Finished ]> cs !! p = Some parent) as Hpar'
        by by rewrite list_lookup_insert_ne.
    hold w (AtJoin todo) Hpar'. hold w Finished Hc. rewrite Hpc, Hppc in *.
    rewrite !andb_false_r in *. simpl in *.
    rewrite fetches_cons, grants_cons. simpl. lia.
Qed.

(** *** What the trace says about each goroutine *)

Lemma answered_cons tr i u b e :
  not_claim_of i e -> answered tr i u b -> answered (e :: tr) i u b.
Proof.
  intros He [Hin Hu]. split; [by apply list_elem_of_further|].
  intros u' b' [<-|?]%elem_of_cons; [by simpl in He|eauto].
Qed.

Lemma unanswered_cons tr i e :
  not_claim_of i e -> unanswered tr i -> unanswered (e :: tr) i.
Proof.
  intros He Hun u b [<-|?]%elem_of_cons; [by simpl in He|by eapply Hun].
Qed.

Lemma answered_new tr i u b : unanswered tr i -> answered (Claimed i u b :: tr) i u b.
Proof.
  intros Hun. split; [by left|].
  intros u' b' [[= ? ?]|?]%elem_of_cons; [done|by edestruct Hun].
Qed.

Lemma claim_status_cons tr i c e :
  not_claim_of i e -> claim_status tr i c -> claim_status (e :: tr) i c.
Proof.
  unfold claim_status. intros He.
  destruct (pc c); try done; try (by apply answered_cons);
    try (by apply unanswered_cons); try (by apply list_elem_of_further).
  all: intros [?|[[? ?]|?]];
    [ left; by apply answered_cons
    | right; left; split; [by apply answered_cons|done]
    | right; right; by apply list_elem_of_further ].
Qed.

Lemma examiner_status_cons tr ex e :
  (forall i, not_claim_of i e) -> examiner_status tr ex -> examiner_status (e :: tr) ex.
Proof.
  unfold examiner_status. intros He.
  destruct ex; try done; [by apply unanswered_cons|by apply answered_cons].
Qed.

Lemma exists_insert (Q : string -> Z -> chan -> Prop) (cs : list crawl) i j c p :
  (exists c', cs !! j = Some c' /\ Q (url c') (depth c') (ch c')) ->
  cs !! i = Some c ->
  exists c', <[ i := at_pc c p ]> cs !! j = Some c' /\ Q (url c') (depth c') (ch c').
Proof.
  intros (c' & Hc' & HQ) Hc. destruct (decide (i = j)) as [->|Hne].
  - assert (c' = c) as -> by congruence. exists (at_pc c p).
    rewrite list_lookup_insert_eq; [done|by eapply lookup_lt_Some].
  - exists c'. by rewrite list_lookup_insert_ne.
Qed.

Lemma exists_snoc (Q : string -> Z -> chan -> Prop) (cs : list crawl) j c :
  (exists c', cs !! j = Some c' /\ Q (url c') (depth c') (ch c')) ->
  exists c', (cs ++ [c]) !! j = Some c' /\ Q (url c') (depth c') (ch c').
Proof.
  intros (c' & Hc' & HQ). exists c'.
  rewrite lookup_app_l; [done|by eapply lookup_lt_Some].
Qed.

Lemma claims_known_step s a s' :
  (forall i u b, Claimed i u b ∈ trace s ->
     emap_get (emap s) u = true /\ exists c, crawls s !! i = Some c /\ url c = u) ->
  inv_examiner s -> Step s a s' ->
  (forall i u b, Claimed i u b ∈ trace s' ->
     emap_get (emap s') u = true /\ exists c, crawls s' !! i = Some c /\ url c = u).
Proof.
  intros HI HE Hst. step_cases Hst; simpl in *; intros j w b' Hin; mem;
    try (destruct Hloc; simpl in *; mem);
    try (destruct (HI _ _ _ Hin) as [Hem Hex]; split; [done|]).
  all: try done.
  all: try (by apply (exists_snoc (fun u _ _ => u = w))).
  all: try (by apply (exists_insert (fun u _ _ => u = w))).
  - destruct HE as (c & Hc & _ & Hu). split; [|by exists c].
    rewrite emap_get_insert. by case_decide.
  - destruct (HI _ _ _ Hin) as [Hem Hex]. split; [|done].
    rewrite emap_get_insert. by case_decide.
  - by apply (exists_snoc (fun u _ _ => u = w)), (exists_insert (fun u _ _ => u = w)).
  - assert (i <> p) as Hip by (intros ->; congruence).
    apply (exists_insert (fun u _ _ => u = w)); [|by rewrite list_lookup_insert_ne].
    by apply (exists_insert (fun u _ _ => u = w)).
Qed.

Lemma fetch_granted_step s a s' :
  (forall i u, Fetching i u ∈ trace s ->
     Claimed i u true ∈ trace s /\
     exists c, crawls s !! i = Some c /\ url c = u /\ (0 < depth c)%Z) ->
  (forall i c, crawls s !! i = Some c -> claim_status (trace s) i c) ->
  inv_positive s -> Step s a s' ->
  (forall i u, Fetching i u ∈ trace s' ->
     Claimed i u true ∈ trace s' /\
     exists c, crawls s' !! i = Some c /\ url c = u /\ (0 < depth c)%Z).
Proof.
  intros HI HS Hpos Hst. step_cases Hst; simpl in *; intros j w Hin; mem;
    try (destruct Hloc as [Hq|Hq ?|Hq Hd|? ? ? Hq Hf|? ? Hq Hf|? Hq|Hq];
         simpl in *; mem);
    try (destruct (HI _ _ Hin) as [Hem Hex]; split;
         [by repeat apply list_elem_of_further|]).
  all: try done.
  all: try (by apply (exists_snoc (fun u d _ => u = w /\ (0 < d)%Z))).
  all: try (by apply (exists_insert (fun u d _ => u = w /\ (0 < d)%Z))).
  - pose proof (HS _ _ Hc) as Hs. unfold claim_status in Hs. rewrite Hq in Hs.
    destruct Hs as [Hin _]. specialize (Hpos _ _ Hc). rewrite Hq in Hpos.
    split; [by repeat apply list_elem_of_further|].
    exists (at_pc c AtDeferred).
    rewrite list_lookup_insert_eq; [done|by eapply lookup_lt_Some].
  - pose proof (HS _ _ Hc) as Hs. unfold claim_status in Hs. rewrite Hq in Hs.
    destruct Hs as [Hin _]. specialize (Hpos _ _ Hc). rewrite Hq in Hpos.
    split; [by repeat apply list_elem_of_further|].
    exists (at_pc c (AtSpawn links links)).
    rewrite list_lookup_insert_eq; [done|by eapply lookup_lt_Some].
  - by apply (exists_snoc (fun u d _ => u = w /\ (0 < d)%Z)),
      (exists_insert (fun u d _ => u = w /\ (0 < d)%Z)).
  - assert (i <> p) as Hip by (intros ->; congruence).
    apply (exists_insert (fun u d _ => u = w /\ (0 < d)%Z));
      [|by rewrite list_lookup_insert_ne].
    by apply (exists_insert (fun u d _ => u = w /\ (0 < d)%Z)).
Qed.

Lemma examiner_status_step s a s' :
  examiner_status (trace s) (examiner s) ->
  (forall i c, crawls s !! i = Some c -> claim_status (trace s) i c) ->
  Step s a s' ->
  examiner_status (trace s') (examiner s').
Proof.
  intros HI HS Hst. step_cases Hst; simpl in *; try done.
  - by apply answered_new.
  - specialize (HS _ _ Hc). unfold claim_status in HS. by rewrite Hpc in HS.
  - destruct Hloc; simpl; try done; by repeat apply examiner_status_cons.
  - by apply examiner_status_cons.
  - by apply examiner_status_cons.
Qed.

Lemma claim_status_step s a s' :
  inv_claims s -> wf s -> Step s a s' ->
  (forall i c, crawls s' !! i = Some c -> claim_status (trace s') i c).
Proof.
  intros (H1 & H2 & H3 & H4) [Hr Hpos HE HA HM HP HJ] Hst.
  step_cases Hst; simpl in *; intros j cj Hj; lookups; try (by apply H4).
  - destruct HM as (_ & _ & _ & Htr); simpl in Htr; subst tr.
    intros w b [] %elem_of_nil.
  - destruct HE as (c & Hc & Hpc & Hu). simpl in *.
    destruct (decide (j = Goahead v)) as [->|Hne].
    + assert (cj = c) as -> by congruence. unfold claim_status. by rewrite Hpc.
    + apply claim_status_cons; [done|]. by apply H4.
  - destruct HE as (c' & Hc' & _ & Hu). simpl in *.
    assert (c' = c) as -> by congruence.
    unfold claim_status, examiner_status in *. simpl. by rewrite Hu.
  - done.
  - specialize (H4 _ _ Hc). unfold claim_status in *.
    destruct Hloc as [Hq|Hq ?|Hq Hd|? ? ? Hq Hf|? ? Hq Hf|? Hq|Hq];
      rewrite Hq in H4; simpl; auto.
    + right; right. apply list_elem_of_further. by left.
    + apply list_elem_of_further. by left.
  - specialize (H4 _ _ Hj).
    destruct Hloc; simpl; try done; by repeat apply claim_status_cons.
  - specialize (H4 _ _ Hc). unfold claim_status in *. by rewrite Hpc in H4.
  - rewrite length_insert. intros w b Hin. destruct (H1 _ _ _ Hin) as (_ & c' & Hc' & _).
    apply lookup_lt_Some in Hc'. lia.
  - specialize (H4 _ _ Hc). apply (claim_status_cons _ _ (at_pc c Finished)); [done|].
    unfold claim_status in *. by rewrite Hpc in H4.
  - apply claim_status_cons; [done|]. by apply H4.
  - specialize (H4 _ _ Hpar). apply (claim_status_cons _ _ (at_pc parent (AtJoin todo))); [done|].
    unfold claim_status in *. by rewrite Hppc in H4.
  - specialize (H4 _ _ Hc). apply (claim_status_cons _ _ (at_pc c Finished)); [done|].
    unfold claim_status in *. by rewrite Hpc in H4.
  - apply claim_status_cons; [done|]. by apply H4.
Qed.

Lemma claims_step s a s' : inv_claims s -> wf s -> Step s a s' -> inv_claims s'.
Proof.
  intros HI Hwf Hst. pose proof HI as (H1 & H2 & H3 & H4).
  split_and!.
  - eapply claims_known_step; [done| |done]. by destruct Hwf.
  - eapply fetch_granted_step; [done..| |done]. by destruct Hwf.
  - by eapply examiner_status_step.
  - by eapply claim_status_step.
Qed.

Lemma claims_init : inv_emap init /\ inv_once init /\ inv_claims init.
Proof.
  unfold inv_emap, inv_once, inv_claims. simpl. split_and!; try done.
  - intros i u b [] %elem_of_nil.
  - intros i u [] %elem_of_nil.
Qed.

Lemma Reach_claims s : Reach s -> inv_emap s /\ inv_once s /\ inv_claims s.
Proof.
  induction 1 as [|s a s' Hr (IH1 & IH2 & IH3) Hst]; [apply claims_init|].
  pose proof (Reach_wf _ _ _ budget_in_range _ Hr) as Hwf.
  split_and!.
  - by eapply emap_step.
  - eapply once_step; [done| |done]. by destruct Hwf.
  - by eapply claims_step.
Qed.

End Claims.

(** ** The completion signals *)

Section Signals.

Context {F : Type} `{Fetcher F}.
Variable fetcher : F.
Variable root : string.
Variable budget : Z.
Hypothesis budget_in_range : GoInt.in_range budget.

Local Abbreviation Step := (Step fetcher root budget).
Local Abbreviation Reach := (Reach fetcher root budget).
Local Abbreviation wf := (wf root budget).

Lemma finished_at_insert (cs : list crawl) i c p j :
  cs !! i = Some c ->
  finished_at (<[ i := at_pc c p ]> cs) j
  = if decide (i = j) then Nat.b2n (is_finished p) else finished_at cs j.
Proof.
  intros Hc. unfold finished_at. case_decide as E.
  - subst. rewrite list_lookup_insert_eq; [done|by eapply lookup_lt_Some].
  - by rewrite list_lookup_insert_ne.
Qed.

Lemma finished_at_insert_same (cs : list crawl) i c p j :
  cs !! i = Some c -> is_finished p = is_finished (pc c) ->
  finished_at (<[ i := at_pc c p ]> cs) j = finished_at cs j.
Proof.
  intros Hc Hp. rewrite finished_at_insert by done. case_decide; [|done].
  subst. unfold finished_at. by rewrite Hc, Hp.
Qed.

Lemma finished_at_snoc (cs : list crawl) c j :
  is_finished (pc c) = false -> finished_at (cs ++ [c]) j = finished_at cs j.
Proof.
  intros Hc. unfold finished_at.
  destruct (decide (j < length cs)) as [Hlt|Hge].
  - by rewrite lookup_app_l.
  - rewrite (proj2 (lookup_ge_None cs j)) by lia.
    destruct ((cs ++ [c]) !! j) as [c'|] eqn:E; [|done].
    apply lookup_snoc_Some in E as [[? ?]|[? ?]]; [lia|]. subst. by rewrite Hc.
Qed.

Lemma local_not_finished i c p evs :
  local fetcher i c p evs ->
  is_finished (pc c) = false /\ is_finished p = false /\
  forall j, count (is_signal j) (evs ++ []) = 0.
Proof. by destruct 1 as [Hq|Hq ?|Hq ?|? ? ? Hq ?|? ? Hq ?|? Hq|Hq]; rewrite Hq. Qed.

Lemma signals_app i evs tr :
  signals i (evs ++ tr) = count (is_signal i) (evs ++ []) + signals i tr.
Proof.
  unfold signals, count. rewrite !sum_list_with_app. simpl. lia.
Qed.

Lemma exists_step s a s' (Q : string -> Z -> chan -> Prop) j :
  Step s a s' ->
  (exists c, crawls s !! j = Some c /\ Q (url c) (depth c) (ch c)) ->
  exists c, crawls s' !! j = Some c /\ Q (url c) (depth c) (ch c).
Proof.
  intros Hst HQ. step_cases Hst; simpl in *; try done;
    try (by apply (exists_insert Q)); try (by apply (exists_snoc Q)).
  - by apply (exists_snoc Q), (exists_insert Q).
  - assert (i <> p) as Hip by (intros ->; congruence).
    apply (exists_insert Q); [|by rewrite list_lookup_insert_ne].
    by apply (exists_insert Q).
Qed.

Lemma signals_step s a s' :
  inv_signals s -> wf s -> Step s a s' -> inv_signals s'.
Proof.
  intros [HI1 HI2] [Hr Hpos HE HA HM HP HJ] Hst. unfold inv_signals. split.
  - step_cases Hst; simpl in *; intros j; rewrite ?signals_cons; simpl;
      rewrite ?finished_at_snoc by done;
      rewrite ?finished_at_insert_same by (try done; by rewrite Hpc); try done.
    + destruct (local_not_finished _ _ _ _ Hloc) as (Hq & Hq' & Hev).
      rewrite signals_app, Hev, finished_at_insert_same by (try done; congruence).
      apply HI1.
    + rewrite finished_at_insert, HI1 by done. case_decide as E.
      * subst. rewrite bool_decide_eq_true_2 by done.
        unfold finished_at. by rewrite Hc, Hpc.
      * by rewrite bool_decide_eq_false_2.
    + assert (i <> p) as Hip by (intros ->; congruence).
      assert (<[ i := at_pc c Finished ]> cs !! p = Some parent) as Hpar'
          by by rewrite list_lookup_insert_ne.
      rewrite (finished_at_insert_same _ _ _ _ _ Hpar') by by rewrite Hppc.
      rewrite finished_at_insert, HI1 by done. case_decide as E.
      * subst. rewrite bool_decide_eq_true_2 by done.
        unfold finished_at. by rewrite Hc, Hpc.
      * by rewrite bool_decide_eq_false_2.
  - intros j d w Hin.
    assert (Signalled j d w ∈ trace s \/
            exists c, crawls s !! j = Some c /\ ch c = d /\ url c = w) as [Hold|Hnew].
    { step_cases Hst; simpl in *; auto; try (destruct Hloc; simpl in * ); mem; eauto. }
    + apply (exists_step _ _ _ (fun u _ c => c = d /\ u = w) _ Hst). eauto.
    + by apply (exists_step _ _ _ (fun u _ c => c = d /\ u = w) _ Hst).
Qed.

(** Where a goroutine of the state after a step comes from. *)
Lemma lookup_step_inv s a s' k ck :
  Step s a s' -> crawls s' !! k = Some ck ->
  (exists ck0, crawls s !! k = Some ck0 /\ url ck0 = url ck /\
               depth ck0 = depth ck /\ ch ck0 = ch ck) \/
  ck = mkCrawl root budget ChMain AtAsk \/
  (exists i c u todo links,
     crawls s !! i = Some c /\ pc c = AtSpawn (u :: todo) links /\
     k = length (crawls s) /\
     ck = mkCrawl u (GoInt.sub (depth c) 1) (ChSub i) AtAsk).
Proof.
  intros Hst Hk. step_cases Hst; simpl in *; lookups; eauto 10.
  - right; right. rewrite length_insert. eauto 10.
Qed.

Lemma signalled_finished s i d w :
  inv_signals s -> Signalled i d w ∈ trace s ->
  exists c, crawls s !! i = Some c /\ pc c = Finished.
Proof.
  intros [HI1 HI2] Hin. apply list_elem_of_lookup in Hin as [n Hn].
  assert (0 < signals i (trace s)) as Hpos.
  { apply (count_pos _ _ _ _ Hn). simpl. by apply bool_decide_eq_true_2. }
  rewrite HI1 in Hpos. unfold finished_at in Hpos.
  destruct (crawls s !! i) as [c|]; [|lia]. exists c. split; [done|].
  destruct (pc c); simpl in *; try lia. done.
Qed.

Lemma finished_signalled s i c :
  inv_signals s -> crawls s !! i = Some c -> pc c = Finished ->
  Signalled i (ch c) (url c) ∈ trace s.
Proof.
  intros [HI1 HI2] Hc Hpc.
  assert (0 < signals i (trace s)) as Hpos.
  { rewrite HI1. unfold finished_at. rewrite Hc, Hpc. simpl. lia. }
  apply count_exists in Hpos as (n & e & Hn & He).
  destruct e as [| | | |j d w]; try done. apply bool_decide_eq_true in He. subst j.
  apply list_elem_of_lookup_2 in Hn.
  destruct (HI2 _ _ _ Hn) as (c' & Hc' & <- & <-).
  by assert (c' = c) as -> by congruence.
Qed.

Lemma order_step s a s' :
  inv_order s -> inv_signals s -> wf s -> Step s a s' -> inv_order s'.
Proof.
  intros HI HS Hwf Hst l1 l2 g d w Htr k ck Hk Hchk.
  assert ((exists l2', trace s = l2' ++ Signalled g d w :: l1) \/
          (l1 = trace s /\ length (crawls s') = length (crawls s) /\
           exists cg, crawls s !! g = Some cg /\ pc cg = AtDeferred)) as [[l2' Hold]|Hnew].
  { clear Hk Hchk. step_cases Hst; simpl in *; eauto;
      try (destruct Hloc; simpl in * );
      try (left; by exists l2);
      destruct l2 as [|e l2]; simplify_eq/=;
      try (left; by exists l2);
      try (destruct l2 as [|e2 l2]; simplify_eq/=; left; by exists l2).
    - right. rewrite length_insert. eauto.
    - right. rewrite !length_insert. eauto. }
  - destruct (lookup_step_inv _ _ _ _ _ Hst Hk)
      as [(ck0 & Hk0 & Hu & _ & Hc0)|[->|(j & cj & u & todo & links & Hj & Hpc & _ & ->)]].
    + rewrite <- Hu. eapply HI; [done..|congruence].
    + done.
    + simpl in Hchk. simplify_eq.
      destruct (signalled_finished s g d w HS) as (c' & Hc' & Hfin).
      { rewrite Hold. apply elem_of_app. right. by left. }
      congruence.
  - destruct Hnew as (-> & Hlen & cg & Hc & Hpc).
    destruct (lookup_step_inv _ _ _ _ _ Hst Hk)
      as [(ck0 & Hk0 & Hu & _ & Hc0)|[->|(j & ? & ? & ? & ? & _ & _ & -> & _)]].
    + pose proof (wf_join _ _ _ Hwf _ _ Hc) as Hpend. rewrite Hpc in Hpend.
      pose proof (count_zero _ _ Hpend _ _ Hk0) as Hz. simpl in Hz.
      rewrite (child_of_ChSub _ g g) in Hz by congruence.
      rewrite bool_decide_eq_true_2 in Hz by done. simpl in Hz.
      apply negb_false_iff in Hz.
      assert (pc ck0 = Finished) as Hfin by by destruct (pc ck0).
      pose proof (finished_signalled _ _ _ HS Hk0 Hfin) as Hin.
      by rewrite Hc0, Hchk, Hu in Hin.
    + done.
    + apply lookup_lt_Some in Hk. lia.
Qed.

Lemma signals_init : inv_signals init /\ inv_order init.
Proof.
  split; [split|].
  - by intros [|].
  - intros i c u [] %elem_of_nil.
  - intros l1 [|] i c u Htr; simplify_eq/=.
Qed.

Lemma Reach_signals s : Reach s -> inv_signals s /\ inv_order s.
Proof.
  induction 1 as [|s a s' Hr (IH1 & IH2) Hst]; [apply signals_init|].
  pose proof (Reach_wf _ _ _ budget_in_range _ Hr) as Hwf.
  split; [by eapply signals_step|by eapply order_step].
Qed.

End Signals.

(** ** The spawned calls *)

Section Spawned.

Context {F : Type} `{Fetcher F}.
Variable fetcher : F.
Variable root : string.
Variable budget : Z.
Hypothesis budget_in_range : GoInt.in_range budget.

Local Abbreviation Step := (Step fetcher root budget).
Local Abbreviation Reach := (Reach fetcher root budget).
Local Abbreviation wf := (wf root budget).
Local Abbreviation links_of := (links_of fetcher).
Local Abbreviation kids_status := (kids_status fetcher).
Local Abbreviation inv_kids := (inv_kids fetcher).
Local Abbreviation inv_ancestry := (inv_ancestry fetcher).

Lemma kids_at_pc (cs : list crawl) i c p j :
  cs !! i = Some c -> kids j (<[ i := at_pc c p ]> cs) = kids j cs.
Proof.
  revert i. induction cs as [|x cs IH]; intros [|i] Hc; simplify_eq/=; [done|].
  by rewrite (IH _ Hc).
Qed.

Lemma kids_snoc (cs : list crawl) c j :
  kids j (cs ++ [c]) = kids j cs ++ (if child_of j c then [url c] else []).
Proof.
  induction cs as [|x cs IH]; simpl; [by destruct (child_of j c)|].
  rewrite IH. by destruct (child_of j x).
Qed.

Lemma kids_length (cs : list crawl) j : length (kids j cs) = children j cs.
Proof.
  induction cs as [|x cs IH]; [done|]. unfold children in *. rewrite count_cons.
  simpl. destruct (child_of j x); simpl; lia.
Qed.

Lemma kids_none (cs : list crawl) j : children j cs = 0 -> kids j cs = [].
Proof. rewrite <- kids_length. by destruct (kids j cs). Qed.

Lemma trace_mono s a s' e : Step s a s' -> e ∈ trace s -> e ∈ trace s'.
Proof.
  intros Hst He. step_cases Hst; simpl in *; try done;
    try (by apply list_elem_of_further).
  apply elem_of_app. by right.
Qed.

Lemma kids_status_cons tr cs i c e :
  not_fetch_of i e -> kids_status tr cs i c -> kids_status (e :: tr) cs i c.
Proof.
  unfold kids_status. intros He. destruct (pc c); try done.
  all: try (intros Hn u [<-|?]%elem_of_cons; [by simpl in He|by eapply Hn]).
  all: intros Hk [<-|?]%elem_of_cons; [by simpl in He|by apply Hk].
Qed.

Lemma kids_status_ext tr (cs cs' : list crawl) i c :
  kids i cs' = kids i cs -> kids_status tr cs i c -> kids_status tr cs' i c.
Proof. unfold kids_status. by intros ->. Qed.

Lemma kids_status_app tr cs i c evs :
  Forall (not_fetch_of i) evs -> kids_status tr cs i c ->
  kids_status (evs ++ tr) cs i c.
Proof.
  induction 1; simpl; [done|]. intros. apply kids_status_cons; auto.
Qed.

Lemma local_events i c p evs j :
  local fetcher i c p evs -> i <> j -> Forall (not_fetch_of j) evs.
Proof. destruct 1; repeat constructor; done. Qed.

Lemma kids_step s a s' :
  inv_kids s -> inv_claims s -> wf s -> Step s a s' -> inv_kids s'.
Proof.
  intros HI (H1 & H2 & H3 & H4) [Hr Hpos HE HA HM HP HJ] Hst.
  step_cases Hst; simpl in *; intros j cj Hj; simpl in Hj; lookups;
    try (by apply HI).
  - destruct HM as (Hcs & _); simpl in Hcs; subst cs. simpl in *. lia.
  - destruct HM as (_ & _ & _ & Htr); simpl in Htr; subst tr.
    intros w [] %elem_of_nil.
  - apply kids_status_cons; [done|]. by apply HI.
  - specialize (HI _ _ Hc). unfold kids_status in *. by rewrite Hpc in HI.
  - apply (kids_status_ext _ cs); [by apply kids_at_pc|]. by apply HI.
  - specialize (HI _ _ Hc). unfold kids_status in *. by rewrite Hpc in HI.
  - apply (kids_status_ext _ cs); [by apply kids_at_pc|]. by apply HI.
  - specialize (HI _ _ Hc). specialize (HJ _ _ Hc). simpl in *.
    unfold kids_status in *. rewrite kids_at_pc by done.
    destruct Hloc as [Hq|Hq ?|Hq Hd|? ? ? Hq Hf|? ? Hq Hf|? Hq|Hq];
      rewrite Hq in *; simpl.
    + intros Hin. by apply HI in Hin.
    + intros Hin. by apply HI in Hin.
    + done.
    + intros _. rewrite (links_of_failed _ _ _ _ _ Hf). by apply kids_none.
    + rewrite (links_of_found _ _ _ _ Hf). split; [done|]. by rewrite kids_none.
    + destruct HI as [<- HI]. by rewrite app_nil_r in HI.
    + done.
  - apply kids_status_app; [by eapply local_events|].
    apply (kids_status_ext _ cs); [by apply kids_at_pc|]. by apply HI.
  - specialize (HI _ _ Hc). unfold kids_status in *. rewrite Hpc in HI. simpl.
    destruct HI as [HI1 HI2]. split; [done|].
    rewrite kids_snoc, kids_at_pc, child_of_same by done.
    by rewrite <- app_assoc.
  - apply (kids_status_ext _ cs); [|by apply HI].
    by rewrite kids_snoc, kids_at_pc, child_of_other, app_nil_r.
  - rewrite length_insert. intros w Hin. destruct (H2 _ _ Hin) as (_ & c' & Hc' & _).
    apply lookup_lt_Some in Hc'. lia.
  - specialize (HI _ _ Hc). apply (kids_status_cons _ _ _ (at_pc c Finished)); [done|].
    apply (kids_status_ext _ cs); [by apply kids_at_pc|].
    unfold kids_status in *. by rewrite Hpc in HI.
  - apply kids_status_cons; [done|].
    apply (kids_status_ext _ cs); [by apply kids_at_pc|]. by apply HI.
  - assert (i <> j) as Hip by (intros ->; congruence).
    assert (<[ i := at_pc c Finished ]> cs !! j = Some parent) as Hpar'
        by by rewrite list_lookup_insert_ne.
    specialize (HI _ _ Hpar).
    apply (kids_status_cons _ _ _ (at_pc parent (AtJoin todo))); [done|].
    apply (kids_status_ext _ cs); [by rewrite !kids_at_pc|].
    unfold kids_status in *. by rewrite Hppc in HI.
  - assert (j <> p) as Hip by (intros ->; congruence).
    assert (<[ j := at_pc c Finished ]> cs !! p = Some parent) as Hpar'
        by by rewrite list_lookup_insert_ne.
    specialize (HI _ _ Hc).
    apply (kids_status_cons _ _ _ (at_pc c Finished)); [done|].
    apply (kids_status_ext _ cs); [by rewrite !kids_at_pc|].
    unfold kids_status in *. by rewrite Hpc in HI.
  - assert (i <> p) as Hip by (intros ->; congruence).
    assert (<[ i := at_pc c Finished ]> cs !! p = Some parent) as Hpar'
        by by rewrite list_lookup_insert_ne.
    apply kids_status_cons; [done|].
    apply (kids_status_ext _ cs); [by rewrite !kids_at_pc|]. by apply HI.
Qed.

Lemma ancestry_step s a s' :
  inv_ancestry s -> inv_kids s -> inv_claims s -> wf s -> Step s a s' ->
  inv_ancestry s'.
Proof.
  intros HI HK (H1 & H2 & H3 & H4) Hwf Hst j cj q Hj Hq.
  destruct (lookup_step_inv _ _ _ _ _ _ _ _ Hst Hj)
    as [(c0 & Hc0 & Hu & Hd & Hch)|[->|(i & c & u & todo & links & Hc & Hpc & _ & ->)]].
  - rewrite <- Hch in Hq. destruct (HI _ _ _ Hc0 Hq) as (cp & Hp & Hf & Hl & Hdp & Hdc).
    rewrite <- Hu, <- Hd.
    apply (exists_step _ _ _ _ _ _
             (fun w d _ => Fetching q w ∈ trace s' /\ url c0 ∈ links_of w /\
                           (0 < d)%Z /\ depth c0 = (d - 1)%Z) _ Hst).
    exists cp. split_and!; try done. by eapply trace_mono.
  - done.
  - simpl in *. simplify_eq.
    pose proof (HK _ _ Hc) as HKc. unfold kids_status in HKc. rewrite Hpc in HKc.
    destruct HKc as [-> Hk].
    pose proof (H4 _ _ Hc) as H4c. unfold claim_status in H4c. rewrite Hpc in H4c.
    pose proof (wf_positive _ _ _ Hwf _ _ Hc) as Hpos. rewrite Hpc in Hpos.
    pose proof (wf_range _ _ _ Hwf _ _ Hc) as Hr.
    apply (exists_step _ _ _ _ _ _
             (fun w d _ => Fetching q w ∈ trace s' /\ u ∈ links_of w /\
                           (0 < d)%Z /\ GoInt.sub (depth c) 1 = (d - 1)%Z) _ Hst).
    exists c. split_and!; try done.
    + by eapply trace_mono.
    + rewrite <- Hk. apply elem_of_app. right. by left.
    + by apply GoIntFacts.sub_1_pos.
Qed.

Lemma spawned_init : inv_kids init /\ inv_ancestry init.
Proof. split; by intros [|]. Qed.

Lemma Reach_spawned s : Reach s -> inv_kids s /\ inv_ancestry s.
Proof.
  induction 1 as [|s a s' Hr (IH1 & IH2) Hst]; [apply spawned_init|].
  pose proof (Reach_wf _ _ _ budget_in_range _ Hr) as Hwf.
  destruct (Reach_claims _ _ _ budget_in_range _ Hr) as (_ & _ & Hcl).
  split; [by eapply kids_step|by eapply ancestry_step].
Qed.

(** Every call is for an address some links away from the root, and its
    depth is the budget less the number of links. *)
Lemma crawl_hops s : wf s -> inv_ancestry s ->
  forall j c, crawls s !! j = Some c ->
    exists g, hops fetcher root g (url c) /\ depth c = (budget - Z.of_nat g)%Z.
Proof.
  intros Hwf HA j. induction j as [j IH] using lt_wf_ind. intros c Hc.
  destruct (ch c) as [|p] eqn:Hch.
  - pose proof (wf_parent _ _ _ Hwf _ _ Hc) as Hj. rewrite Hch in Hj. subst j.
    pose proof (wf_main _ _ _ Hwf) as HM. unfold inv_main in HM.
    exists 0. destruct (main s).
    + destruct HM as (Hcs & _). by rewrite Hcs in Hc.
    + destruct HM as (Hcs & _). rewrite Hcs in Hc. simplify_eq/=.
      split; [constructor|lia].
    + destruct HM as (_ & c0 & Hc0 & <- & <- & _). simplify_eq.
      split; [constructor|lia].
    + destruct HM as (_ & c0 & Hc0 & <- & <- & _). simplify_eq.
      split; [constructor|lia].
  - pose proof (wf_parent _ _ _ Hwf _ _ Hc) as Hj. rewrite Hch in Hj.
    destruct (HA _ _ _ Hc Hch) as (cp & Hp & _ & Hl & Hdp & Hdc).
    destruct (IH _ Hj _ Hp) as (g & Hg & Hdg).
    exists (S g). split; [by econstructor|lia].
Qed.

End Spawned.

(** ** Runs *)

Section Runs.

Context {F : Type} `{Fetcher F}.
Variable fetcher : F.
Variable root : string.
Variable budget : Z.
Hypothesis budget_in_range : GoInt.in_range budget.

Local Abbreviation step := (step fetcher root budget).
Local Abbreviation run := (run fetcher root budget).
Local Abbreviation Step := (Step fetcher root budget).
Local Abbreviation Reach := (Reach fetcher root budget).
Local Abbreviation good := (good fetcher root budget).
Local Abbreviation links_of := (links_of fetcher).

Lemma Reach_good s : Reach s -> good s.
Proof.
  intros Hr.
  destruct (Reach_claims _ _ _ budget_in_range _ Hr) as (? & ? & ?).
  destruct (Reach_signals _ _ _ budget_in_range _ Hr) as (? & ?).
  destruct (Reach_spawned _ _ _ budget_in_range _ Hr) as (? & ?).
  split; try done. by eapply Reach_wf.
Qed.

Lemma run_good sched s : run init sched = Some s -> good s.
Proof. intros Hrun. apply Reach_good. eapply run_Reach; [constructor|done]. Qed.

Lemma run_app sched1 sched2 s :
  run s (sched1 ++ sched2) = run s sched1 ≫= fun s1 => run s1 sched2.
Proof.
  revert s. induction sched1 as [|a sched1 IH]; intros s; simpl; [done|].
  destruct (step s a); simpl; [apply IH|done].
Qed.

Lemma run_trace_mono sched : forall s s' e,
  run s sched = Some s' -> e ∈ trace s -> e ∈ trace s'.
Proof.
  induction sched as [|a sched IH]; simpl; intros s s' e Hrun He; [by simplify_eq|].
  destruct (step s a) as [s1|] eqn:Hs; [|done].
  eapply IH; [done|]. eapply trace_mono; [by apply step_Step|done].
Qed.

Lemma run_crawl_mono sched : forall s s' i c,
  run s sched = Some s' -> crawls s !! i = Some c ->
  exists c', crawls s' !! i = Some c' /\ url c' = url c /\ depth c' = depth c /\
             ch c' = ch c.
Proof.
  induction sched as [|a sched IH]; simpl; intros s s' i c Hrun Hc.
  - simplify_eq. by exists c.
  - destruct (step s a) as [s1|] eqn:Hs; [|done]. apply step_Step in Hs.
    destruct (exists_step _ _ _ _ _ _
                (fun u d k => u = url c /\ d = depth c /\ k = ch c) i Hs)
      as (c1 & Hc1 & Hu & Hd & Hk); [by exists c|].
    destruct (IH _ _ _ _ Hrun Hc1) as (c' & Hc' & ? & ? & ?).
    exists c'. split_and!; congruence.
Qed.

(** *** When [main] has returned *)

Lemma all_finished s :
  wf root budget s -> main s = Returned ->
  forall j c, crawls s !! j = Some c -> pc c = Finished.
Proof.
  intros Hwf Hmn j. induction j as [j IH] using lt_wf_ind. intros c Hc.
  pose proof (wf_parent _ _ _ Hwf _ _ Hc) as Hp.
  destruct (ch c) as [|p] eqn:Hch.
  - subst j. pose proof (wf_main _ _ _ Hwf) as HM. unfold inv_main in HM.
    rewrite Hmn in HM. destruct HM as (_ & c0 & Hc0 & _ & _ & _ & Hfin). congruence.
  - destruct (lookup_lt_is_Some_2 (crawls s) p) as [cp Hcp].
    { apply lookup_lt_Some in Hc. lia. }
    pose proof (wf_join _ _ _ Hwf _ _ Hcp) as HJ.
    rewrite (IH _ Hp _ Hcp) in HJ.
    pose proof (count_zero _ _ HJ _ _ Hc) as Hz. simpl in Hz.
    rewrite (child_of_ChSub _ _ _ Hch), bool_decide_eq_true_2 in Hz by done.
    simpl in Hz. apply negb_false_iff in Hz. by destruct (pc c).
Qed.

(** *** The grant of an address *)

Lemma grants_le_1 s u : inv_emap s -> grants u (trace s) <= 1.
Proof. intros [_ HG]. rewrite HG. destruct (emap_get _ _); simpl; lia. Qed.

Lemma fetches_le_grants s u : inv_once s -> fetches u (trace s) <= grants u (trace s).
Proof. intros HO. specialize (HO u). lia. Qed.

Lemma grant_unique s i j u :
  inv_emap s -> Claimed i u true ∈ trace s -> Claimed j u true ∈ trace s -> i = j.
Proof.
  intros HE [n Hn]%list_elem_of_lookup [m Hm]%list_elem_of_lookup.
  destruct (decide (i = j)) as [|Hne]; [done|].
  assert (n <> m) as Hnm by (intros ->; congruence).
  pose proof (count_two (is_grant u) _ _ _ _ _ Hn Hm Hnm) as H2.
  simpl in H2. rewrite bool_decide_eq_true_2 in H2 by done.
  specialize (H2 eq_refl eq_refl). pose proof (grants_le_1 s u HE).
  unfold grants in *. lia.
Qed.

Lemma claimed_granted s i u b :
  good s -> Claimed i u b ∈ trace s -> exists j, Claimed j u true ∈ trace s.
Proof.
  intros Hg Hin. destruct (good_claims _ _ _ _ Hg) as (H1 & _).
  destruct (H1 _ _ _ Hin) as [Hem _].
  destruct (good_emap _ _ _ _ Hg) as [_ HG]. specialize (HG u).
  rewrite Hem in HG. simpl in HG.
  destruct (count_exists (is_grant u) (trace s)) as (n & e & Hn & He);
    [unfold grants in HG; lia|].
  destruct e as [j w [|]| | | |]; try done. apply bool_decide_eq_true in He. subst w.
  exists j. by eapply list_elem_of_lookup_2.
Qed.

Lemma fetch_unique s i j u :
  good s -> Fetching i u ∈ trace s -> Fetching j u ∈ trace s -> i = j.
Proof.
  intros Hg Hi Hj. destruct (good_claims _ _ _ _ Hg) as (_ & H2 & _).
  destruct (H2 _ _ Hi) as [Hci _]. destruct (H2 _ _ Hj) as [Hcj _].
  eapply grant_unique; [by destruct Hg|done..].
Qed.

Lemma fetched_once s i u : good s -> Fetching i u ∈ trace s -> fetches u (trace s) = 1.
Proof.
  intros Hg [n Hn]%list_elem_of_lookup.
  assert (0 < fetches u (trace s)).
  { apply (count_pos _ _ _ _ Hn). simpl. by apply bool_decide_eq_true_2. }
  pose proof (fetches_le_grants s u (good_once _ _ _ _ Hg)).
  pose proof (grants_le_1 s u (good_emap _ _ _ _ Hg)). lia.
Qed.

Lemma not_fetched s u : (forall i, Fetching i u ∉ trace s) -> fetches u (trace s) = 0.
Proof.
  intros Hn. apply count_all_false. intros n e Hne.
  destruct e as [| j w | | |]; try done. simpl.
  apply bool_decide_eq_false_2. intros ->.
  apply list_elem_of_lookup_2 in Hne. by apply (Hn j) in Hne.
Qed.

End Runs.

(* ================================================================== *)
(** * The properties of the traversal *)

Lemma in_range_4 : GoInt.in_range CannedRun.depth.
Proof. by vm_compute. Qed.

Lemma in_range_0 : GoInt.in_range 0.
Proof. by vm_compute. Qed.

Lemma main_run_schedule : CannedRun.main_run CannedRun.schedule = Some CannedRun.final.
Proof. vm_compute. reflexivity. Qed.


Lemma run_schedule0 :
  run Canned.fetcher CannedRun.root 0 init CannedRun.schedule0 = Some CannedRun.final0.
Proof. vm_compute. reflexivity. Qed.

Section Traversal.

Context {F : Type} `{Fetcher F}.
Variable fetcher : F.
Variable root : string.
Variable budget : Z.
Hypothesis budget_in_range : GoInt.in_range budget.

Local Abbreviation step := (step fetcher root budget).
Local Abbreviation run := (run fetcher root budget).
Local Abbreviation good := (good fetcher root budget).
Local Abbreviation links_of := (links_of fetcher).
Local Abbreviation measure := (measure fetcher root budget).
Local Abbreviation hops := (hops fetcher root).

(** C1.  In every run, [fetcher.Fetch] is called at most once for an
    address: the examiner answers [true] at most once for it, and a call
    of [Fetch] by a goroutine is for the address for which that goroutine
    has been answered [true]. *)
Theorem fetch_at_most_once sched s u :
  run init sched = Some s ->
  fetches u (trace s) <= 1 /\
  grants u (trace s) <= 1 /\
  fetches u (trace s) <= grants u (trace s) /\
  (forall i, Fetching i u ∈ trace s -> Claimed i u true ∈ trace s) /\
  (forall i j, Fetching i u ∈ trace s -> Fetching j u ∈ trace s -> i = j).
Proof.
  intros Hrun. pose proof (run_good _ _ _ budget_in_range _ _ Hrun) as Hg.
  pose proof (grants_le_1 s u (good_emap _ _ _ _ Hg)).
  pose proof (fetches_le_grants s u (good_once _ _ _ _ Hg)).
  split_and!; try lia.
  - intros i Hin. destruct (good_claims _ _ _ _ Hg) as (_ & H2 & _).
    by destruct (H2 _ _ Hin).
  - intros i j. by eapply fetch_unique.
Qed.

(** C3.  A call of [Crawl] sends on its [ch] exactly once, when it
    returns, whichever way it returns: told [false], out of depth, after a
    failed fetch, or after the join of its children; and every call does
    return in a run that goes on to the return of [main]. *)
Theorem completion_signal_once sched s i c :
  run init sched = Some s -> crawls s !! i = Some c ->
  signals i (trace s) = (if decide (pc c = Finished) then 1 else 0) /\
  (pc c = Finished ->
     Signalled i (ch c) (url c) ∈ trace s /\
     (answered (trace s) i (url c) false \/
      (answered (trace s) i (url c) true /\ (depth c <= 0)%Z) \/
      (Fetching i (url c) ∈ trace s /\
       exists b l err, Fetch fetcher (url c) = (b, l, Some err)) \/
      (Fetching i (url c) ∈ trace s /\
       exists b l, Fetch fetcher (url c) = (b, l, None) /\ kids i (crawls s) = l))) /\
  (main s = Returned -> pc c = Finished) /\
  (exists sched' s' c',
     run s sched' = Some s' /\ main s' = Returned /\
     crawls s' !! i = Some c' /\ pc c' = Finished /\ signals i (trace s') = 1).
Proof.
  intros Hrun Hc. pose proof (run_good _ _ _ budget_in_range _ _ Hrun) as Hg.
  pose proof (good_signals _ _ _ _ Hg) as HS. split_and!.
  - destruct HS as [HS1 _]. rewrite HS1. unfold finished_at. rewrite Hc.
    case_decide as E; [by rewrite E|]. by destruct (pc c).
  - intros Hfin. split; [by apply finished_signalled|].
    destruct (good_claims _ _ _ _ Hg) as (_ & _ & _ & H4).
    specialize (H4 _ _ Hc). unfold claim_status in H4. rewrite Hfin in H4.
    destruct H4 as [?|[?|Hf]]; [by left|by right; left|].
    right; right.
    destruct (Fetch fetcher (url c)) as [[b l] [err|]] eqn:Hfetch.
    + left. split; [done|]. by exists b, l, err.
    + right. split; [done|]. exists b, l. split; [done|].
      pose proof (good_kids _ _ _ _ Hg _ _ Hc) as HK. unfold kids_status in HK.
      rewrite Hfin in HK. rewrite (HK Hf). unfold links_of. by rewrite Hfetch.
  - intros Hmn. eapply all_finished; [by destruct Hg|done..].
  - destruct (can_return fetcher root budget budget_in_range (measure s) s) as (sched' & s' & Hrun' & Hret);
      [by destruct Hg|done|].
    destruct (run_crawl_mono _ _ _ _ _ _ _ _ Hrun' Hc) as (c' & Hc' & _).
    assert (run init (sched ++ sched') = Some s') as Hrun2.
    { rewrite run_app, Hrun. done. }
    pose proof (run_good _ _ _ budget_in_range _ _ Hrun2) as Hg'.
    assert (pc c' = Finished) as Hfin.
    { eapply all_finished; [by destruct Hg'|done..]. }
    exists sched', s', c'. split_and!; try done.
    destruct (good_signals _ _ _ _ Hg') as [HS1 _]. rewrite HS1.
    unfold finished_at. by rewrite Hc', Hfin.
Qed.

(** C4.  A call of [Crawl] sends on its [ch] only after it has received on
    [subch] from every call it has spawned: in the trace the signal of
    each child comes before the signal of its parent, and while the parent
    is in the loop of lines 63-66 the receives it still has to do are as
    many as the children that have not sent yet, starting from the number
    of links. *)
Theorem join_before_report sched s :
  run init sched = Some s ->
  (forall l1 l2 i c u, trace s = l2 ++ Signalled i c u :: l1 ->
     forall k ck, crawls s !! k = Some ck -> ch ck = ChSub i ->
       Signalled k (ChSub i) (url ck) ∈ l1) /\
  (forall i c, crawls s !! i = Some c ->
     match pc c with
     | AtSpawn todo links =>
         pending i (crawls s) = children i (crawls s) /\
         children i (crawls s) + length todo = length links
     | AtJoin todo => pending i (crawls s) = length todo
     | AtDeferred | Finished => pending i (crawls s) = 0
     | _ => children i (crawls s) = 0
     end).
Proof.
  intros Hrun. pose proof (run_good _ _ _ budget_in_range _ _ Hrun) as Hg.
  split.
  - apply (good_order _ _ _ _ Hg).
  - intros i c Hc. pose proof (wf_join _ _ _ (good_wf _ _ _ _ Hg) _ _ Hc) as HJ.
    by destruct (pc c).
Qed.

Lemma emap_get_true (em : gmap string bool) u :
  emap_get em u = true -> em !! u = Some true.
Proof. unfold emap_get. destruct (em !! u) as [[|]|]; simpl; congruence. Qed.

Lemma never_fetched s i c :
  good s -> crawls s !! i = Some c -> (depth c <= 0)%Z ->
  Claimed i (url c) true ∈ trace s -> fetches (url c) (trace s) = 0.
Proof.
  intros Hg Hc Hd Hcl. apply not_fetched. intros j Hf.
  destruct (good_claims _ _ _ _ Hg) as (_ & H2 & _).
  destruct (H2 _ _ Hf) as (Hcj & cj & Hj & _ & Hdj).
  assert (j = i) as -> by (eapply grant_unique; [by destruct Hg|done..]).
  assert (cj = c) as -> by congruence. lia.
Qed.

Lemma no_fetch_without_budget s :
  good s -> (budget <= 0)%Z -> forall i u, Fetching i u ∉ trace s.
Proof.
  intros Hg Hb i u Hf. destruct (good_claims _ _ _ _ Hg) as (_ & H2 & _).
  destruct (H2 _ _ Hf) as (_ & c & Hc & _ & Hd).
  destruct (crawl_hops fetcher root budget budget_in_range s
              (good_wf _ _ _ _ Hg) (good_ancestry _ _ _ _ Hg) _ _ Hc)
    as (g & _ & Hg'). lia.
Qed.

Lemma only_root_without_budget s :
  good s -> (budget <= 0)%Z -> length (crawls s) <= 1.
Proof.
  intros Hg Hb. destruct (crawls s !! 1) as [c|] eqn:Hc;
    [|by apply lookup_ge_None in Hc].
  pose proof (wf_parent _ _ _ (good_wf _ _ _ _ Hg) _ _ Hc) as Hp.
  destruct (ch c) as [|p] eqn:Hch; [done|].
  destruct (good_ancestry _ _ _ _ Hg _ _ _ Hc Hch) as (cp & _ & Hf & _).
  by apply (no_fetch_without_budget s Hg Hb) in Hf.
Qed.

(** C5.  A call of [Crawl] with [depth <= 0] that is told [true] has its
    address in [emap], and [Fetch] is not called for that address then nor
    later in the run.  With a budget of 0 (or less) the root is the only
    call, it is claimed and never fetched, and [main] returns once it has
    finished. *)
Theorem claimed_without_depth sched s :
  run init sched = Some s ->
  (forall i c, crawls s !! i = Some c -> (depth c <= 0)%Z ->
     Claimed i (url c) true ∈ trace s ->
     emap s !! url c = Some true /\
     forall sched' s', run s sched' = Some s' ->
       emap s' !! url c = Some true /\ fetches (url c) (trace s') = 0) /\
  ((budget <= 0)%Z ->
     length (crawls s) <= 1 /\
     (forall u, fetches u (trace s) = 0) /\
     (main s = Returned ->
        crawls s = [mkCrawl root budget ChMain Finished] /\
        emap s !! root = Some true /\ signals 0 (trace s) = 1) /\
     exists sched' s', run s sched' = Some s' /\ main s' = Returned).
Proof.
  intros Hrun. pose proof (run_good _ _ _ budget_in_range _ _ Hrun) as Hg. split.
  - intros i c Hc Hd Hcl.
    assert (forall sched' s', run s sched' = Some s' ->
              emap s' !! url c = Some true /\ fetches (url c) (trace s') = 0) as Hlater.
    { intros sched' s' Hrun'.
      assert (run init (sched ++ sched') = Some s') as Hrun2
          by by rewrite run_app, Hrun.
      pose proof (run_good _ _ _ budget_in_range _ _ Hrun2) as Hg'.
      destruct (run_crawl_mono _ _ _ _ _ _ _ _ Hrun' Hc) as (c' & Hc' & Hu & Hd' & _).
      pose proof (run_trace_mono _ _ _ _ _ _ _ Hrun' Hcl) as Hcl'.
      destruct (good_claims _ _ _ _ Hg') as (H1 & _).
      destruct (H1 _ _ _ Hcl') as [Hem _]. split; [by apply emap_get_true|].
      rewrite <- Hu. apply (never_fetched s' i c' Hg' Hc'); [lia|by rewrite Hu]. }
    split; [|done]. by destruct (Hlater [] s eq_refl).
  - intros Hb. pose proof (only_root_without_budget s Hg Hb) as Hlen. split_and!.
    + done.
    + intros u. apply not_fetched. intros i. by apply no_fetch_without_budget.
    + intros Hret. pose proof (wf_main _ _ _ (good_wf _ _ _ _ Hg)) as HM.
      unfold inv_main in HM. rewrite Hret in HM.
      destruct HM as (_ & c0 & Hc0 & Hu & Hd & Hch & Hfin).
      assert (crawls s = [c0]) as Hcs.
      { destruct (crawls s) as [|x [|y l]]; simplify_eq/=; [done|lia]. }
      destruct c0 as [u0 d0 k0 p0]; simpl in *; subst. split_and!; [done| |].
      * destruct (good_claims _ _ _ _ Hg) as (H1 & H2 & _ & H4).
        specialize (H4 _ _ Hc0). unfold claim_status in H4. simpl in H4.
        apply emap_get_true.
        destruct H4 as [[Hin _]|[[[Hin _] _]|Hf]].
        -- by destruct (H1 _ _ _ Hin).
        -- by destruct (H1 _ _ _ Hin).
        -- destruct (H2 _ _ Hf) as [Hin _]. by destruct (H1 _ _ _ Hin).
      * destruct (good_signals _ _ _ _ Hg) as [HS1 _]. rewrite HS1.
        unfold finished_at. by rewrite Hc0.
    + apply (can_return fetcher root budget budget_in_range (measure s) s);
        [by destruct Hg|done].
Qed.

(** C6.  [Fetch] is called only by calls whose remaining depth is at least
    1; a spawned call has the depth of its parent less 1; so a call that
    fetches is fewer links away from the root than the budget, and an
    address that is more links away than the budget is never fetched. *)
Theorem depth_bound sched s :
  run init sched = Some s ->
  (forall i u, Fetching i u ∈ trace s ->
     exists c g, crawls s !! i = Some c /\ url c = u /\ (1 <= depth c)%Z /\
                 hops g u /\ depth c = (budget - Z.of_nat g)%Z /\
                 (Z.of_nat g < budget)%Z) /\
  (forall j c p, crawls s !! j = Some c -> ch c = ChSub p ->
     exists cp, crawls s !! p = Some cp /\ (0 < depth cp)%Z /\
                depth c = (depth cp - 1)%Z) /\
  (forall u, (forall g, hops g u -> (budget < Z.of_nat g)%Z) ->
     fetches u (trace s) = 0).
Proof.
  intros Hrun. pose proof (run_good _ _ _ budget_in_range _ _ Hrun) as Hg.
  assert (forall i u, Fetching i u ∈ trace s ->
     exists c g, crawls s !! i = Some c /\ url c = u /\ (1 <= depth c)%Z /\
                 hops g u /\ depth c = (budget - Z.of_nat g)%Z /\
                 (Z.of_nat g < budget)%Z) as Hfetch.
  { intros i u Hf. destruct (good_claims _ _ _ _ Hg) as (_ & H2 & _).
    destruct (H2 _ _ Hf) as (_ & c & Hc & Hu & Hd).
    destruct (crawl_hops fetcher root budget budget_in_range s
              (good_wf _ _ _ _ Hg) (good_ancestry _ _ _ _ Hg) _ _ Hc)
      as (g & Hh & Hdg).
    exists c, g. rewrite Hu in Hh. split_and!; try done; lia. }
  split_and!; [done| |].
  - intros j c p Hc Hch.
    destruct (good_ancestry _ _ _ _ Hg _ _ _ Hc Hch) as (cp & Hp & _ & _ & Hd & Hdc).
    by exists cp.
  - intros u Hfar. apply not_fetched. intros i Hf.
    destruct (Hfetch _ _ Hf) as (c & g & _ & _ & _ & Hh & _ & Hlt).
    specialize (Hfar _ Hh). lia.
Qed.


(** C8.  The traversal terminates: a run has at most as many steps as the
    measure of the initial state, some goroutine can move as long as
    [main] has not returned, every run can be carried on to the return of
    [main], and when [main] returns every call of [Crawl] has finished and
    has sent its signal. *)
Theorem traversal_terminates sched s :
  run init sched = Some s ->
  length sched + measure s <= 2 + cost fetcher (Z.to_nat budget) root /\
  (main s <> Returned -> exists a s', step s a = Some s') /\
  (exists sched' s', run s sched' = Some s' /\ main s' = Returned) /\
  (main s = Returned ->
     forall i c, crawls s !! i = Some c ->
       pc c = Finished /\ signals i (trace s) = 1).
Proof.
  intros Hrun. pose proof (run_good _ _ _ budget_in_range _ _ Hrun) as Hg.
  pose proof (good_wf _ _ _ _ Hg) as Hwf. split_and!.
  - pose proof (run_bounded fetcher root budget budget_in_range sched init s
                  (wf_init _ _) Hrun) as Hb.
    unfold measure at 2 in Hb. simpl in Hb. lia.
  - intros Hmn. destruct (progress fetcher root budget s Hwf Hmn) as (a & s' & Hst).
    exists a, s'. by apply Step_step.
  - by apply (can_return fetcher root budget budget_in_range (measure s) s).
  - intros Hret i c Hc.
    pose proof (all_finished _ _ _ Hwf Hret _ _ Hc) as Hfin. split; [done|].
    destruct (good_signals _ _ _ _ Hg) as [HS1 _]. rewrite HS1.
    unfold finished_at. by rewrite Hc, Hfin.
Qed.

End Traversal.


Lemma fetch_at_most_once_canned : fetches Canned.golang (trace CannedRun.final) <= 1.
Proof.
  apply (fetch_at_most_once Canned.fetcher CannedRun.root CannedRun.depth
           in_range_4 CannedRun.schedule CannedRun.final Canned.golang
           main_run_schedule).
Defined.

Lemma completion_signal_once_canned : signals 3 (trace CannedRun.final) = 1.
Proof.
  assert (crawls CannedRun.final !! 3
          = Some (mkCrawl Canned.golang 2 (ChSub 1) Finished)) as Hc
    by (vm_compute; reflexivity).
  destruct (completion_signal_once Canned.fetcher CannedRun.root CannedRun.depth
              in_range_4 CannedRun.schedule CannedRun.final 3 _
              main_run_schedule Hc) as [W _].
  exact W.
Defined.

Lemma join_before_report_canned : pending 1 (crawls CannedRun.final) = 0.
Proof.
  assert (crawls CannedRun.final !! 1
          = Some (mkCrawl Canned.pkg 3 (ChSub 0) Finished)) as Hc
    by (vm_compute; reflexivity).
  destruct (join_before_report Canned.fetcher CannedRun.root CannedRun.depth
              in_range_4 CannedRun.schedule CannedRun.final
              main_run_schedule) as [_ W].
  exact (W 1 _ Hc).
Defined.

Lemma claimed_without_depth_canned :
  emap CannedRun.final0 !! Canned.golang = Some true /\
  fetches Canned.golang (trace CannedRun.final0) = 0.
Proof.
  destruct (claimed_without_depth Canned.fetcher CannedRun.root 0 in_range_0
              CannedRun.schedule0 CannedRun.final0 run_schedule0) as [W _].
  assert (crawls CannedRun.final0 !! 0
          = Some (mkCrawl Canned.golang 0 ChMain Finished)) as Hc
    by (vm_compute; reflexivity).
  assert (Claimed 0 Canned.golang true ∈ trace CannedRun.final0) as Hcl.
  { apply (bool_decide_unpack _). vm_compute. exact I. }
  destruct (W 0 _ Hc ltac:(simpl; lia) Hcl) as [W1 W2].
  split; [exact W1|]. exact (proj2 (W2 [] _ eq_refl)).
Defined.

Lemma depth_bound_canned :
  exists c g, crawls CannedRun.final !! 6 = Some c /\ url c = Canned.pkg_os /\
              (1 <= depth c)%Z /\
              hops Canned.fetcher CannedRun.root g Canned.pkg_os /\
              depth c = (CannedRun.depth - Z.of_nat g)%Z /\
              (Z.of_nat g < CannedRun.depth)%Z.
Proof.
  apply (proj1 (depth_bound Canned.fetcher CannedRun.root CannedRun.depth
                  in_range_4 CannedRun.schedule CannedRun.final main_run_schedule)).
  apply (bool_decide_unpack _). vm_compute. exact I.
Defined.


Lemma traversal_terminates_canned :
  length CannedRun.schedule
  + measure Canned.fetcher CannedRun.root CannedRun.depth CannedRun.final
  <= 2 + cost Canned.fetcher (Z.to_nat CannedRun.depth) CannedRun.root.
Proof.
  apply (proj1 (traversal_terminates Canned.fetcher CannedRun.root CannedRun.depth
                  in_range_4 CannedRun.schedule CannedRun.final main_run_schedule)).
Defined.

(* ================================================================== *)
(** * The visit authority *)

Section Authority.

Implicit Types (m : gmap string bool) (reqs : list string) (bs : list bool).

Lemma examine_all_cons m u reqs :
  examine_all m (u :: reqs)
  = (negb (emap_get m u) :: (examine_all (<[ u := true ]> m) reqs).1,
     (examine_all (<[ u := true ]> m) reqs).2).
Proof. simpl. by destruct (examine_all _ reqs). Qed.

Lemma examine_all_snoc m reqs u :
  examine_all m (reqs ++ [u])
  = ((examine_all m reqs).1 ++ [negb (emap_get (examine_all m reqs).2 u)],
     <[ u := true ]> (examine_all m reqs).2).
Proof.
  revert m. induction reqs as [|u0 reqs IH]; intros m; [done|].
  rewrite <- app_comm_cons, !examine_all_cons. simpl. by rewrite IH.
Qed.

Lemma examine_all_length m reqs : length (examine_all m reqs).1 = length reqs.
Proof.
  revert m. induction reqs as [|u0 reqs IH]; intros m; [done|].
  rewrite examine_all_cons. simpl. by rewrite IH.
Qed.

Lemma examine_all_answer m reqs n u :
  reqs !! n = Some u ->
  (examine_all m reqs).1 !! n
  = Some (negb (emap_get m u) && bool_decide (u ∉ take n reqs)).
Proof.
  revert m n. induction reqs as [|u0 reqs IH]; intros m [|n] Hn; simpl in Hn; simplify_eq.
  - rewrite examine_all_cons. simpl. f_equal. by rewrite andb_true_r.
  - rewrite examine_all_cons. simpl. rewrite (IH _ _ Hn), emap_get_insert.
    f_equal. case_decide as E.
    + subst. simpl. symmetry. rewrite bool_decide_eq_false_2; [by rewrite andb_false_r|].
      intros Hnot. apply Hnot. by left.
    + f_equal. apply bool_decide_ext. rewrite not_elem_of_cons. intuition congruence.
Qed.

Lemma examine_all_map m reqs u :
  (examine_all m reqs).2 !! u = if bool_decide (u ∈ reqs) then Some true else m !! u.
Proof.
  revert m. induction reqs as [|u0 reqs IH]; intros m.
  - done.
  - rewrite examine_all_cons. simpl. rewrite IH.
    destruct (decide (u0 = u)) as [->|Hne].
    + rewrite lookup_insert_eq, (bool_decide_eq_true_2 (u ∈ u :: reqs)) by by left.
      by case_bool_decide.
    + rewrite lookup_insert_ne by done. apply (f_equal (fun (b : bool) => if b then _ else _)).
      apply bool_decide_ext. rewrite elem_of_cons. intuition congruence.
Qed.

Lemma examine_all_once m reqs u :
  count (is_true_for u) (zip reqs (examine_all m reqs).1)
  = if bool_decide (u ∈ reqs) then Nat.b2n (negb (emap_get m u)) else 0.
Proof.
  revert m. induction reqs as [|u0 reqs IH]; intros m.
  - done.
  - rewrite examine_all_cons. simpl. rewrite count_cons, IH, emap_get_insert.
    unfold is_true_for. simpl.
    destruct (decide (u0 = u)) as [->|Hne].
    + rewrite (bool_decide_eq_true_2 (u = u)) by done.
      rewrite (bool_decide_eq_true_2 (u ∈ u :: reqs)) by by left.
      simpl.
      destruct (bool_decide (u ∈ reqs)); simpl; lia.
    + rewrite (bool_decide_eq_false_2 (u0 = u)) by done.
      simpl.
      apply (f_equal (fun (b : bool) => if b then _ else _)).
      apply bool_decide_ext. rewrite elem_of_cons. intuition congruence.
Qed.

Context {F : Type} `{Fetcher F}.
Variable fetcher : F.
Variable root : string.
Variable budget : Z.

Local Abbreviation run := (run fetcher root budget).
Local Abbreviation Step := (Step fetcher root budget).

Lemma claims_of_cons e tr :
  claims_of (e :: tr)
  = claims_of tr ++ match claim_of e with Some ub => [ub] | None => [] end.
Proof.
  unfold claims_of. simpl. destruct (claim_of e); simpl.
  - by rewrite reverse_cons.
  - by rewrite app_nil_r.
Qed.

(** The examiner serves the requests as [examine_all] does. *)
Lemma served_step s a s' :
  examine_all ∅ (claims_of (trace s)).*1 = ((claims_of (trace s)).*2, emap s) ->
  Step s a s' ->
  examine_all ∅ (claims_of (trace s')).*1 = ((claims_of (trace s')).*2, emap s').
Proof.
  intros HI Hst. step_cases Hst; simpl in *; try done;
    try (destruct Hloc; simpl); rewrite ?claims_of_cons; simpl;
    rewrite ?app_nil_r; try done.
  rewrite !fmap_app. simpl. rewrite examine_all_snoc, HI. done.
Qed.

Lemma run_served sched : forall s s',
  examine_all ∅ (claims_of (trace s)).*1 = ((claims_of (trace s)).*2, emap s) ->
  run s sched = Some s' ->
  examine_all ∅ (claims_of (trace s')).*1 = ((claims_of (trace s')).*2, emap s').
Proof.
  induction sched as [|a sched IH]; simpl; intros s s' HI Hrun; [by simplify_eq|].
  destruct (step fetcher root budget s a) as [s1|] eqn:Hs; [|done].
  eapply IH; [|done]. eapply served_step; [done|]. by apply step_Step.
Qed.

(** The two steps of the examiner for the request it holds: lines 92-93,
    then the send of line 94. *)
Lemma examiner_serves s v :
  wf root budget s -> examiner s = AtUpdate v ->
  exists c s1 s2,
    crawls s !! Goahead v = Some c /\ pc c = AtAnswer /\ url c = Url v /\
    step fetcher root budget s Examiner = Some s1 /\
    s1 = mkState (crawls s) (examine_one (emap s) (Url v)).2
                 (AtReply v (examine_one (emap s) (Url v)).1) (main s)
                 (Claimed (Goahead v) (Url v) (examine_one (emap s) (Url v)).1
                    :: trace s) /\
    step fetcher root budget s1 Examiner = Some s2 /\
    s2 = mkState (<[ Goahead v := at_pc c (AtTests (examine_one (emap s) (Url v)).1) ]>
                    (crawls s))
                 (<[ Url v := true ]> (emap s)) AtReceive (main s)
                 (Claimed (Goahead v) (Url v) (examine_one (emap s) (Url v)).1
                    :: trace s).
Proof.
  intros Hwf Hex. pose proof (wf_examiner _ _ _ Hwf) as HE.
  unfold inv_examiner in HE. rewrite Hex in HE. destruct HE as (c & Hc & Hpc & Hu).
  assert (main s <> Returned) as Hmn.
  { intros Hret. pose proof (all_finished _ _ _ Hwf Hret _ _ Hc). congruence. }
  exists c. eexists. eexists. split_and!; [done|done|done| |reflexivity| |reflexivity].
  - destruct s as [cs em ex mn tr]. simpl in *. subst ex.
    unfold step, step_examiner. simpl. by destruct mn.
  - destruct s as [cs em ex mn tr]. simpl in *. subst ex.
    unfold step, step_examiner. simpl. rewrite Hc, Hpc. by destruct mn.
Qed.

(** The request of a call that stands at line 38 is received as soon as
    the examiner stands at line 91. *)
Lemma request_received s i c :
  wf root budget s -> crawls s !! i = Some c -> pc c = AtAsk ->
  examiner s = AtReceive ->
  step fetcher root budget s (Crawl i)
  = Some (mkState (<[ i := at_pc c AtAnswer ]> (crawls s)) (emap s)
                  (AtUpdate (mkExamine i (url c))) (main s) (trace s)).
Proof.
  intros Hwf Hc Hpc Hex.
  assert (main s <> Returned) as Hmn.
  { intros Hret. pose proof (all_finished _ _ _ Hwf Hret _ _ Hc). congruence. }
  destruct s as [cs em ex mn tr]. simpl in *. subst ex.
  unfold step, step_crawl. simpl. rewrite Hc. simpl. rewrite Hpc. by destruct mn.
Qed.

(** C2.  The examiner answers a request for an address with [true] when
    no earlier request carried that address and with [false] otherwise, so
    that it answers [true] exactly once for each address requested; the
    address is in [emap] from then on; there is an answer for every
    request.  In every run, the answers sent and [emap] are those of this
    loop on the requests received: the answer to a request is [true]
    exactly when no earlier request of the run carried its address, and
    the address is in [emap].  The goroutine serves every request: a
    request sent while the examiner stands at line 91 is received; the
    request that the examiner holds is looked up in [emap], its address is
    inserted and the answer is sent to the call that waits for it, in the
    next two steps of the examiner, which can always be taken; and when
    [main] returns, which every run can be carried on to, every call has
    its answer. *)
Theorem claim_exactly_once :
  (forall reqs,
     length (examine_all ∅ reqs).1 = length reqs /\
     (forall n u, reqs !! n = Some u ->
        (examine_all ∅ reqs).1 !! n = Some (bool_decide (u ∉ take n reqs))) /\
     (forall u, (examine_all ∅ reqs).2 !! u
                = if bool_decide (u ∈ reqs) then Some true else None) /\
     (forall u, count (is_true_for u) (zip reqs (examine_all ∅ reqs).1)
                = if bool_decide (u ∈ reqs) then 1 else 0)) /\
  (forall emap url,
     examine_one emap url = (negb (emap_get emap url), <[ url := true ]> emap) /\
     (examine_one emap url).2 !! url = Some true) /\
  (forall sched s,
     run init sched = Some s ->
     examine_all ∅ (claims_of (trace s)).*1 = ((claims_of (trace s)).*2, emap s)) /\
  (forall sched s n u b,
     run init sched = Some s -> claims_of (trace s) !! n = Some (u, b) ->
     b = bool_decide (u ∉ take n (claims_of (trace s)).*1) /\
     emap s !! u = Some true) /\
  (forall sched s i c,
     GoInt.in_range budget -> run init sched = Some s ->
     crawls s !! i = Some c -> pc c = AtAsk -> examiner s = AtReceive ->
     step fetcher root budget s (Crawl i)
     = Some (mkState (<[ i := at_pc c AtAnswer ]> (crawls s)) (emap s)
                     (AtUpdate (mkExamine i (url c))) (main s) (trace s))) /\
  (forall sched s v,
     GoInt.in_range budget -> run init sched = Some s -> examiner s = AtUpdate v ->
     exists c s1 s2,
       crawls s !! Goahead v = Some c /\ pc c = AtAnswer /\ url c = Url v /\
       step fetcher root budget s Examiner = Some s1 /\
       s1 = mkState (crawls s) (examine_one (emap s) (Url v)).2
                    (AtReply v (examine_one (emap s) (Url v)).1) (main s)
                    (Claimed (Goahead v) (Url v) (examine_one (emap s) (Url v)).1
                       :: trace s) /\
       step fetcher root budget s1 Examiner = Some s2 /\
       s2 = mkState (<[ Goahead v
                        := at_pc c (AtTests (examine_one (emap s) (Url v)).1) ]>
                       (crawls s))
                    (<[ Url v := true ]> (emap s)) AtReceive (main s)
                    (Claimed (Goahead v) (Url v) (examine_one (emap s) (Url v)).1
                       :: trace s)) /\
  (forall sched s,
     GoInt.in_range budget -> run init sched = Some s ->
     (exists sched' s', run s sched' = Some s' /\ main s' = Returned) /\
     (main s = Returned ->
        forall i c, crawls s !! i = Some c ->
          exists b, Claimed i (url c) b ∈ trace s)).
Proof.
  assert (forall sched s, run init sched = Some s ->
            examine_all ∅ (claims_of (trace s)).*1
            = ((claims_of (trace s)).*2, emap s)) as Hserved.
  { intros sched s Hrun. by apply (run_served sched init s). }
  split_and!.
  - intros reqs. split_and!.
    + apply examine_all_length.
    + intros n u Hn. by rewrite (examine_all_answer _ _ _ _ Hn).
    + intros u. by rewrite examine_all_map, lookup_empty.
    + intros u. by rewrite examine_all_once.
  - intros em u. split; [done|]. simpl. by rewrite lookup_insert_eq.
  - done.
  - intros sched s n u b Hrun Hn. pose proof (Hserved _ _ Hrun) as HI.
    assert ((claims_of (trace s)).*1 !! n = Some u) as Hu
        by by rewrite list_lookup_fmap, Hn.
    assert ((claims_of (trace s)).*2 !! n = Some b) as Hb
        by by rewrite list_lookup_fmap, Hn.
    split.
    + pose proof (examine_all_answer ∅ _ _ _ Hu) as HA.
      rewrite HI in HA. simpl in HA. rewrite Hb in HA. by simplify_eq.
    + pose proof (examine_all_map ∅ (claims_of (trace s)).*1 u) as HM.
      rewrite HI in HM. simpl in HM. rewrite HM, bool_decide_eq_true_2; [done|].
      by eapply list_elem_of_lookup_2.
  - intros sched s i c Hb Hrun Hc Hpc Hex.
    apply request_received; try done.
    by apply (good_wf fetcher root budget), (run_good _ _ _ Hb sched).
  - intros sched s v Hb Hrun Hex.
    apply examiner_serves; [|done].
    by apply (good_wf fetcher root budget), (run_good _ _ _ Hb sched).
  - intros sched s Hb Hrun. pose proof (run_good _ _ _ Hb _ _ Hrun) as Hg.
    pose proof (good_wf _ _ _ _ Hg) as Hwf. split.
    + by apply (can_return fetcher root budget Hb
                  (measure fetcher root budget s) s).
    + intros Hret i c Hc.
      destruct (good_claims _ _ _ _ Hg) as (_ & H2 & _ & H4).
      specialize (H4 _ _ Hc). unfold claim_status in H4.
      rewrite (all_finished _ _ _ Hwf Hret _ _ Hc) in H4.
      destruct H4 as [[Hin _]|[[[Hin _] _]|Hf]]; eauto.
      destruct (H2 _ _ Hf) as [Hin _]. eauto.
Qed.

End Authority.

Lemma run_first_request :
  CannedRun.main_run FirstRequest.prefix = Some FirstRequest.after.
Proof. vm_compute. reflexivity. Qed.

Lemma claim_exactly_once_canned :
  examine_all ∅ (claims_of (trace CannedRun.final)).*1
  = ((claims_of (trace CannedRun.final)).*2, emap CannedRun.final) /\
  exists s2,
    run Canned.fetcher CannedRun.root CannedRun.depth FirstRequest.after
        [Examiner; Examiner] = Some s2 /\
    crawls s2 = [mkCrawl Canned.golang 4 ChMain (AtTests true)] /\
    emap s2 = <[ Canned.golang := true ]> ∅ /\ examiner s2 = AtReceive.
Proof.
  destruct (claim_exactly_once Canned.fetcher CannedRun.root CannedRun.depth)
    as (_ & _ & W3 & _ & _ & W6 & _).
  split.
  - apply (W3 CannedRun.schedule CannedRun.final). vm_compute. reflexivity.
  - destruct (W6 FirstRequest.prefix FirstRequest.after (mkExamine 0 Canned.golang)
                in_range_4 run_first_request eq_refl)
      as (c & s1 & s2 & Hc & _ & _ & H1 & _ & H2 & E2).
    exists s2. split.
    + cbn [run]. rewrite H1. by rewrite H2.
    + assert (c = mkCrawl Canned.golang 4 ChMain AtAnswer) as ->.
      { vm_compute in Hc. by injection Hc as <-. }
      rewrite E2. by vm_compute.
Defined.

(* ================================================================== *)
(** * The canned fetcher *)

(** C10.  [fakeFetcher.Fetch] returns the body and the links stored for
    [url], with a nil error, when [url] is a key of the map, and otherwise
    an empty body, no links and the error "not found: " followed by
    [url]; its error is nil exactly for the keys of the map. *)
Theorem fakeFetcher_Fetch_spec (f : fakeFetcher) (url : string) :
  Fetch f url = fakeFetcher_Fetch f url /\
  match f !! url with
  | Some res => fakeFetcher_Fetch f url = (body res, urls res, None)
  | None => fakeFetcher_Fetch f url = (""%string, [], Some (Errorf_not_found url))
  end /\
  Errorf_not_found url = errorString ("not found: " +:+ url) /\
  ((fakeFetcher_Fetch f url).2 = None <-> url ∈ dom f) /\
  ((exists res, f !! url = Some res /\
                fakeFetcher_Fetch f url = (body res, urls res, None))
   <-> url ∈ dom f).
Proof.
  split; [reflexivity|]. unfold fakeFetcher_Fetch.
  rewrite elem_of_dom. destruct (f !! url) as [res|] eqn:E; simpl.
  - split_and!; [done|done|by split; eauto|].
    split; [by eauto|]. intros _. by exists res.
  - split_and!; [done|done|by split; [|intros [? ?]]|].
    split; [by intros (? & ? & _)|by intros [? ?]].
Qed.

Lemma fakeFetcher_Fetch_canned :
  Fetch Canned.fetcher Canned.pkg_fmt
  = ("Package fmt"%string, [Canned.golang; Canned.pkg], None) /\
  Fetch Canned.fetcher Canned.cmd
  = (""%string, [], Some (errorString "not found: http://golang.org/cmd/")).
Proof.
  split.
  - exact (proj1 (proj2 (fakeFetcher_Fetch_spec Canned.fetcher Canned.pkg_fmt))).
  - exact (proj1 (proj2 (fakeFetcher_Fetch_spec Canned.fetcher Canned.cmd))).
Defined.

(* ================================================================== *)
(** * The completed traversal *)

Section Completed.

Context {F : Type} `{Fetcher F}.
Variable fetcher : F.
Variable root : string.
Variable budget : Z.

Local Abbreviation good := (good fetcher root budget).
Local Abbreviation links_of := (links_of fetcher).

Lemma kids_elem (cs : list crawl) i v :
  v ∈ kids i cs -> exists k ck, cs !! k = Some ck /\ ch ck = ChSub i /\ url ck = v.
Proof.
  induction cs as [|x cs IH]; simpl; [by intros ? %elem_of_nil|].
  destruct (child_of i x) eqn:Hx.
  - intros [->|Hin]%elem_of_cons.
    + exists 0, x. by apply bool_decide_eq_true in Hx.
    + destruct (IH Hin) as (k & ck & ? & ? & ?). by exists (S k), ck.
  - intros Hin. destruct (IH Hin) as (k & ck & ? & ? & ?). by exists (S k), ck.
Qed.

Lemma root_crawl s c0 :
  good s -> crawls s !! 0 = Some c0 ->
  url c0 = root /\ depth c0 = budget /\ ch c0 = ChMain.
Proof.
  intros Hg Hc0. pose proof (wf_main _ _ _ (good_wf _ _ _ _ Hg)) as HM.
  unfold inv_main in HM. destruct (main s).
  - destruct HM as (Hcs & _). by rewrite Hcs in Hc0.
  - destruct HM as (Hcs & _). rewrite Hcs in Hc0. by simplify_eq/=.
  - destruct HM as (_ & c & Hc & ? & ? & ? & _). by simplify_eq.
  - destruct HM as (_ & c & Hc & ? & ? & ? & _). by simplify_eq.
Qed.

Lemma parent_fetched s j c :
  good s -> crawls s !! j = Some c -> j <> 0 ->
  exists p cp, p < j /\ crawls s !! p = Some cp /\
               Fetching p (url cp) ∈ trace s /\ url c ∈ links_of (url cp) /\
               depth c = (depth cp - 1)%Z.
Proof.
  intros Hg Hc Hj. pose proof (wf_parent _ _ _ (good_wf _ _ _ _ Hg) _ _ Hc) as Hp.
  destruct (ch c) as [|p] eqn:Hch; [done|].
  destruct (good_ancestry _ _ _ _ Hg _ _ _ Hc Hch) as (cp & Hcp & Hf & Hl & _ & Hd).
  by exists p, cp.
Qed.

Lemma root_fetched s j c :
  good s -> crawls s !! j = Some c -> j <> 0 -> Fetching 0 root ∈ trace s.
Proof.
  intros Hg. revert c. induction j as [j IH] using lt_wf_ind. intros c Hc Hj.
  destruct (parent_fetched s j c Hg Hc Hj) as (p & cp & Hlt & Hcp & Hf & _).
  destruct (decide (p = 0)) as [->|Hp]; [|by eapply IH].
  by destruct (root_crawl s cp Hg Hcp) as (<- & _).
Qed.

Lemma owner_exists s j c :
  good s -> crawls s !! j = Some c -> pc c = Finished ->
  exists i ci, crawls s !! i = Some ci /\ url ci = url c /\
               Claimed i (url c) true ∈ trace s.
Proof.
  intros Hg Hc Hfin. destruct (good_claims _ _ _ _ Hg) as (H1 & H2 & _ & H4).
  specialize (H4 _ _ Hc). unfold claim_status in H4. rewrite Hfin in H4.
  assert (exists b, Claimed j (url c) b ∈ trace s) as [b Hb].
  { destruct H4 as [[? _]|[[[? _] _]|Hf]]; eauto. destruct (H2 _ _ Hf); eauto. }
  destruct (claimed_granted _ _ _ _ _ _ _ Hg Hb) as [i Hi].
  destruct (H1 _ _ _ Hi) as (_ & ci & Hci & Hu). by exists i, ci.
Qed.

Lemma owner_fetched s i c :
  good s -> crawls s !! i = Some c -> pc c = Finished ->
  Claimed i (url c) true ∈ trace s -> (0 < depth c)%Z ->
  Fetching i (url c) ∈ trace s.
Proof.
  intros Hg Hc Hfin Hcl Hd. destruct (good_claims _ _ _ _ Hg) as (_ & _ & _ & H4).
  specialize (H4 _ _ Hc). unfold claim_status in H4. rewrite Hfin in H4.
  destruct H4 as [[_ Hb]|[[_ ?]|Hf]]; [|lia|done].
  by specialize (Hb _ _ Hcl).
Qed.

Lemma fetched_kids s i c v :
  good s -> crawls s !! i = Some c -> pc c = Finished ->
  Fetching i (url c) ∈ trace s -> v ∈ links_of (url c) ->
  exists k ck, crawls s !! k = Some ck /\ url ck = v.
Proof.
  intros Hg Hc Hfin Hf Hv. pose proof (good_kids _ _ _ _ Hg _ _ Hc) as HK.
  unfold kids_status in HK. rewrite Hfin in HK. rewrite <- (HK Hf) in Hv.
  destruct (kids_elem _ _ _ Hv) as (k & ck & ? & _ & ?). by exists k, ck.
Qed.

(** When [main] has returned, an address for which there is a call, and
    whose grant went to a call with some depth left, has been fetched. *)
Lemma visited s k ck :
  good s -> main s = Returned -> crawls s !! k = Some ck ->
  (forall i ci, crawls s !! i = Some ci -> url ci = url ck ->
     Claimed i (url ck) true ∈ trace s -> (0 < depth ci)%Z) ->
  exists i ci, crawls s !! i = Some ci /\ url ci = url ck /\ pc ci = Finished /\
               Fetching i (url ck) ∈ trace s.
Proof.
  intros Hg Hret Hk Hdepth.
  pose proof (all_finished _ _ _ (good_wf _ _ _ _ Hg) Hret) as Hall.
  destruct (owner_exists s k ck Hg Hk (Hall _ _ Hk)) as (i & ci & Hci & Hu & Hcl).
  exists i, ci. split_and!; [done|done|by eapply Hall|].
  rewrite <- Hu. apply owner_fetched; try done; [by eapply Hall|by rewrite Hu|].
  by eapply Hdepth.
Qed.

Lemma one_of (l : list string) u :
  NoDup l -> u ∈ l ->
  sum_list_with (fun v => Nat.b2n (bool_decide (u = v))) l = 1.
Proof.
  induction 1 as [|x l Hx Hnd IH]; [by intros ? %elem_of_nil|]. simpl.
  intros [->|Hin]%elem_of_cons.
  - rewrite bool_decide_eq_true_2 by done. simpl. f_equal.
    clear IH Hnd. induction l as [|y l IHl]; [done|]. simpl.
    apply not_elem_of_cons in Hx as [? ?].
    rewrite bool_decide_eq_false_2 by done. by apply IHl.
  - rewrite bool_decide_eq_false_2, IH; [done..|]. by intros ->.
Qed.

Lemma sum_list_with_add {A} (f g : A -> nat) (l : list A) :
  sum_list_with (fun x => f x + g x) l = sum_list_with f l + sum_list_with g l.
Proof. induction l as [|x l IH]; simpl; lia. Qed.

Lemma sum_list_with_zero {A} (l : list A) : sum_list_with (fun _ => 0) l = 0.
Proof. induction l as [|x l IH]; simpl; lia. Qed.

Lemma all_fetches_sum (l : list string) tr :
  NoDup l -> (forall i u, Fetching i u ∈ tr -> u ∈ l) ->
  all_fetches tr = sum_list_with (fun u => fetches u tr) l.
Proof.
  intros Hnd. induction tr as [|e tr IH]; intros Hin.
  - unfold all_fetches, fetches, count. simpl. by rewrite sum_list_with_zero.
  - unfold all_fetches in *. rewrite count_cons, IH
      by (intros i u ?; apply (Hin i); by right).
    change (sum_list_with (fun u => fetches u (e :: tr)) l)
      with (sum_list_with (fun u => Nat.b2n (is_fetch u e) + fetches u tr) l).
    rewrite (sum_list_with_add (fun u => Nat.b2n (is_fetch u e))
               (fun u => fetches u tr) l).
    f_equal. destruct e as [|j w| | |]; simpl; rewrite ?sum_list_with_zero; try done.
    symmetry. apply one_of; [done|]. apply (Hin j). by left.
Qed.

End Completed.

(* ================================================================== *)
(** * The canned traversal *)

Section CannedTraversal.

Local Abbreviation A := Canned.golang.
Local Abbreviation B := Canned.pkg.
Local Abbreviation C := Canned.cmd.
Local Abbreviation D := Canned.pkg_fmt.
Local Abbreviation E := Canned.pkg_os.

Local Abbreviation good := (good Canned.fetcher CannedRun.root CannedRun.depth).
Local Abbreviation links_of := (links_of Canned.fetcher).

Lemma canned_linked w v :
  v ∈ links_of w ->
  (w = A /\ (v = B \/ v = C)) \/
  (w = B /\ (v = A \/ v = C \/ v = D \/ v = E)) \/
  (w = D /\ (v = A \/ v = B)) \/
  (w = E /\ (v = A \/ v = B)).
Proof.
  unfold links_of, Fetch, fakeFetcher_Fetcher, fakeFetcher_Fetch.
  destruct (Canned.fetcher !! w) as [r|] eqn:Hw; simpl;
    [|by intros ? %elem_of_nil].
  unfold Canned.fetcher in Hw.
  repeat (apply lookup_insert_Some in Hw; destruct Hw as [[<- <-]|[? Hw]]);
    try (by rewrite lookup_empty in Hw);
  simpl; rewrite ?elem_of_cons, ?elem_of_nil; intuition auto.
Qed.

(** Two of the five addresses are equal only when they are the same. *)
Ltac distinct :=
  unfold Canned.golang, Canned.pkg, Canned.cmd, Canned.pkg_fmt, Canned.pkg_os in *;
  congruence.

Lemma five_distinct : NoDup [A; B; C; D; E].
Proof. apply (bool_decide_unpack _). by vm_compute. Qed.

Lemma canned_root_crawl s c0 :
  good s -> crawls s !! 0 = Some c0 -> url c0 = A /\ depth c0 = 4%Z.
Proof. intros Hg Hc0. by destruct (root_crawl _ _ _ s c0 Hg Hc0) as (? & ? & _). Qed.

(** The grant of the root address goes to the root call. *)
Lemma owner_A s i :
  good s -> Claimed i A true ∈ trace s -> i = 0.
Proof.
  intros Hg Hcl. destruct (decide (i = 0)) as [|Hne]; [done|].
  destruct (good_claims _ _ _ _ Hg) as (H1 & H2 & _).
  destruct (H1 _ _ _ Hcl) as (_ & c & Hc & _).
  pose proof (root_fetched _ _ _ s i c Hg Hc Hne) as Hf.
  destruct (H2 _ _ Hf) as [Hcl0 _].
  eapply grant_unique; [by destruct Hg|done..].
Qed.

Lemma fetcher_A s p cp :
  good s -> crawls s !! p = Some cp -> Fetching p A ∈ trace s -> depth cp = 4%Z.
Proof.
  intros Hg Hcp Hf. destruct (good_claims _ _ _ _ Hg) as (_ & H2 & _).
  destruct (H2 _ _ Hf) as [Hcl _]. pose proof (owner_A s p Hg Hcl). subst p.
  by destruct (canned_root_crawl s cp Hg Hcp).
Qed.

(** A call for an address other than the root has a parent. *)
Lemma canned_parent s j c :
  good s -> crawls s !! j = Some c -> url c <> A ->
  exists p cp, p < j /\ crawls s !! p = Some cp /\
               Fetching p (url cp) ∈ trace s /\ url c ∈ links_of (url cp) /\
               depth c = (depth cp - 1)%Z.
Proof.
  intros Hg Hc Hu.
  apply (parent_fetched Canned.fetcher CannedRun.root CannedRun.depth); [done..|].
  intros ->.
  destruct (canned_root_crawl s c Hg Hc). distinct.
Qed.

Lemma owner_B s i c :
  good s -> crawls s !! i = Some c -> url c = B ->
  Claimed i B true ∈ trace s -> depth c = 3%Z.
Proof.
  intros Hg Hc Hu Hcl.
  destruct (canned_parent s i c Hg Hc) as (p & cp & Hlt & Hcp & Hf & Hl & Hd);
    [distinct|].
  rewrite Hu in Hl.
  assert (url cp = D \/ url cp = E -> False) as Hno.
  { intros Hde.
    destruct (canned_parent s p cp Hg Hcp) as (q & cq & Hlt' & Hcq & Hfq & Hlq & _);
      [destruct Hde; distinct|].
    assert (url cq = B) as Hq.
    { destruct (canned_linked _ _ Hlq) as [[_ [?|?]]|[[? _]|[[_ [?|?]]|[_ [?|?]]]]];
        destruct Hde; distinct. }
    rewrite Hq in Hfq. destruct (good_claims _ _ _ _ Hg) as (_ & H2 & _).
    destruct (H2 _ _ Hfq) as [Hclq _].
    assert (q = i) by (eapply grant_unique; [by destruct Hg|done..]). lia. }
  destruct (canned_linked _ _ Hl) as [[Hw _]|[[_ [?|[?|[?|?]]]]|[[Hw _]|[Hw _]]]];
    try distinct; try (exfalso; apply Hno; by auto).
  rewrite Hw in Hf. rewrite (fetcher_A s p cp Hg Hcp Hf) in Hd. lia.
Qed.

Lemma fetcher_B s p cp :
  good s -> crawls s !! p = Some cp -> Fetching p B ∈ trace s -> depth cp = 3%Z.
Proof.
  intros Hg Hcp Hf. destruct (good_claims _ _ _ _ Hg) as (_ & H2 & _).
  destruct (H2 _ _ Hf) as (Hcl & c & Hc & Hu & _).
  assert (c = cp) as -> by congruence. by eapply owner_B.
Qed.

(** The depth left to a call for [C], [D] or [E]. *)
Lemma depth_CDE s i c :
  good s -> crawls s !! i = Some c -> url c = C \/ url c = D \/ url c = E ->
  (0 < depth c)%Z.
Proof.
  intros Hg Hc Hu.
  destruct (canned_parent s i c Hg Hc) as (p & cp & Hlt & Hcp & Hf & Hl & Hd);
    [destruct Hu as [?|[?|?]]; distinct|].
  destruct (canned_linked _ _ Hl) as [[Hw _]|[[Hw _]|[[_ [?|?]]|[_ [?|?]]]]];
    try (destruct Hu as [?|[?|?]]; distinct).
  - rewrite Hw in Hf. rewrite (fetcher_A s p cp Hg Hcp Hf) in Hd. lia.
  - rewrite Hw in Hf. rewrite (fetcher_B s p cp Hg Hcp Hf) in Hd. lia.
Qed.

Lemma canned_urls s i c :
  good s -> crawls s !! i = Some c -> url c ∈ [A; B; C; D; E].
Proof.
  intros Hg Hc. destruct (decide (url c = A)) as [->|Hne]; [by left|].
  destruct (canned_parent s i c Hg Hc Hne) as (p & cp & _ & _ & _ & Hl & _).
  rewrite !elem_of_cons.
  destruct (canned_linked _ _ Hl) as [[_ ?]|[[_ ?]|[[_ ?]|[_ ?]]]]; tauto.
Qed.

(** When [main] has returned, each of the five addresses has been
    fetched. *)
Lemma canned_visited s k ck :
  good s -> main s = Returned -> crawls s !! k = Some ck ->
  exists i ci, crawls s !! i = Some ci /\ url ci = url ck /\ pc ci = Finished /\
               Fetching i (url ck) ∈ trace s.
Proof.
  intros Hg Hret Hk.
  apply (visited Canned.fetcher CannedRun.root CannedRun.depth s k ck Hg Hret Hk).
  intros i ci Hci Hu Hcl.
  pose proof (canned_urls s k ck Hg Hk) as Hin. rewrite !elem_of_cons in Hin.
  destruct Hin as [HA|[HB|[HC|[HD|[HE|[] %elem_of_nil]]]]].
  - rewrite HA in Hcl. pose proof (owner_A s i Hg Hcl). subst i.
    destruct (canned_root_crawl s ci Hg Hci) as [_ ->]. lia.
  - rewrite HB in *. rewrite (owner_B s i ci Hg Hci Hu Hcl). lia.
  - apply (depth_CDE s i ci Hg Hci). left. congruence.
  - apply (depth_CDE s i ci Hg Hci). right; left. congruence.
  - apply (depth_CDE s i ci Hg Hci). right; right. congruence.
Qed.

Lemma canned_all_visited s :
  good s -> main s = Returned ->
  forall u, u ∈ [A; B; C; D; E] -> exists i, Fetching i u ∈ trace s.
Proof.
  intros Hg Hret.
  pose proof (wf_main _ _ _ (good_wf _ _ _ _ Hg)) as HM. unfold inv_main in HM.
  rewrite Hret in HM. destruct HM as (_ & c0 & Hc0 & Hu0 & _).
  change CannedRun.root with A in Hu0.
  destruct (canned_visited s 0 c0 Hg Hret Hc0) as (ia & ca & Hca & Hua & Hfa & Hia).
  rewrite Hu0 in *.
  assert (forall v, v ∈ links_of A -> exists i ci,
            crawls s !! i = Some ci /\ url ci = v /\ pc ci = Finished /\
            Fetching i v ∈ trace s) as Hfrom_A.
  { intros v Hv. destruct (fetched_kids _ _ _ s ia ca v Hg Hca Hfa) as (k & ck & Hk & <-);
      [by rewrite Hua..|].
    destruct (canned_visited s k ck Hg Hret Hk) as (i & ci & ?); by exists i, ci. }
  destruct (Hfrom_A B) as (ib & cb & Hcb & Hub & Hfb & Hib);
    [by apply (bool_decide_unpack _); vm_compute|].
  destruct (Hfrom_A C) as (ic & cc & Hcc & Huc & Hfc & Hic);
    [by apply (bool_decide_unpack _); vm_compute|].
  assert (forall v, v ∈ links_of B -> exists i, Fetching i v ∈ trace s) as Hfrom_B.
  { intros v Hv. destruct (fetched_kids _ _ _ s ib cb v Hg Hcb Hfb) as (k & ck & Hk & <-);
      [by rewrite Hub..|].
    destruct (canned_visited s k ck Hg Hret Hk) as (i & ci & _ & _ & _ & ?).
    by exists i. }
  intros u Hu. rewrite !elem_of_cons in Hu.
  destruct Hu as [->|[->|[->|[->|[->|[] %elem_of_nil]]]]]; eauto.
  - apply Hfrom_B. by apply (bool_decide_unpack _); vm_compute.
  - apply Hfrom_B. by apply (bool_decide_unpack _); vm_compute.
Qed.

(** C9.  On the canned data, from the root with depth 4, in every
    interleaving: [Fetch] is never called twice for an address, and only
    the root call fetches the root address; when [main] returns, [Fetch]
    has been called exactly once for each of the five addresses, five
    calls in all (the call for [cmd], which is not a key of the map,
    returns the error); the run has at most 214 steps and can always be
    carried on to the return of [main]. *)
Theorem canned_five_fetches sched s :
  CannedRun.main_run sched = Some s ->
  Fetch Canned.fetcher C = (""%string, [], Some (Errorf_not_found C)) /\
  (forall u, fetches u (trace s) <= 1) /\
  (forall i, Fetching i A ∈ trace s -> i = 0) /\
  (main s = Returned ->
     fetches A (trace s) = 1 /\ fetches B (trace s) = 1 /\
     fetches C (trace s) = 1 /\ fetches D (trace s) = 1 /\
     fetches E (trace s) = 1 /\ all_fetches (trace s) = 5) /\
  length sched <= 214 /\
  (exists sched' s', run Canned.fetcher CannedRun.root CannedRun.depth s sched'
                     = Some s' /\ main s' = Returned).
Proof.
  intros Hrun. unfold CannedRun.main_run in Hrun.
  pose proof (run_good _ _ _ in_range_4 _ _ Hrun) as Hg.
  assert (forall u, fetches u (trace s) <= 1) as Hle.
  { intros u. pose proof (grants_le_1 s u (good_emap _ _ _ _ Hg)).
    pose proof (fetches_le_grants s u (good_once _ _ _ _ Hg)). lia. }
  split_and!.
  - reflexivity.
  - done.
  - intros i Hf. destruct (good_claims _ _ _ _ Hg) as (_ & H2 & _).
    destruct (H2 _ _ Hf) as [Hcl _]. by eapply owner_A.
  - intros Hret. pose proof (canned_all_visited s Hg Hret) as Hall.
    assert (forall u, u ∈ [A; B; C; D; E] -> fetches u (trace s) = 1) as Hone.
    { intros u Hu. destruct (Hall u Hu) as [i Hi]. by eapply fetched_once. }
    rewrite (all_fetches_sum [A; B; C; D; E] (trace s) five_distinct).
    + simpl. rewrite !Hone; [done|rewrite !elem_of_cons; auto 10..].
    + intros i u Hf. destruct (good_claims _ _ _ _ Hg) as (_ & H2 & _).
      destruct (H2 _ _ Hf) as (_ & c & Hc & <- & _). by eapply canned_urls.
  - pose proof (run_bounded _ _ _ in_range_4 sched init s (wf_init _ _) Hrun) as Hb.
    assert (measure Canned.fetcher CannedRun.root CannedRun.depth init = 214) as Hm
        by (vm_compute; reflexivity).
    lia.
  - apply (can_return _ _ _ in_range_4
             (measure Canned.fetcher CannedRun.root CannedRun.depth s) s);
      [by destruct Hg|done].
Qed.

End CannedTraversal.

Lemma canned_five_fetches_canned :
  fetches Canned.golang (trace CannedRun.final) = 1 /\
  fetches Canned.pkg (trace CannedRun.final) = 1 /\
  fetches Canned.cmd (trace CannedRun.final) = 1 /\
  fetches Canned.pkg_fmt (trace CannedRun.final) = 1 /\
  fetches Canned.pkg_os (trace CannedRun.final) = 1 /\
  all_fetches (trace CannedRun.final) = 5.
Proof.
  destruct (canned_five_fetches CannedRun.schedule CannedRun.final main_run_schedule)
    as (_ & _ & _ & W & _).
  apply W. vm_compute. reflexivity.
Defined.

Section Output.

Context {F : Type} `{Fetcher F}.
Variable fetcher : F.
Variable root : string.
Variable budget : Z.

Local Abbreviation run := (run fetcher root budget).
Local Abbreviation Step := (Step fetcher root budget).
Local Abbreviation inv_output := (inv_output fetcher).

Lemma output_silent e tr :
  is_print e = false -> is_any_fetch e = false ->
  inv_output tr -> inv_output (e :: tr).
Proof.
  intros Hp Hf (H1 & H2 & H3 & H4 & H5). unfold inv_output.
  unfold prints, all_fetches, founds, fetches in *. split_and!.
  - rewrite !count_cons, Hp, Hf. simpl. done.
  - intros u. rewrite !count_cons, H2.
    assert (is_found u e = false) as -> by by destruct e.
    assert (is_fetch u e = false) as -> by by destruct e.
    simpl. by destruct (Fetch fetcher u) as [[? ?] [?|]].
  - intros u b [Heq|Hin]%elem_of_cons; [by subst e|].
    destruct (H3 _ _ Hin) as (i & l & ? & ?). exists i, l. split; [by right|done].
  - intros e' [Heq|Hin]%elem_of_cons; [by subst e|].
    destruct (H4 _ Hin) as (i & u & b & l & ? & ?). exists i, u, b, l. split; [by right|done].
  - intros i u [Heq|Hin]%elem_of_cons; [by subst e|].
    specialize (H5 _ _ Hin). destruct (Fetch fetcher u) as [[? ?] [?|]]; by right.
Qed.

Lemma output_step s a s' : inv_output (trace s) -> Step s a s' -> inv_output (trace s').
Proof.
  intros HI Hst. step_cases Hst; simpl in *; try done.
  - by apply output_silent.
  - destruct Hloc as [Hq|Hq ?|Hq Hd|b links err Hq Hf|b links Hq Hf|? Hq|Hq]; simpl; try done.
    + destruct HI as (H1 & H2 & H3 & H4 & H5). unfold inv_output.
      unfold prints, all_fetches, founds, fetches in *. split_and!.
      * rewrite !count_cons. simpl. lia.
      * intros u. rewrite !count_cons, H2. simpl.
        case_bool_decide as E; simpl; [subst u; by rewrite Hf|].
        by destruct (Fetch fetcher u) as [[? ?] [?|]].
      * intros u b' Hin. mem.
        destruct (H3 _ _ Hin) as (j & l & ? & ?). exists j, l.
        split; [right; by right|done].
      * intros e' Hin. mem.
        -- exists i, (url c), b, links. split; [right; by left|done].
        -- destruct (H4 _ Hin) as (j & u & b' & l & ? & ?). exists j, u, b', l.
           split; [right; by right|done].
      * intros j u Hin. mem.
        -- rewrite Hf. by left.
        -- specialize (H5 _ _ Hin).
           destruct (Fetch fetcher u) as [[? ?] [?|]]; right; by right.
    + destruct HI as (H1 & H2 & H3 & H4 & H5). unfold inv_output.
      unfold prints, all_fetches, founds, fetches in *. split_and!.
      * rewrite !count_cons. simpl. lia.
      * intros u. rewrite !count_cons, H2. simpl.
        case_bool_decide as E; simpl; [subst u; by rewrite Hf|].
        by destruct (Fetch fetcher u) as [[? ?] [?|]].
      * intros u b' Hin. mem.
        -- exists i, links. split; [right; by left|done].
        -- destruct (H3 _ _ Hin) as (j & l & ? & ?). exists j, l.
           split; [right; by right|done].
      * intros e' Hin. mem.
        destruct (H4 _ Hin) as (j & u & b' & l & ? & ?). exists j, u, b', l.
        split; [right; by right|done].
      * intros j u Hin. mem.
        -- rewrite Hf. by left.
        -- specialize (H5 _ _ Hin).
           destruct (Fetch fetcher u) as [[? ?] [?|]]; right; by right.
  - by apply output_silent.
  - by apply output_silent.
Qed.

Lemma output_init : inv_output [].
Proof.
  unfold inv_output. split_and!; try done.
  - intros u. by destruct (Fetch fetcher u) as [[? ?] [?|]].
  - by intros ? ? ? %elem_of_nil.
  - by intros ? ? %elem_of_nil.
  - by intros ? ? ? %elem_of_nil.
Qed.

Lemma run_output sched : forall s s',
  inv_output (trace s) -> run s sched = Some s' -> inv_output (trace s').
Proof.
  induction sched as [|a sched IH]; simpl; intros s s' HI Hrun; [by simplify_eq|].
  destruct (step fetcher root budget s a) as [s1|] eqn:Hs; [|done].
  eapply IH; [|done]. eapply output_step; [done|]. by apply step_Step.
Qed.

End Output.

Section Answers.

Context {F : Type} `{Fetcher F}.
Variable fetcher : F.
Variable root : string.
Variable budget : Z.

Local Abbreviation run := (run fetcher root budget).
Local Abbreviation Step := (Step fetcher root budget).

Lemma answers_cons i e tr :
  answers i (e :: tr) = Nat.b2n (is_answer_to i e) + answers i tr.
Proof. apply count_cons. Qed.

Lemma answers_due_snoc ex cs x i :
  pc x = AtAsk -> answers_due ex (cs ++ [x]) i = answers_due ex cs i.
Proof.
  intros Hx. unfold answers_due.
  destruct (decide (i < length cs)) as [Hlt|Hge].
  - by rewrite lookup_app_l.
  - rewrite (lookup_ge_None_2 cs) by lia.
    destruct ((cs ++ [x]) !! i) as [c|] eqn:Hc; [|done].
    apply lookup_snoc_Some in Hc as [[? _]|[_ <-]]; [lia|]. by rewrite Hx.
Qed.

Lemma answers_due_insert_ne ex cs i j x :
  i <> j -> answers_due ex (<[ j := x ]> cs) i = answers_due ex cs i.
Proof. intros Hne. unfold answers_due. by rewrite list_lookup_insert_ne. Qed.

Lemma answers_due_insert_eq ex cs i c x :
  cs !! i = Some c ->
  answers_due ex (<[ i := x ]> cs) i
  = match pc x with AtAsk => 0 | AtAnswer => reply_in_flight ex | _ => 1 end.
Proof.
  intros Hc. unfold answers_due.
  rewrite list_lookup_insert_eq; [done|by eapply lookup_lt_Some].
Qed.

(** The reply in flight matters to the goroutine at line 39 only. *)
Lemma answers_due_ex ex ex' cs i :
  (forall c, cs !! i = Some c -> pc c <> AtAnswer) ->
  answers_due ex cs i = answers_due ex' cs i.
Proof.
  intros Hno. unfold answers_due. destruct (cs !! i) as [c|] eqn:Hc; [|done].
  specialize (Hno c eq_refl). by destruct (pc c).
Qed.

Lemma answers_step s a s' :
  inv_answers s -> wf root budget s -> Step s a s' -> inv_answers s'.
Proof.
  intros HI Hwf Hst k. specialize (HI k). unfold inv_answers.
  pose proof (wf_examiner _ _ _ Hwf) as HE. pose proof (wf_answer _ _ _ Hwf) as HA.
  pose proof (wf_main _ _ _ Hwf) as HM. clear Hwf.
  unfold inv_examiner, inv_answer, inv_main in *.
  step_cases Hst; simpl in *.
  - by rewrite answers_due_snoc.
  - destruct HM as (_ & -> & _). by rewrite HI.
  - destruct HE as (c & Hc & Hpc & Hu). rewrite answers_cons, HI. simpl.
    case_bool_decide as E; simpl.
    + subst k. unfold answers_due. by rewrite Hc, Hpc.
    + apply answers_due_ex. intros c' Hc' Hpc'. by apply E, (HA _ _ Hc' Hpc').
  - rewrite HI. destruct (decide (k = Goahead v)) as [->|Hne].
    + rewrite (answers_due_insert_eq _ _ _ _ _ Hc). simpl.
      unfold answers_due. by rewrite Hc, Hpc.
    + rewrite answers_due_insert_ne by done.
      apply answers_due_ex. intros c' Hc' Hpc'. by apply Hne, eq_sym, (HA _ _ Hc' Hpc').
  - rewrite HI. destruct (decide (k = i)) as [->|Hne].
    + rewrite (answers_due_insert_eq _ _ _ _ _ Hc). simpl.
      unfold answers_due. by rewrite Hc, Hpc.
    + rewrite answers_due_insert_ne by done.
      apply answers_due_ex. intros c' Hc' Hpc'. by apply (HA _ _ Hc' Hpc').
  - assert (answers k (evs ++ tr) = answers k tr) as ->.
    { destruct Hloc; simpl; by rewrite ?answers_cons. }
    rewrite HI. destruct (decide (k = i)) as [->|Hne].
    + rewrite (answers_due_insert_eq _ _ _ _ _ Hc). simpl.
      unfold answers_due. rewrite Hc.
      destruct Hloc as [Hq|Hq ?|Hq Hd|? ? ? Hq Hf|? ? Hq Hf|? Hq|Hq]; by rewrite Hq.
    + by rewrite answers_due_insert_ne.
  - rewrite HI, answers_due_snoc by done. destruct (decide (k = i)) as [->|Hne].
    + rewrite (answers_due_insert_eq _ _ _ _ _ Hc). simpl.
      unfold answers_due. by rewrite Hc, Hpc.
    + by rewrite answers_due_insert_ne.
  - rewrite answers_cons, HI. simpl. destruct (decide (k = i)) as [->|Hne].
    + rewrite (answers_due_insert_eq _ _ _ _ _ Hc). simpl.
      unfold answers_due. by rewrite Hc, Hpc.
    + by rewrite answers_due_insert_ne.
  - rewrite answers_cons, HI. simpl.
    assert (i <> p) as Hip by (intros ->; congruence).
    assert (<[ i := at_pc c Finished ]> cs !! p = Some parent) as Hpar'
        by by rewrite list_lookup_insert_ne.
    destruct (decide (k = p)) as [->|Hnp].
    + rewrite (answers_due_insert_eq _ _ _ _ _ Hpar'). simpl.
      unfold answers_due. by rewrite Hpar, Hppc.
    + rewrite answers_due_insert_ne by done. destruct (decide (k = i)) as [->|Hne].
      * rewrite (answers_due_insert_eq _ _ _ _ _ Hc). simpl.
        unfold answers_due. by rewrite Hc, Hpc.
      * by rewrite answers_due_insert_ne.
Qed.

Lemma has_answer_insert (cs : list crawl) i c p :
  cs !! i = Some c ->
  count has_answer (<[ i := at_pc c p ]> cs) + Nat.b2n (has_answer c)
  = count has_answer cs + Nat.b2n (has_answer (at_pc c p)).
Proof. apply count_insert. Qed.

Lemma served_total_step s a s' :
  inv_served s -> wf root budget s -> Step s a s' -> inv_served s'.
Proof.
  intros HI Hwf Hst. unfold inv_served in *.
  pose proof (wf_main _ _ _ Hwf) as HM. unfold inv_main in HM. clear Hwf.
  step_cases Hst; simpl in *.
  - rewrite count_snoc. unfold has_answer at 2. simpl. lia.
  - destruct HM as (_ & -> & _). simpl in *. lia.
  - rewrite count_cons. simpl. lia.
  - pose proof (has_answer_insert _ _ _ (AtTests b) Hc) as E.
    unfold has_answer at 2 4 in E. rewrite Hpc in E. simpl in E. lia.
  - pose proof (has_answer_insert _ _ _ AtAnswer Hc) as E.
    unfold has_answer at 2 4 in E. rewrite Hpc in E. simpl in E. lia.
  - pose proof (has_answer_insert _ _ _ p Hc) as E.
    unfold has_answer at 2 4 in E.
    destruct Hloc as [Hq|Hq ?|Hq Hd|? ? ? Hq Hf|? ? Hq Hf|? Hq|Hq];
      rewrite Hq in E; simpl in *; rewrite ?count_cons; simpl; lia.
  - rewrite count_snoc. unfold has_answer at 2. simpl.
    pose proof (has_answer_insert _ _ _ (AtSpawn todo links) Hc) as E.
    unfold has_answer at 2 4 in E. rewrite Hpc in E. simpl in E. lia.
  - rewrite count_cons. simpl.
    pose proof (has_answer_insert _ _ _ Finished Hc) as E.
    unfold has_answer at 2 4 in E. rewrite Hpc in E. simpl in E. lia.
  - rewrite count_cons. simpl.
    assert (i <> p) as Hip by (intros ->; congruence).
    assert (<[ i := at_pc c Finished ]> cs !! p = Some parent) as Hpar'
        by by rewrite list_lookup_insert_ne.
    pose proof (has_answer_insert _ _ _ (AtJoin todo) Hpar') as E1.
    pose proof (has_answer_insert _ _ _ Finished Hc) as E2.
    unfold has_answer at 2 4 in E1. unfold has_answer at 2 4 in E2.
    rewrite Hppc in E1. rewrite Hpc in E2. simpl in *. lia.
Qed.

Lemma size_step s a s' :
  inv_size s -> inv_emap s -> Step s a s' -> inv_size s'.
Proof.
  intros HI [HT _] Hst. unfold inv_size in *.
  step_cases Hst; simpl in *; rewrite ?count_cons; simpl; try done.
  - unfold emap_get.
    destruct (em !! Url v) as [b|] eqn:E; simpl.
    + rewrite (HT _ _ E). simpl. rewrite <- HI.
      apply (f_equal size), map_eq. intros w.
      destruct (decide (w = Url v)) as [->|Hne];
        [rewrite lookup_insert_eq, E; f_equal; by rewrite (HT _ _ E)
        |by rewrite lookup_insert_ne].
    + rewrite map_size_insert_None by done. lia.
  - destruct Hloc; simpl; by rewrite ?count_cons.
Qed.

End Answers.

(* ================================================================== *)
(** * The output, the requests and the calls *)

Section Accounting.

Context {F : Type} `{Fetcher F}.
Variable fetcher : F.
Variable root : string.
Variable budget : Z.
Hypothesis budget_in_range : GoInt.in_range budget.

Local Abbreviation run := (run fetcher root budget).
Local Abbreviation Reach := (Reach fetcher root budget).
Local Abbreviation good := (good fetcher root budget).
Local Abbreviation inv_output := (inv_output fetcher).

Lemma Reach_counted s :
  Reach s -> inv_answers s /\ inv_served s /\ inv_size s /\ inv_output (trace s).
Proof.
  induction 1 as [|s a s' Hr (IH1 & IH2 & IH3 & IH4) Hst].
  - split_and!; [by intros i|done|done|apply output_init].
  - pose proof (Reach_wf _ _ _ budget_in_range _ Hr) as Hwf.
    destruct (Reach_claims _ _ _ budget_in_range _ Hr) as (Hem & _ & _).
    split_and!.
    + by eapply answers_step.
    + by eapply served_total_step.
    + by eapply size_step.
    + by eapply output_step.
Qed.

Lemma run_counted sched s :
  run init sched = Some s ->
  inv_answers s /\ inv_served s /\ inv_size s /\ inv_output (trace s).
Proof. intros Hrun. apply Reach_counted. eapply run_Reach; [constructor|done]. Qed.

Lemma answers_due_le_1 ex cs i : answers_due ex cs i <= 1.
Proof.
  unfold answers_due. destruct (cs !! i) as [c|]; [|lia].
  destruct (pc c), ex; simpl; lia.
Qed.

(** Two answers to a goroutine are the same answer. *)
Lemma answer_unique s i u b u' b' :
  inv_answers s -> Claimed i u b ∈ trace s -> Claimed i u' b' ∈ trace s ->
  u = u' /\ b = b'.
Proof.
  intros HA [n Hn]%list_elem_of_lookup [m Hm]%list_elem_of_lookup.
  destruct (decide (n = m)) as [->|Hnm]; [split; congruence|].
  pose proof (count_two (is_answer_to i) _ _ _ _ _ Hn Hm Hnm) as H2.
  simpl in H2. rewrite bool_decide_eq_true_2 in H2 by done.
  specialize (H2 eq_refl eq_refl). specialize (HA i).
  pose proof (answers_due_le_1 (examiner s) (crawls s) i).
  unfold answers in *. lia.
Qed.

Lemma count_le_length {A} (f : A -> bool) (l : list A) : count f l <= length l.
Proof.
  induction l as [|x l IH]; [done|]. rewrite count_cons. simpl.
  destruct (f x); simpl; lia.
Qed.

Lemma count_lt_length {A} (f : A -> bool) (l : list A) i x :
  l !! i = Some x -> f x = false -> count f l < length l.
Proof.
  revert i. induction l as [|y l IH]; intros [|i] Hi Hx; simplify_eq/=;
    rewrite count_cons.
  - rewrite Hx. simpl. pose proof (count_le_length f l). lia.
  - specialize (IH _ Hi Hx). destruct (f y); simpl; lia.
Qed.

Lemma count_all_true {A} (f : A -> bool) (l : list A) :
  (forall i x, l !! i = Some x -> f x = true) -> count f l = length l.
Proof.
  induction l as [|y l IH]; intros Hall; [done|]. rewrite count_cons. simpl.
  rewrite (Hall 0 y eq_refl), IH; [done|]. intros i x Hi. by apply (Hall (S i)).
Qed.

Lemma claims_of_length tr : length (claims_of tr) = count is_answer tr.
Proof.
  unfold claims_of. rewrite length_reverse.
  induction tr as [|e tr IH]; [done|]. rewrite count_cons, <- IH.
  by destruct e.
Qed.

Lemma any_grant_le_answer tr : count is_any_grant tr <= count is_answer tr.
Proof. apply count_le. intros [? ? [|]| | | |]; simpl; lia. Qed.

Lemma idle_at_return s :
  wf root budget s -> main s = Returned -> examiner s = AtReceive.
Proof.
  intros Hwf Hret. pose proof (wf_examiner _ _ _ Hwf) as HE.
  pose proof (wf_main _ _ _ Hwf) as HM. unfold inv_examiner, inv_main in *.
  rewrite Hret in HM. destruct HM as [Hns _].
  destruct (examiner s) as [| |v|v b]; try done;
    destruct HE as (c & Hc & Hpc & _);
    by rewrite (all_finished _ _ _ Hwf Hret _ _ Hc) in Hpc.
Qed.

Lemma emap_mono_step s a s' :
  inv_emap s -> Step fetcher root budget s a s' -> emap s ⊆ emap s'.
Proof.
  intros [HT _] Hst. step_cases Hst; simpl in *; try done.
  destruct (em !! Url v) as [b|] eqn:E.
  - rewrite insert_id; [done|]. by rewrite E, (HT _ _ E).
  - by apply insert_subseteq.
Qed.

Lemma run_emap_mono sched : forall s s',
  Reach s -> run s sched = Some s' -> emap s ⊆ emap s'.
Proof.
  induction sched as [|a sched IH]; simpl; intros s s' Hr Hrun; [by simplify_eq|].
  destruct (step fetcher root budget s a) as [s1|] eqn:Hs; [|done].
  apply step_Step in Hs.
  destruct (Reach_claims _ _ _ budget_in_range _ Hr) as (Hem & _ & _).
  etrans; [by eapply emap_mono_step|]. apply IH; [|done]. by econstructor.
Qed.

Lemma sum_list_with_le_length {A} (f : A -> nat) (l : list A) :
  (forall x, f x <= 1) -> sum_list_with f l <= length l.
Proof.
  intros Hf. induction l as [|x l IH]; simpl; [done|]. specialize (Hf x). lia.
Qed.

Lemma fetched_in_emap s i u :
  good s -> Fetching i u ∈ trace s -> emap s !! u = Some true.
Proof.
  intros Hg Hf. destruct (good_claims _ _ _ _ Hg) as (H1 & H2 & _).
  destruct (H2 _ _ Hf) as [Hcl _]. destruct (H1 _ _ _ Hcl) as [Hem _].
  by apply emap_get_true.
Qed.

Lemma all_fetches_le_size s : good s -> all_fetches (trace s) <= size (emap s).
Proof.
  intros Hg.
  rewrite (all_fetches_sum (elements (dom (emap s))) (trace s)).
  - etrans; [apply sum_list_with_le_length|].
    + intros u. pose proof (grants_le_1 s u (good_emap _ _ _ _ Hg)).
      pose proof (fetches_le_grants s u (good_once _ _ _ _ Hg)). lia.
    + by rewrite <- size_dom.
  - apply NoDup_elements.
  - intros i u Hf. apply elem_of_elements, elem_of_dom.
    rewrite (fetched_in_emap s i u Hg Hf). by eexists.
Qed.

(** X1.  A line is printed only for a call of [Fetch] that has been
    made: "found" with the address and the body returned by a call that
    succeeded, the error returned by a call that failed; there are never
    more lines than calls, and a "found" line is printed at most once for
    an address.  When [main] returns every call of [Fetch] has printed
    its line: there are as many lines as calls, "found" with the body for
    each call that succeeded and the error for each call that failed. *)
Theorem one_line_per_fetch sched s :
  run init sched = Some s ->
  prints (trace s) <= all_fetches (trace s) /\
  (forall u b, Printf_found u b ∈ trace s ->
     exists i links, Fetching i u ∈ trace s /\ Fetch fetcher u = (b, links, None)) /\
  (forall e, Println e ∈ trace s ->
     exists i u b links,
       Fetching i u ∈ trace s /\ Fetch fetcher u = (b, links, Some e)) /\
  (forall u, founds u (trace s) <= 1) /\
  (main s = Returned ->
     prints (trace s) = all_fetches (trace s) /\
     (forall i u b links,
        Fetching i u ∈ trace s -> Fetch fetcher u = (b, links, None) ->
        Printf_found u b ∈ trace s) /\
     (forall i u b links e,
        Fetching i u ∈ trace s -> Fetch fetcher u = (b, links, Some e) ->
        Println e ∈ trace s)).
Proof.
  intros Hrun. pose proof (run_good _ _ _ budget_in_range _ _ Hrun) as Hg.
  destruct (run_counted _ _ Hrun) as (_ & _ & _ & (H1 & H2 & H3 & H4 & H5)).
  split_and!; [lia|done|done| |].
  - intros u. rewrite H2.
    pose proof (grants_le_1 s u (good_emap _ _ _ _ Hg)).
    pose proof (fetches_le_grants s u (good_once _ _ _ _ Hg)).
    destruct (Fetch fetcher u) as [[? ?] [?|]]; lia.
  - intros _. split_and!; [done| |].
    + intros i u b links Hf Hu. specialize (H5 _ _ Hf). by rewrite Hu in H5.
    + intros i u b links e Hf Hu. specialize (H5 _ _ Hf). by rewrite Hu in H5.
Qed.

(** X2.  The examiner serves one request at a time: at most one call of
    [Crawl] waits at line 39 for its answer, the request that the examiner
    holds is the request of that call, and when [main] returns no request
    is held: the examiner is at the receive of line 91. *)
Theorem one_request_at_a_time sched s :
  run init sched = Some s ->
  (forall i j ci cj,
     crawls s !! i = Some ci -> pc ci = AtAnswer ->
     crawls s !! j = Some cj -> pc cj = AtAnswer -> i = j) /\
  (forall i c, crawls s !! i = Some c -> pc c = AtAnswer ->
     examiner s = AtUpdate (mkExamine i (url c)) \/
     exists b, examiner s = AtReply (mkExamine i (url c)) b) /\
  (forall v, examiner s = AtUpdate v \/ (exists b, examiner s = AtReply v b) ->
     exists c, crawls s !! Goahead v = Some c /\ pc c = AtAnswer /\ url c = Url v) /\
  (main s = Returned -> examiner s = AtReceive).
Proof.
  intros Hrun. pose proof (run_good _ _ _ budget_in_range _ _ Hrun) as Hg.
  pose proof (good_wf _ _ _ _ Hg) as Hwf.
  pose proof (wf_examiner _ _ _ Hwf) as HE. pose proof (wf_answer _ _ _ Hwf) as HA.
  unfold inv_examiner, inv_answer in *. split_and!.
  - intros i j ci cj Hi Hpi Hj Hpj.
    specialize (HA _ _ Hi Hpi) as Hvi. specialize (HA _ _ Hj Hpj) as Hvj.
    destruct (examiner s); try done; congruence.
  - intros i c Hc Hpc. specialize (HA _ _ Hc Hpc).
    destruct (examiner s) as [| |[g u]|[g u] b]; try done; simpl in *; subst g;
      destruct HE as (c' & Hc' & _ & Hu); assert (c' = c) as -> by congruence;
      rewrite Hu; eauto.
  - intros v [Hv|[b Hv]]; by rewrite Hv in HE.
  - by apply idle_at_return.
Qed.

(** X3.  Every call of [Crawl] is answered once: a goroutine is sent at
    most one answer, none before it has sent its request and one once it
    has gone past line 39, for its own address; there are never more
    answers than calls, and when [main] returns there are as many. *)
Theorem one_answer_per_call sched s :
  run init sched = Some s ->
  (forall i, answers i (trace s) <= 1) /\
  (forall i u b u' b',
     Claimed i u b ∈ trace s -> Claimed i u' b' ∈ trace s -> u = u' /\ b = b') /\
  (forall i u b, Claimed i u b ∈ trace s ->
     exists c, crawls s !! i = Some c /\ url c = u) /\
  (forall i c, crawls s !! i = Some c ->
     match pc c with
     | AtAsk => answers i (trace s) = 0
     | AtAnswer => True
     | _ => answers i (trace s) = 1
     end) /\
  length (claims_of (trace s)) <= length (crawls s) /\
  (main s = Returned -> length (claims_of (trace s)) = length (crawls s)).
Proof.
  intros Hrun. pose proof (run_good _ _ _ budget_in_range _ _ Hrun) as Hg.
  pose proof (good_wf _ _ _ _ Hg) as Hwf.
  destruct (run_counted _ _ Hrun) as (HA & HS & _ & _). split_and!.
  - intros i. rewrite (HA i). apply answers_due_le_1.
  - intros i u b u' b'. by apply answer_unique.
  - intros i u b Hin. destruct (good_claims _ _ _ _ Hg) as (H1 & _).
    by destruct (H1 _ _ _ Hin).
  - intros i c Hc. rewrite (HA i). unfold answers_due. rewrite Hc. by destruct (pc c).
  - rewrite claims_of_length, HS.
    pose proof (wf_examiner _ _ _ Hwf) as HE. unfold inv_examiner in HE.
    destruct (examiner s) as [| |v|v b]; simpl;
      try (pose proof (count_le_length has_answer (crawls s)); lia).
    destruct HE as (c & Hc & Hpc & _).
    assert (has_answer c = false) as Hno by (unfold has_answer; by rewrite Hpc).
    pose proof (count_lt_length has_answer _ _ _ Hc Hno). lia.
  - intros Hret. rewrite claims_of_length, HS, (idle_at_return s Hwf Hret). simpl.
    rewrite count_all_true; [lia|]. intros i c Hc. unfold has_answer.
    by rewrite (all_finished _ _ _ Hwf Hret _ _ Hc).
Qed.

(** X4.  There are never more calls of [Fetch] than addresses in [emap],
    nor more addresses in [emap] than calls of [Crawl]; the addresses in
    [emap] are as many as the answers [true]; [emap] holds no value but
    [true], and an address that is in [emap] stays in it for the rest of
    the run. *)
Theorem fetches_addresses_calls sched s :
  run init sched = Some s ->
  all_fetches (trace s) <= size (emap s) /\
  size (emap s) = count is_any_grant (trace s) /\
  size (emap s) <= length (crawls s) /\
  (forall u b, emap s !! u = Some b -> b = true) /\
  (forall sched' s', run s sched' = Some s' -> emap s ⊆ emap s').
Proof.
  intros Hrun. pose proof (run_good _ _ _ budget_in_range _ _ Hrun) as Hg.
  pose proof (good_wf _ _ _ _ Hg) as Hwf.
  destruct (run_counted _ _ Hrun) as (_ & HS & HZ & _). split_and!.
  - by apply all_fetches_le_size.
  - done.
  - rewrite HZ. etrans; [apply any_grant_le_answer|]. rewrite HS.
    pose proof (wf_examiner _ _ _ Hwf) as HE. unfold inv_examiner in HE.
    destruct (examiner s) as [| |v|v b]; simpl;
      try (pose proof (count_le_length has_answer (crawls s)); lia).
    destruct HE as (c & Hc & Hpc & _).
    assert (has_answer c = false) as Hno by (unfold has_answer; by rewrite Hpc).
    pose proof (count_lt_length has_answer _ _ _ Hc Hno). lia.
  - by destruct (good_emap _ _ _ _ Hg).
  - intros sched' s' Hrun'. apply (run_emap_mono sched'); [|done].
    eapply run_Reach; [constructor|done].
Qed.

End Accounting.

(* ================================================================== *)
(** * The addresses claimed and the calls spawned *)

Section Frontier.

Context {F : Type} `{Fetcher F}.
Variable fetcher : F.
Variable root : string.
Variable budget : Z.
Hypothesis budget_in_range : GoInt.in_range budget.

Local Abbreviation run := (run fetcher root budget).
Local Abbreviation Step := (Step fetcher root budget).
Local Abbreviation Reach := (Reach fetcher root budget).
Local Abbreviation good := (good fetcher root budget).
Local Abbreviation links_of := (links_of fetcher).
Local Abbreviation hops := (hops fetcher root).
Local Abbreviation links_found := (links_found fetcher).
Local Abbreviation inv_calls := (inv_calls fetcher).

(** The grant of the root address goes to the root call. *)
Lemma root_owner s i : good s -> Claimed i root true ∈ trace s -> i = 0.
Proof.
  intros Hg Hcl. destruct (decide (i = 0)) as [|Hne]; [done|].
  destruct (good_claims _ _ _ _ Hg) as (H1 & H2 & _).
  destruct (H1 _ _ _ Hcl) as (_ & c & Hc & _).
  pose proof (root_fetched _ _ _ s i c Hg Hc Hne) as Hf.
  destruct (H2 _ _ Hf) as [Hcl0 _].
  eapply grant_unique; [by destruct Hg|done..].
Qed.

Lemma granted_call s u :
  good s -> emap s !! u = Some true ->
  exists i c, crawls s !! i = Some c /\ url c = u /\ Claimed i u true ∈ trace s.
Proof.
  intros Hg Hu. destruct (good_emap _ _ _ _ Hg) as [_ HG]. specialize (HG u).
  unfold emap_get in HG. rewrite Hu in HG. simpl in HG.
  destruct (count_exists (is_grant u) (trace s)) as (n & e & Hn & He);
    [unfold grants in HG; lia|].
  destruct e as [j w [|]| | | |]; try done. apply bool_decide_eq_true in He. subst w.
  apply list_elem_of_lookup_2 in Hn.
  destruct (good_claims _ _ _ _ Hg) as (H1 & _).
  destruct (H1 _ _ _ Hn) as (_ & c & Hc & Hw). by exists j, c.
Qed.

Lemma call_claimed s j c :
  good s -> crawls s !! j = Some c -> pc c = Finished -> emap s !! url c = Some true.
Proof.
  intros Hg Hc Hfin.
  destruct (owner_exists _ _ _ s j c Hg Hc Hfin) as (i & ci & _ & _ & Hcl).
  destruct (good_claims _ _ _ _ Hg) as (H1 & _).
  destruct (H1 _ _ _ Hcl) as [Hem _]. by apply emap_get_true.
Qed.

(** X5.  The root call is answered [true], and no other call is
    answered [true] for the root address: only the root call fetches it,
    however often it is found again.  When [main] returns the root address
    has been fetched once if the depth of line 83 is positive, and not at
    all otherwise. *)
Theorem root_fetched_by_root_call sched s :
  run init sched = Some s ->
  (forall i b, Claimed i root b ∈ trace s -> b = bool_decide (i = 0)) /\
  (forall i, Fetching i root ∈ trace s -> i = 0) /\
  (main s = Returned ->
     emap s !! root = Some true /\
     fetches root (trace s) = if bool_decide (0 < budget)%Z then 1 else 0).
Proof.
  intros Hrun. pose proof (run_good _ _ _ budget_in_range _ _ Hrun) as Hg.
  destruct (run_counted _ _ _ budget_in_range _ _ Hrun) as (HA & _).
  assert (forall i b, Claimed i root b ∈ trace s -> b = bool_decide (i = 0)) as Hroot.
  { intros i b Hin. destruct (claimed_granted _ _ _ _ _ _ _ Hg Hin) as [j Hj].
    pose proof (root_owner s j Hg Hj). subst j.
    case_bool_decide as E.
    - subst i. by destruct (answer_unique s 0 _ _ _ _ HA Hin Hj).
    - destruct b; [|done]. by pose proof (root_owner s i Hg Hin). }
  split_and!; [done| |].
  - intros i Hf. destruct (good_claims _ _ _ _ Hg) as (_ & H2 & _).
    destruct (H2 _ _ Hf) as [Hcl _]. by eapply root_owner.
  - intros Hret. pose proof (wf_main _ _ _ (good_wf _ _ _ _ Hg)) as HM.
    unfold inv_main in HM. rewrite Hret in HM.
    destruct HM as (_ & c0 & Hc0 & Hu & Hd & _ & Hfin).
    split; [rewrite <- Hu; by eapply call_claimed|].
    destruct (good_claims _ _ _ _ Hg) as (_ & H2 & _ & H4).
    specialize (H4 _ _ Hc0). unfold claim_status in H4. rewrite Hfin, Hu in H4.
    destruct H4 as [[Hin _]|[[[Hin _] Hle]|Hf]].
    + by apply Hroot in Hin.
    + rewrite bool_decide_eq_false_2 by lia. rewrite <- Hu.
      apply (never_fetched _ _ _ s 0 c0 Hg Hc0); [done|by rewrite Hu].
    + destruct (H2 _ _ Hf) as (_ & c & Hc & _ & Hpos).
      assert (c = c0) as -> by congruence.
      rewrite bool_decide_eq_true_2 by lia. by eapply fetched_once.
Qed.

(** X6.  An address in [emap] was asked for by a call of [Crawl]: it is
    the root address or a link of a page that has been fetched, it is no
    more links away from the root than the depth of line 83 (for a
    spawned call), and the depth of the call that was answered [true] is
    the depth of line 83 less the number of links. *)
Theorem claimed_within_budget sched s u b :
  run init sched = Some s -> emap s !! u = Some b ->
  b = true /\
  (u = root \/ exists i w, Fetching i w ∈ trace s /\ u ∈ links_of w) /\
  exists i c g,
    crawls s !! i = Some c /\ url c = u /\ Claimed i u true ∈ trace s /\
    hops g u /\ depth c = (budget - Z.of_nat g)%Z /\
    (g = 0 \/ (Z.of_nat g <= budget)%Z).
Proof.
  intros Hrun Hu. pose proof (run_good _ _ _ budget_in_range _ _ Hrun) as Hg.
  destruct (good_emap _ _ _ _ Hg) as [HT _]. pose proof (HT _ _ Hu). subst b.
  split; [done|].
  destruct (granted_call s u Hg Hu) as (i & c & Hc & Hw & Hcl). subst u.
  destruct (decide (i = 0)) as [->|Hne].
  - destruct (root_crawl _ _ _ s c Hg Hc) as (Hr & Hd & _).
    split; [by left|].
    exists 0, c, 0. split_and!; try done; [rewrite Hr; constructor|lia|by left].
  - destruct (parent_fetched _ _ _ s i c Hg Hc Hne) as (p & cp & _ & Hcp & Hf & Hl & Hd).
    split; [right; by exists p, (url cp)|].
    destruct (crawl_hops fetcher root budget budget_in_range s
                (good_wf _ _ _ _ Hg) (good_ancestry _ _ _ _ Hg) _ _ Hc)
      as (g & Hh & Hdg).
    destruct (good_claims _ _ _ _ Hg) as (_ & H2 & _).
    destruct (H2 _ _ Hf) as (_ & cp' & Hcp' & _ & Hpos).
    assert (cp' = cp) as -> by congruence.
    exists i, c, g. split_and!; try done. right. lia.
Qed.

(** X7.  When [main] returns, [emap] holds the root address and the
    links of the pages that have been fetched, and nothing else: every
    link found has been asked for. *)
Theorem emap_at_return sched s u :
  run init sched = Some s -> main s = Returned ->
  emap s !! u = Some true <->
  (u = root \/ exists i w, Fetching i w ∈ trace s /\ u ∈ links_of w).
Proof.
  intros Hrun Hret. pose proof (run_good _ _ _ budget_in_range _ _ Hrun) as Hg.
  pose proof (all_finished _ _ _ (good_wf _ _ _ _ Hg) Hret) as Hall.
  split.
  - intros Hu. destruct (granted_call s u Hg Hu) as (i & c & Hc & Hw & Hcl).
    destruct (decide (i = 0)) as [->|Hne].
    + destruct (root_crawl _ _ _ s c Hg Hc) as (Hr & _). left. congruence.
    + destruct (parent_fetched _ _ _ s i c Hg Hc Hne) as (p & cp & _ & _ & Hf & Hl & _).
      right. exists p, (url cp). by rewrite <- Hw.
  - intros [->|(i & w & Hf & Hl)].
    + pose proof (wf_main _ _ _ (good_wf _ _ _ _ Hg)) as HM.
      unfold inv_main in HM. rewrite Hret in HM.
      destruct HM as (_ & c0 & Hc0 & Hu & _). rewrite <- Hu.
      eapply call_claimed; [done..|by eapply Hall].
    + destruct (good_claims _ _ _ _ Hg) as (_ & H2 & _).
      destruct (H2 _ _ Hf) as (_ & c & Hc & Hw & _). subst w.
      destruct (fetched_kids _ _ _ s i c u Hg Hc (Hall _ _ Hc) Hf Hl)
        as (k & ck & Hk & <-).
      eapply call_claimed; [done..|by eapply Hall].
Qed.

Lemma links_found_cons e tr :
  links_found (e :: tr)
  = match e with Fetching _ u => length (links_of u) | _ => 0 end + links_found tr.
Proof. done. Qed.

Lemma to_spawn_insert (cs : list crawl) i c p :
  cs !! i = Some c ->
  sum_list_with to_spawn (<[ i := at_pc c p ]> cs) + to_spawn c
  = sum_list_with to_spawn cs + to_spawn (at_pc c p).
Proof. apply sum_list_with_insert. Qed.

Lemma calls_step s a s' : inv_calls s -> Step s a s' -> inv_calls s'.
Proof.
  intros HI Hst. unfold inv_calls in *.
  step_cases Hst; simpl in *.
  - rewrite length_app, sum_list_with_snoc. simpl. unfold to_spawn at 2. simpl. lia.
  - lia.
  - rewrite links_found_cons. lia.
  - rewrite length_insert.
    pose proof (to_spawn_insert _ _ _ (AtTests b) Hc) as E.
    unfold to_spawn at 2 4 in E. rewrite Hpc in E. simpl in E.
    destruct mn; try done; lia.
  - rewrite length_insert.
    pose proof (to_spawn_insert _ _ _ AtAnswer Hc) as E.
    unfold to_spawn at 2 4 in E. rewrite Hpc in E. simpl in E.
    destruct mn; try done; lia.
  - rewrite length_insert.
    pose proof (to_spawn_insert _ _ _ p Hc) as E.
    unfold to_spawn at 2 4 in E.
    destruct Hloc as [Hq|Hq ?|Hq Hd|b links err Hq Hf|b links Hq Hf|? Hq|Hq];
      rewrite Hq in E; simpl in *; rewrite ?links_found_cons;
      rewrite ?(links_of_found _ _ _ _ Hf), ?(links_of_failed _ _ _ _ _ Hf);
      simpl; destruct mn; try done; lia.
  - rewrite length_app, length_insert, sum_list_with_snoc. simpl.
    unfold to_spawn at 2. simpl.
    pose proof (to_spawn_insert _ _ _ (AtSpawn todo links) Hc) as E.
    unfold to_spawn at 2 4 in E. rewrite Hpc in E. simpl in E.
    destruct mn; try done; lia.
  - rewrite length_insert, links_found_cons.
    pose proof (to_spawn_insert _ _ _ Finished Hc) as E.
    unfold to_spawn at 2 4 in E. rewrite Hpc in E. simpl in E. lia.
  - rewrite !length_insert, links_found_cons.
    assert (i <> p) as Hip by (intros ->; congruence).
    assert (<[ i := at_pc c Finished ]> cs !! p = Some parent) as Hpar'
        by by rewrite list_lookup_insert_ne.
    pose proof (to_spawn_insert _ _ _ (AtJoin todo) Hpar') as E1.
    pose proof (to_spawn_insert _ _ _ Finished Hc) as E2.
    unfold to_spawn at 2 4 in E1. unfold to_spawn at 2 4 in E2.
    rewrite Hppc in E1. rewrite Hpc in E2. simpl in *.
    destruct mn; try done; lia.
Qed.

Lemma run_calls sched : forall s s',
  inv_calls s -> run s sched = Some s' -> inv_calls s'.
Proof.
  induction sched as [|a sched IH]; simpl; intros s s' HI Hrun; [by simplify_eq|].
  destruct (step fetcher root budget s a) as [s1|] eqn:Hs; [|done].
  eapply IH; [|done]. eapply calls_step; [done|]. by apply step_Step.
Qed.

(** X8.  One call of [Crawl] is spawned for each link of each page
    fetched, and none besides the root call: there are never more calls
    than one more than the links found so far, and when [main] returns
    there are exactly as many. *)
Theorem one_call_per_link sched s :
  run init sched = Some s ->
  length (crawls s) <= 1 + links_found (trace s) /\
  (main s = Returned -> length (crawls s) = 1 + links_found (trace s)).
Proof.
  intros Hrun. pose proof (run_good _ _ _ budget_in_range _ _ Hrun) as Hg.
  assert (inv_calls s) as HI by (by apply (run_calls sched init s)).
  unfold inv_calls in HI. split.
  - destruct (main s); lia.
  - intros Hret. rewrite Hret in HI.
    pose proof (all_finished _ _ _ (good_wf _ _ _ _ Hg) Hret) as Hall.
    assert (sum_list_with to_spawn (crawls s) = 0) as Hz; [|lia].
    clear HI. induction (crawls s) as [|c cs IH]; [done|]. simpl.
    rewrite IH by (intros j cj Hj; by apply (Hall (S j))).
    unfold to_spawn. by rewrite (Hall 0 c eq_refl).
Qed.

End Frontier.

Section Winner.

Context {F : Type} `{Fetcher F}.
Variable fetcher : F.
Variable root : string.
Variable budget : Z.
Hypothesis budget_in_range : GoInt.in_range budget.

Local Abbreviation run := (run fetcher root budget).
Local Abbreviation good := (good fetcher root budget).

(** X9.  When [main] returns, whether an address has been fetched is
    decided by the call that was answered [true] for it: the address has
    been fetched once when that call had some depth left, and not at all
    when it had none; every other call for the address was answered
    [false] and has not fetched. *)
Theorem granted_call_decides sched s i c :
  run init sched = Some s -> main s = Returned ->
  crawls s !! i = Some c -> Claimed i (url c) true ∈ trace s ->
  fetches (url c) (trace s) = (if bool_decide (0 < depth c)%Z then 1 else 0) /\
  (forall j cj, crawls s !! j = Some cj -> url cj = url c -> j <> i ->
     Claimed j (url c) false ∈ trace s /\ Fetching j (url c) ∉ trace s).
Proof.
  intros Hrun Hret Hc Hcl. pose proof (run_good _ _ _ budget_in_range _ _ Hrun) as Hg.
  pose proof (all_finished _ _ _ (good_wf _ _ _ _ Hg) Hret) as Hall.
  destruct (good_claims _ _ _ _ Hg) as (_ & H2 & _ & H4).
  split.
  - case_bool_decide as E.
    + apply (fetched_once fetcher root budget s i); [done|].
      apply (owner_fetched fetcher root budget); try done. by eapply Hall.
    + apply (never_fetched fetcher root budget s i c Hg Hc); [lia|done].
  - intros j cj Hj Hu Hne.
    assert (Fetching j (url c) ∉ trace s) as Hnf.
    { intros Hf. destruct (H2 _ _ Hf) as [Hclj _]. apply Hne.
      eapply grant_unique; [by destruct Hg|done..]. }
    split; [|done]. specialize (H4 _ _ Hj). unfold claim_status in H4.
    rewrite (Hall _ _ Hj), Hu in H4.
    destruct H4 as [[Hin _]|[[[Hin _] _]|Hf]]; [done| |done].
    exfalso. apply Hne. eapply grant_unique; [by destruct Hg|done..].
Qed.

End Winner.

(** ** The output of a crawl with the canned fetcher *)

(** X10.  With a [fakeFetcher]: an error that is printed is "not found: "
    followed by an address that has been fetched and is not a key of the
    map; a "found" line carries the body stored for its address, which has
    been fetched; every spawned call is for one of the links stored for
    the address of its parent, which is a key of the map; and when [main]
    returns, there is a "found" line with the stored body for every
    address fetched that is a key, and the error "not found: " with the
    address for every address fetched that is not. *)
Theorem fakeFetcher_crawl_output (f : fakeFetcher) root budget sched s :
  GoInt.in_range budget ->
  run f root budget init sched = Some s ->
  (forall e, Println e ∈ trace s ->
     exists i u, Fetching i u ∈ trace s /\ f !! u = None /\ e = Errorf_not_found u) /\
  (forall u b, Printf_found u b ∈ trace s ->
     exists i res, Fetching i u ∈ trace s /\ f !! u = Some res /\ b = body res) /\
  (forall j c p, crawls s !! j = Some c -> ch c = ChSub p ->
     exists cp res, crawls s !! p = Some cp /\ f !! url cp = Some res /\
                    url c ∈ urls res) /\
  (main s = Returned ->
     forall i u, Fetching i u ∈ trace s ->
       match f !! u with
       | Some res => Printf_found u (body res) ∈ trace s
       | None => Println (Errorf_not_found u) ∈ trace s
       end).
Proof.
  intros Hb Hrun. pose proof (run_good _ _ _ Hb _ _ Hrun) as Hg.
  destruct (run_counted _ _ _ Hb _ _ Hrun) as (_ & _ & _ & (_ & _ & H3 & H4 & H5)).
  split_and!.
  - intros e Hin. destruct (H4 _ Hin) as (i & u & b & l & Hf & Hu).
    exists i, u. split; [done|].
    unfold Fetch, fakeFetcher_Fetcher, fakeFetcher_Fetch in Hu.
    destruct (f !! u) as [res|]; by simplify_eq.
  - intros u b Hin. destruct (H3 _ _ Hin) as (i & l & Hf & Hu).
    unfold Fetch, fakeFetcher_Fetcher, fakeFetcher_Fetch in Hu.
    destruct (f !! u) as [res|] eqn:E; [|done]. exists i, res. by simplify_eq.
  - intros j c p Hc Hch.
    destruct (good_ancestry _ _ _ _ Hg _ _ _ Hc Hch) as (cp & Hcp & _ & Hl & _).
    unfold links_of, Fetch, fakeFetcher_Fetcher, fakeFetcher_Fetch in Hl.
    destruct (f !! url cp) as [res|] eqn:E; [|by apply elem_of_nil in Hl].
    by exists cp, res.
  - intros _ i u Hf. specialize (H5 _ _ Hf).
    unfold Fetch, fakeFetcher_Fetcher, fakeFetcher_Fetch in H5.
    by destruct (f !! u) as [res|].
Qed.

(** ** The interleaving and the pages fetched *)

Lemma run_direct :
  run Race.site Race.top Race.budget init Race.direct = Some Race.after_direct.
Proof. vm_compute. reflexivity. Qed.

Lemma run_detour :
  run Race.site Race.top Race.budget init Race.detour = Some Race.after_detour.
Proof. vm_compute. reflexivity. Qed.

(** X11.  Which pages are fetched depends on the interleaving.  There
    are a fetcher, a root, a depth of 2 and an address one link away from
    the root, well within the depth, such that one run to the return of
    [main] fetches the address and another does not: in the second the
    address is first asked for by a call that has no depth left, spawned
    for a link of another page linked from the root, which is answered
    [true] and returns without fetching. *)
Theorem fetched_pages_depend_on_interleaving :
  exists (f : fakeFetcher) (root : string) (budget : Z)
         (sched1 sched2 : list actor) (s1 s2 : state) (u : string),
    GoInt.in_range budget /\
    u ∈ links_of f root /\ (1 < budget)%Z /\
    run f root budget init sched1 = Some s1 /\ main s1 = Returned /\
    run f root budget init sched2 = Some s2 /\ main s2 = Returned /\
    fetches u (trace s1) = 1 /\
    fetches u (trace s2) = 0 /\
    emap s2 !! u = Some true /\
    (exists i c, crawls s2 !! i = Some c /\ url c = u /\ depth c = 0%Z /\
                 Claimed i u true ∈ trace s2 /\
                 exists p cp, ch c = ChSub p /\ crawls s2 !! p = Some cp /\
                              url cp <> u /\ url cp ∈ links_of f root /\
                              u ∈ links_of f (url cp)) /\
    budget = 2%Z.
Proof.
  exists Race.site, Race.top, Race.budget, Race.direct, Race.detour,
         Race.after_direct, Race.after_detour, Race.right.
  split_and!.
  - by vm_compute.
  - apply (bool_decide_unpack _). by vm_compute.
  - done.
  - apply run_direct.
  - by vm_compute.
  - apply run_detour.
  - by vm_compute.
  - by vm_compute.
  - by vm_compute.
  - by vm_compute.
  - exists 2, (mkCrawl Race.right 0 (ChSub 1) Finished).
    split_and!; [by vm_compute|done|done| |].
    + apply (bool_decide_unpack _). by vm_compute.
    + exists 1, (mkCrawl Race.left 1 (ChSub 0) Finished).
      split_and!; [done|by vm_compute|by vm_compute| |];
        apply (bool_decide_unpack _); by vm_compute.
  - done.
Qed.

Lemma one_line_per_fetch_canned :
  prints (trace CannedRun.final) = all_fetches (trace CannedRun.final) /\
  Println (Errorf_not_found Canned.cmd) ∈ trace CannedRun.final.
Proof.
  assert (main CannedRun.final = Returned) as Hret by (vm_compute; reflexivity).
  assert (Fetching 2 Canned.cmd ∈ trace CannedRun.final) as Hf
    by (apply (bool_decide_unpack _); vm_compute; exact I).
  destruct (one_line_per_fetch Canned.fetcher CannedRun.root CannedRun.depth
              in_range_4 CannedRun.schedule CannedRun.final main_run_schedule)
    as (_ & _ & _ & _ & W).
  destruct (W Hret) as (W1 & _ & W3).
  split; [exact W1|].
  exact (W3 2 Canned.cmd ""%string [] (Errorf_not_found Canned.cmd) Hf eq_refl).
Defined.

Lemma one_request_at_a_time_canned : examiner CannedRun.final = AtReceive.
Proof.
  destruct (one_request_at_a_time Canned.fetcher CannedRun.root CannedRun.depth
              in_range_4 CannedRun.schedule CannedRun.final main_run_schedule)
    as (_ & _ & _ & W).
  apply W. vm_compute. reflexivity.
Defined.

Lemma one_answer_per_call_canned :
  length (claims_of (trace CannedRun.final)) = length (crawls CannedRun.final).
Proof.
  destruct (one_answer_per_call Canned.fetcher CannedRun.root CannedRun.depth
              in_range_4 CannedRun.schedule CannedRun.final main_run_schedule)
    as (_ & _ & _ & _ & _ & W).
  apply W. vm_compute. reflexivity.
Defined.

Lemma fetches_addresses_calls_canned :
  all_fetches (trace CannedRun.final) <= size (emap CannedRun.final) /\
  size (emap CannedRun.final) <= length (crawls CannedRun.final).
Proof.
  destruct (fetches_addresses_calls Canned.fetcher CannedRun.root CannedRun.depth
              in_range_4 CannedRun.schedule CannedRun.final main_run_schedule)
    as (W1 & _ & W2 & _).
  exact (conj W1 W2).
Defined.

Lemma root_fetched_by_root_call_canned :
  emap CannedRun.final !! CannedRun.root = Some true /\
  fetches CannedRun.root (trace CannedRun.final) = 1.
Proof.
  destruct (root_fetched_by_root_call Canned.fetcher CannedRun.root CannedRun.depth
              in_range_4 CannedRun.schedule CannedRun.final main_run_schedule)
    as (_ & _ & W).
  apply W. vm_compute. reflexivity.
Defined.

Lemma claimed_within_budget_canned :
  Canned.pkg_os = CannedRun.root \/
  exists i w, Fetching i w ∈ trace CannedRun.final /\
              Canned.pkg_os ∈ links_of Canned.fetcher w.
Proof.
  assert (emap CannedRun.final !! Canned.pkg_os = Some true) as Hu
    by (vm_compute; reflexivity).
  destruct (claimed_within_budget Canned.fetcher CannedRun.root CannedRun.depth
              in_range_4 CannedRun.schedule CannedRun.final Canned.pkg_os true
              main_run_schedule Hu)
    as (_ & W & _).
  exact W.
Defined.

Lemma emap_at_return_canned :
  emap CannedRun.final !! Canned.cmd = Some true <->
  (Canned.cmd = CannedRun.root \/
   exists i w, Fetching i w ∈ trace CannedRun.final /\
               Canned.cmd ∈ links_of Canned.fetcher w).
Proof.
  apply (emap_at_return Canned.fetcher CannedRun.root CannedRun.depth
           in_range_4 CannedRun.schedule CannedRun.final Canned.cmd
           main_run_schedule).
  vm_compute. reflexivity.
Defined.

Lemma one_call_per_link_canned :
  length (crawls CannedRun.final)
  = 1 + links_found Canned.fetcher (trace CannedRun.final).
Proof.
  destruct (one_call_per_link Canned.fetcher CannedRun.root CannedRun.depth
              in_range_4 CannedRun.schedule CannedRun.final main_run_schedule)
    as (_ & W).
  apply W. vm_compute. reflexivity.
Defined.

Lemma granted_call_decides_canned :
  fetches CannedRun.root (trace CannedRun.final0) = 0.
Proof.
  assert (main CannedRun.final0 = Returned) as Hret by (vm_compute; reflexivity).
  assert (crawls CannedRun.final0 !! 0
          = Some (mkCrawl CannedRun.root 0 ChMain Finished)) as Hc
    by (vm_compute; reflexivity).
  assert (Claimed 0 CannedRun.root true ∈ trace CannedRun.final0) as Hcl
    by (apply (bool_decide_unpack _); vm_compute; exact I).
  destruct (granted_call_decides Canned.fetcher CannedRun.root 0 in_range_0
              CannedRun.schedule0 CannedRun.final0 0 _ run_schedule0 Hret Hc Hcl)
    as (W & _).
  exact W.
Defined.

Lemma fakeFetcher_crawl_output_canned :
  Println (Errorf_not_found Canned.cmd) ∈ trace CannedRun.final /\
  Printf_found Canned.pkg_os "Package os" ∈ trace CannedRun.final.
Proof.
  assert (main CannedRun.final = Returned) as Hret by (vm_compute; reflexivity).
  assert (Fetching 2 Canned.cmd ∈ trace CannedRun.final) as Hcmd
    by (apply (bool_decide_unpack _); vm_compute; exact I).
  assert (Fetching 6 Canned.pkg_os ∈ trace CannedRun.final) as Hos
    by (apply (bool_decide_unpack _); vm_compute; exact I).
  destruct (fakeFetcher_crawl_output Canned.fetcher CannedRun.root CannedRun.depth
              CannedRun.schedule CannedRun.final in_range_4 main_run_schedule)
    as (_ & _ & _ & W).
  split.
  - exact (W Hret 2 Canned.cmd Hcmd).
  - exact (W Hret 6 Canned.pkg_os Hos).
Defined.

(* ================================================================== *)
(** * The order of the events *)

Section Order.

Context {F : Type} `{Fetcher F}.
Variable fetcher : F.
Variable root : string.
Variable budget : Z.
Hypothesis budget_in_range : GoInt.in_range budget.

Local Abbreviation run := (run fetcher root budget).
Local Abbreviation Step := (Step fetcher root budget).
Local Abbreviation Reach := (Reach fetcher root budget).
Local Abbreviation good := (good fetcher root budget).

(** The state in which a call of [Fetch] was made. *)
Lemma fetch_point s :
  Reach s -> forall l1 l2 i u, trace s = l2 ++ Fetching i u :: l1 ->
  exists s0 c,
    Reach s0 /\ trace s0 = l1 /\ crawls s0 !! i = Some c /\ pc c = AtFetch /\
    url c = u.
Proof.
  induction 1 as [|s a s' Hr IH Hst]; intros l1 l2 i0 u0 Htr.
  { by destruct l2. }
  assert (forall e, (forall i u, e <> Fetching i u) -> trace s' = e :: trace s ->
            exists s0 c,
              Reach s0 /\ trace s0 = l1 /\ crawls s0 !! i0 = Some c /\
              pc c = AtFetch /\ url c = u0) as Hsilent.
  { intros e He Htr'. rewrite Htr' in Htr.
    destruct l2 as [|e2 l2]; simpl in Htr.
    - injection Htr as Heq _. by destruct (He i0 u0).
    - injection Htr as -> Htr. by eapply IH. }
  step_cases Hst; simpl in *; try (by eapply IH);
    try (by refine (Hsilent _ _ eq_refl); intros ? ?; discriminate).
  destruct Hloc as [Hq|Hq ?|Hq Hd|b links err Hq Hf|b links Hq Hf|? Hq|Hq];
    simpl in *; try (by eapply IH).
  - destruct l2 as [|e1 [|e2 l2]]; simplify_eq/=.
    + by exists (mkState cs em ex mn l1), c.
    + by eapply IH.
  - destruct l2 as [|e1 [|e2 l2]]; simplify_eq/=.
    + by exists (mkState cs em ex mn l1), c.
    + by eapply IH.
Qed.

Lemma count_none {A} (f : A -> bool) (l : list A) x :
  count f l = 0 -> x ∈ l -> f x = false.
Proof.
  intros Hz [n Hn]%list_elem_of_lookup. destruct (f x) eqn:E; [|done].
  pose proof (count_pos f l n x Hn E). lia.
Qed.

(** X12.  In the order of the events of a run, a call of [Fetch] for an
    address comes after the answer [true] to the goroutine that makes it,
    after no other call of [Fetch] for that address, before any "found"
    line for that address, and before the goroutine sends on its [ch]. *)
Theorem fetch_after_grant sched s l1 l2 i u :
  run init sched = Some s -> trace s = l2 ++ Fetching i u :: l1 ->
  Claimed i u true ∈ l1 /\
  (forall j, Fetching j u ∉ l1) /\
  (forall b, Printf_found u b ∉ l1) /\
  (forall c w, Signalled i c w ∉ l1).
Proof.
  intros Hrun Htr.
  assert (Reach s) as Hr by (eapply run_Reach; [constructor|done]).
  destruct (fetch_point s Hr _ _ _ _ Htr) as (s0 & c & Hr0 & <- & Hc & Hpc & <-).
  pose proof (Reach_good _ _ _ budget_in_range _ Hr0) as Hg.
  assert (fetches (url c) (trace s0) = 0) as Hz.
  { pose proof (good_once _ _ _ _ Hg (url c)) as HO.
    pose proof (grants_le_1 s0 (url c) (good_emap _ _ _ _ Hg)) as HG.
    assert (0 < count (holds_grant (url c)) (crawls s0)) as Hh; [|lia].
    apply (count_pos _ _ _ _ Hc). unfold holds_grant.
    by rewrite Hpc, bool_decide_eq_true_2. }
  split_and!.
  - destruct (good_claims _ _ _ _ Hg) as (_ & _ & _ & H4).
    specialize (H4 _ _ Hc). unfold claim_status in H4. rewrite Hpc in H4.
    by destruct H4.
  - intros j Hin.
    pose proof (count_none _ _ _ Hz Hin) as Hno. simpl in Hno.
    by rewrite bool_decide_eq_true_2 in Hno.
  - intros b Hin.
    destruct (Reach_counted _ _ _ budget_in_range _ Hr0) as (_ & _ & _ & (_ & H2 & _)).
    assert (founds (url c) (trace s0) = 0) as Hnone.
    { rewrite H2, Hz. by destruct (Fetch fetcher (url c)) as [[? ?] [?|]]. }
    pose proof (count_none _ _ _ Hnone Hin) as Hno. simpl in Hno.
    by rewrite bool_decide_eq_true_2 in Hno.
  - intros k w Hin. destruct (good_signals _ _ _ _ Hg) as [HS _].
    specialize (HS i). unfold finished_at in HS. rewrite Hc, Hpc in HS. simpl in HS.
    pose proof (count_none _ _ _ HS Hin) as Hno. simpl in Hno.
    by rewrite bool_decide_eq_true_2 in Hno.
Qed.

End Order.

Lemma fetch_after_grant_canned :
  Claimed 6 Canned.pkg_os true ∈ drop 21 (trace CannedRun.final) /\
  (forall j, Fetching j Canned.pkg_os ∉ drop 21 (trace CannedRun.final)) /\
  (forall b, Printf_found Canned.pkg_os b ∉ drop 21 (trace CannedRun.final)) /\
  (forall c w, Signalled 6 c w ∉ drop 21 (trace CannedRun.final)).
Proof.
  assert (trace CannedRun.final
          = take 20 (trace CannedRun.final)
            ++ Fetching 6 Canned.pkg_os :: drop 21 (trace CannedRun.final)) as Htr
    by (vm_compute; reflexivity).
  exact (fetch_after_grant Canned.fetcher CannedRun.root CannedRun.depth
           in_range_4 CannedRun.schedule CannedRun.final _ _ 6 Canned.pkg_os
           main_run_schedule Htr).
Defined.

(* ================================================================== *)
(** * The loop of the examiner from any state of the map *)

(** X13.  The loop of lines 90-95, started with any [emap]: there is one
    answer for each request; the answer is [true] exactly when the value
    read from the map at the start is [false] (the address is not a key,
    or is stored with [false]) and no earlier request carried the address;
    afterwards every address requested is stored with [true] and the
    other entries are as they were; and serving the requests in two
    batches is serving them in one. *)
Theorem examine_all_from (m : gmap string bool) (reqs : list string) :
  length (examine_all m reqs).1 = length reqs /\
  (forall n u, reqs !! n = Some u ->
     (examine_all m reqs).1 !! n
     = Some (negb (emap_get m u) && bool_decide (u ∉ take n reqs))) /\
  (forall u, (examine_all m reqs).2 !! u
             = if bool_decide (u ∈ reqs) then Some true else m !! u) /\
  (forall reqs',
     examine_all m (reqs ++ reqs')
     = ((examine_all m reqs).1 ++ (examine_all (examine_all m reqs).2 reqs').1,
        (examine_all (examine_all m reqs).2 reqs').2)).
Proof.
  split_and!.
  - apply examine_all_length.
  - intros n u. apply examine_all_answer.
  - apply examine_all_map.
  - revert m. induction reqs as [|u reqs IH]; intros m reqs'.
    + simpl. by destruct (examine_all m reqs').
    + rewrite <- app_comm_cons, !examine_all_cons. simpl. by rewrite IH.
Qed.
